(** * The TFLMS memory simulator ([simulator.py])

    A shallow embedding of [Simulator]: the memory ledger ([_allocate],
    [_release], [_gc], [_get_free_mem], [_is_swapin_tensor]) and the
    simulation driver [play], followed by the properties of the
    specification that were checked against it.

    Modelling conventions.
    - Python integers are [Z]; names are [string].
    - A Python [dict] is an association list in insertion order (module
      [Dict]): assigning an existing key keeps its position, a new key goes
      last, [del] removes the binding.  The order matters to
      [_is_swapin_tensor] (first match wins) and to [_gc] (release order).
    - A Python [set] is a duplicate-free list in first-insertion order; the
      iteration order of a real set is unspecified, the model fixes this one.
    - The graph analysis ([self._lms]) is outside the file: it is the record
      [LMS] of the queries the simulator makes.  Ops are identified by their
      names, tensors are records.
    - [self._max_mem] is computed once by [_initialize]; here it is a field of
      the configuration.  When the capacity is not an integer, comparing an
      integer against it is the same as comparing against its ceiling.
    - [KeyError] and [UnboundLocalError] are results of the monad [M], as is
      the early [return] of [play].
    - What a run lets an observer see is collected in order: every
      [_log_info] message and, for every sample appended to [_mem_traces],
      the ledger at that moment. *)

From Stdlib Require Import ZArith List String Bool Lia.
Import ListNotations.

Open Scope string_scope.
Open Scope Z_scope.
Open Scope list_scope.

(** ** Python containers *)

Module Dict.
Section Dict.
Context {K V : Type}.
Variable eqb : K -> K -> bool.

Fixpoint get (k : K) (d : list (K * V)) : option V :=
  match d with
  | [] => None
  | (k', v) :: d' => if eqb k k' then Some v else get k d'
  end.

Definition mem (k : K) (d : list (K * V)) : bool :=
  match get k d with Some _ => true | None => false end.

(** [d[k] = v] *)
Fixpoint set (k : K) (v : V) (d : list (K * V)) : list (K * V) :=
  match d with
  | [] => [(k, v)]
  | (k', v') :: d' => if eqb k k' then (k', v) :: d' else (k', v') :: set k v d'
  end.

(** [del d[k]], for a key that is present *)
Fixpoint del (k : K) (d : list (K * V)) : list (K * V) :=
  match d with
  | [] => []
  | (k', v') :: d' => if eqb k k' then d' else (k', v') :: del k d'
  end.

Definition keys (d : list (K * V)) : list K := map fst d.

End Dict.
End Dict.

Module PySet.
Section PySet.
Context {A : Type}.
Variable eqb : A -> A -> bool.

Definition mem (x : A) (s : list A) : bool := existsb (eqb x) s.

(** [s.add(x)] *)
Definition add (x : A) (s : list A) : list A :=
  if mem x s then s else s ++ [x].

(** [set(xs)] *)
Definition of_list (xs : list A) : list A :=
  fold_left (fun s x => add x s) xs [].

(** [s - t] *)
Definition diff (s t : list A) : list A :=
  filter (fun x => negb (mem x t)) s.

End PySet.
End PySet.

(** [sub in s] on Python strings *)
Definition contains (sub s : string) : bool :=
  match index 0 sub s with Some _ => true | None => false end.

(** ** The graph, as the simulator sees it *)

Record Tensor := {
  ts_name : string;
  ts_ndims : option Z;            (* [ts.shape.ndims] *)
  ts_consumers : list string      (* [ts.consumers()], by op name *)
}.

Record Op := {
  op_name : string;
  op_inputs : list Tensor;
  op_outputs : list Tensor
}.

Definition Tensor_eqb (a b : Tensor) : bool := String.eqb (ts_name a) (ts_name b).

(** The queries of [self._lms] that the simulator aliases in [__init__];
    [get_tensor_size] stands for [ut.get_tensor_size(ts, batch_size)]. *)
Record LMS := {
  _topo_sort_size : nat;
  _get_ops_by_level : Z -> list Op;
  _distance : string -> string -> Z;
  _get_level : string -> Z;
  _get_earliest_op : list string -> string;
  _groupby : list string -> Z -> list (list string);
  _excl_src_ops : list string;
  _excl_dest_ops : list string;
  get_tensor_size : Tensor -> Z
}.

(** The fields of [Simulator] that a run only reads. *)
Record Simulator := {
  _lms : LMS;
  _plot : bool;
  _swapout_delay : Z;
  _max_mem : Z
}.

(** The fields of [Simulator] that a run writes. *)
Record Ledger := {
  _mem : list (string * Z);
  _ref_counts : list (string * Z);
  _used_mem : Z;
  _mem_traces : list Z
}.

Definition set_mem (f : list (string * Z) -> list (string * Z)) (l : Ledger) :=
  {| _mem := f (_mem l); _ref_counts := _ref_counts l;
     _used_mem := _used_mem l; _mem_traces := _mem_traces l |}.
Definition set_ref_counts (f : list (string * Z) -> list (string * Z)) (l : Ledger) :=
  {| _mem := _mem l; _ref_counts := f (_ref_counts l);
     _used_mem := _used_mem l; _mem_traces := _mem_traces l |}.
Definition set_used_mem (f : Z -> Z) (l : Ledger) :=
  {| _mem := _mem l; _ref_counts := _ref_counts l;
     _used_mem := f (_used_mem l); _mem_traces := _mem_traces l |}.
Definition set_mem_traces (f : list Z -> list Z) (l : Ledger) :=
  {| _mem := _mem l; _ref_counts := _ref_counts l;
     _used_mem := _used_mem l; _mem_traces := f (_mem_traces l) |}.

(** ** Observations, results and the monad *)

(** The messages of [_log_info], by call site. *)
Inductive Msg :=
| Simulating (threshold ahead groupby : Z)
| SimulateLevel (k : Z)
| SwappedIn (k : Z) (ts_name : string)
| ExecuteOp (k : Z) (op_name : string)
| OOM (ts_name : string) (ts_size used free : Z)
| Allocated (ts_size : Z) (ts_name : string) (used free : Z)
| Released (ts_size : Z) (ts_name : string) (used free : Z)
| SwappedOut (k : Z) (ts_name : string)
| AvailableMemory (k : Z)
| SwappedOutTensors (n : Z)
| Diagram (threshold ahead groupby : Z) (traces : list Z).

Inductive Event :=
| Log (m : Msg)
| Sampled (l : Ledger).   (* a sample was appended; [l] is the ledger then *)

Inductive Exn :=
| KeyError (k : string)
| UnboundLocalError (v : string).

Inductive Res (A : Type) :=
| Val (a : A)             (* the statement ran to its end *)
| Return (b : bool)       (* [play] executed [return] *)
| Raise (e : Exn).
Arguments Val {A} a.
Arguments Return {A} b.
Arguments Raise {A} e.

Record World := { self : Ledger; out : list Event }.

Definition M (A : Type) := World -> Res A * World.

Definition ret {A} (a : A) : M A := fun w => (Val a, w).
Definition bind {A B} (m : M A) (f : A -> M B) : M B :=
  fun w => match m w with
           | (Val a, w') => f a w'
           | (Return b, w') => (Return b, w')
           | (Raise e, w') => (Raise e, w')
           end.
Definition raise {A} (e : Exn) : M A := fun w => (Raise e, w).
Definition return_ {A} (b : bool) : M A := fun w => (Return b, w).
Definition gets {A} (f : Ledger -> A) : M A := fun w => (Val (f (self w)), w).
Definition modify (f : Ledger -> Ledger) : M unit :=
  fun w => (Val tt, {| self := f (self w); out := out w |}).
Definition emit (e : Event) : M unit :=
  fun w => (Val tt, {| self := self w; out := out w ++ [e] |}).
Definition _log_info (m : Msg) : M unit := emit (Log m).

Notation "x <- m ;; k" := (bind m (fun x => k))
  (at level 61, m at next level, right associativity).
Notation "m ;; k" := (bind m (fun _ => k))
  (at level 61, right associativity).

(** [for x in xs: acc = body(acc, x)] *)
Fixpoint foldM {A B} (body : B -> A -> M B) (xs : list A) (acc : B) : M B :=
  match xs with
  | [] => ret acc
  | x :: xs' => acc' <- body acc x ;; foldM body xs' acc'
  end.

(** [for x in xs: body(x)] *)
Fixpoint forM_ {A} (body : A -> M unit) (xs : list A) : M unit :=
  match xs with
  | [] => ret tt
  | x :: xs' => body x ;; forM_ body xs'
  end.

(** [[x for x in xs if test(x)]] with a test that may raise *)
Fixpoint filterM {A} (test : A -> M bool) (xs : list A) : M (list A) :=
  match xs with
  | [] => ret []
  | x :: xs' =>
      b <- test x ;;
      rest <- filterM test xs' ;;
      ret (if b then x :: rest else rest)
  end.

(** [d[k]] on a field of the ledger *)
Definition getitem (field : Ledger -> list (string * Z)) (k : string) : M Z :=
  d <- gets field ;;
  match Dict.get String.eqb k d with
  | Some v => ret v
  | None => raise (KeyError k)
  end.

(** [del d[k]] on a field of the ledger *)
Definition delitem (field : Ledger -> list (string * Z))
    (upd : (list (string * Z) -> list (string * Z)) -> Ledger -> Ledger)
    (k : string) : M unit :=
  d <- gets field ;;
  if Dict.mem String.eqb k d then modify (upd (Dict.del String.eqb k))
  else raise (KeyError k).

(** ** The memory ledger *)

Section Simulator.
Variable sim : Simulator.

Definition _ts_size (ts : Tensor) : Z := get_tensor_size (_lms sim) ts.

Definition _get_free_mem (l : Ledger) : Z := _max_mem sim - _used_mem l.

Definition _reset : M unit :=
  modify (fun _ => {| _mem := []; _ref_counts := [];
                      _used_mem := 0; _mem_traces := [] |}).

(** [self._mem_traces.append(self._used_mem)] *)
Definition append_trace : M unit :=
  modify (fun l => set_mem_traces (fun t => t ++ [_used_mem l]) l) ;;
  l <- gets id ;;
  emit (Sampled l).

Definition _allocate (ts_name : string) (ts_size lifetime : Z) : M bool :=
  free <- gets _get_free_mem ;;
  let oom := ts_size >=? free in
  let succeed := negb oom in
  (if oom then
     used <- gets _used_mem ;;
     _log_info (OOM ts_name ts_size used free)
   else ret tt) ;;
  if oom && negb (_plot sim) then ret succeed
  else
    modify (set_used_mem (fun u => u + ts_size)) ;;
    modify (set_mem (Dict.set String.eqb ts_name ts_size)) ;;
    modify (set_ref_counts (Dict.set String.eqb ts_name lifetime)) ;;
    append_trace ;;
    used <- gets _used_mem ;;
    free' <- gets _get_free_mem ;;
    _log_info (Allocated ts_size ts_name used free') ;;
    ret succeed.

Definition _release (ts_name : string) : M unit :=
  ts_size <- getitem _mem ts_name ;;
  delitem _mem set_mem ts_name ;;
  delitem _ref_counts set_ref_counts ts_name ;;
  modify (set_used_mem (fun u => u - ts_size)) ;;
  append_trace ;;
  used <- gets _used_mem ;;
  free <- gets _get_free_mem ;;
  _log_info (Released ts_size ts_name used free).

Definition _gc : M unit :=
  rc <- gets _ref_counts ;;
  let cands := map fst (filter (fun kv => snd kv =? 0) rc) in
  forM_ _release cands.

Definition _is_swapin_tensor (ts_name op_name : string) : M (bool * string) :=
  m <- gets _mem ;;
  match find (fun s => contains ts_name s && contains op_name s) (Dict.keys m) with
  | Some s => ret (true, s)
  | None => ret (false, ts_name)
  end.

(** ** The driver *)

(** A swap-in descriptor: [(name, size, lifetime)]. *)
Definition Descr : Type := string * Z * Z.

Definition Descr_eqb (a b : Descr) : bool :=
  let '(n1, s1, l1) := a in
  let '(n2, s2, l2) := b in
  String.eqb n1 n2 && (s1 =? s2) && (l1 =? l2).

(** The local variables of [play] that outlive one statement.  [ts_size] is
    unbound until the swap-in loop or the swap-out loop assigns it. *)
Record Locals := {
  swapouts : list string;
  swapins : list (Z * list Descr);
  ts_size : option Z;
  passed : bool
}.

Definition set_swapouts (f : list string -> list string) (loc : Locals) :=
  {| swapouts := f (swapouts loc); swapins := swapins loc;
     ts_size := ts_size loc; passed := passed loc |}.
Definition set_swapins (f : list (Z * list Descr) -> list (Z * list Descr))
    (loc : Locals) :=
  {| swapouts := swapouts loc; swapins := f (swapins loc);
     ts_size := ts_size loc; passed := passed loc |}.
Definition set_ts_size (v : Z) (loc : Locals) :=
  {| swapouts := swapouts loc; swapins := swapins loc;
     ts_size := Some v; passed := passed loc |}.
Definition set_passed (b : bool) (loc : Locals) :=
  {| swapouts := swapouts loc; swapins := swapins loc;
     ts_size := ts_size loc; passed := b |}.

(** [len(xs)] *)
Definition len {A} (xs : list A) : Z := Z.of_nat (List.length xs).

(** [if not ok: passed = False; if not self._plot: return passed] *)
Definition check_ok (ok : bool) (loc : Locals) : M Locals :=
  if ok then ret loc
  else
    let loc' := set_passed false loc in
    if negb (_plot sim) then return_ (passed loc') else ret loc'.

(** lines 117-125: allocate memory for swapin tensors *)
Definition swapin_tensors (k : Z) (loc : Locals) : M Locals :=
  let name_size_lifetimes :=
    match Dict.get Z.eqb k (swapins loc) with Some s => s | None => [] end in
  foldM (fun loc nsl =>
           let '(ts_name, ts_size, lifetime) := nsl in
           let loc := set_ts_size ts_size loc in
           _log_info (SwappedIn k ts_name) ;;
           ok <- _allocate ts_name ts_size lifetime ;;
           check_ok ok loc)
        name_size_lifetimes loc.

(** lines 133-146: allocate memory for inputs.  The size passed to
    [_allocate] is the local [ts_size], whatever it was last bound to. *)
Definition allocate_inputs (op_name : string) (in_tensors : list Tensor)
    (loc : Locals) : M Locals :=
  foldM (fun loc ts =>
           let ts_name := ts_name ts in
           fs <- _is_swapin_tensor ts_name op_name ;;
           if fst fs then ret loc
           else
             resident <- gets (fun l => Dict.mem String.eqb ts_name (_mem l)) ;;
             if resident then ret loc
             else
               match ts_size loc with
               | None => raise (UnboundLocalError "ts_size")
               | Some ts_size =>
                   ok <- _allocate ts_name ts_size (len (ts_consumers ts)) ;;
                   check_ok ok loc
               end)
        in_tensors loc.

(** lines 149-158: allocate memory for outputs *)
Definition allocate_outputs (out_tensors : list Tensor) (loc : Locals)
    : M Locals :=
  foldM (fun loc ts =>
           let ts_name := ts_name ts in
           let n_consumers := len (ts_consumers ts) in
           if n_consumers =? 0 then ret loc
           else
             ok <- _allocate ts_name (_ts_size ts) n_consumers ;;
             check_ok ok loc)
        out_tensors loc.

(** [self._ref_counts[k] += d] *)
Definition add_ref_count (k : string) (d : Z) : M unit :=
  v <- getitem _ref_counts k ;;
  modify (set_ref_counts (Dict.set String.eqb k (v + d))).

(** lines 161-165: simulate execution *)
Definition consume_inputs (op_name : string) (in_tensors : list Tensor)
    : M unit :=
  forM_ (fun ts =>
           fs <- _is_swapin_tensor (ts_name ts) op_name ;;
           add_ref_count (snd fs) (-1))
        in_tensors.

(** lines 168-170: update ref_counts for swapout tensors *)
Definition update_swapouts (loc : Locals) : M unit :=
  xs <- filterM (fun x =>
                   resident <- gets (fun l => Dict.mem String.eqb x (_mem l)) ;;
                   if resident then
                     v <- getitem _ref_counts x ;;
                     ret (v >? 0)
                   else ret false)
                (swapouts loc) ;;
  forM_ (fun ts => add_ref_count ts (-1)) (PySet.of_list String.eqb xs).

(** lines 184-187 *)
Definition dest_ops_of (threshold : Z) (op_name : string) (ts : Tensor)
    : list string :=
  PySet.diff String.eqb
    (PySet.of_list String.eqb
       (filter (fun dest => _distance (_lms sim) op_name dest >? threshold)
               (ts_consumers ts)))
    (_excl_dest_ops (_lms sim)).

(** lines 199-207: one swap-in descriptor, for one group of destinations *)
Definition add_swapin (ahead : Z) (ts_name : string) (ts_size : Z)
    (dests : list string) (loc : Locals) : Locals :=
  let s := (ts_name ++ "_" ++ String.concat "_" dests)%string in
  let ts_info : Descr := (s, ts_size, len dests) in
  let dest := _get_earliest_op (_lms sim) dests in
  let sin_level := _get_level (_lms sim) dest - ahead in
  set_swapins
    (fun sw =>
       match Dict.get Z.eqb sin_level sw with
       | Some old => Dict.set Z.eqb sin_level (PySet.add Descr_eqb ts_info old) sw
       | None => Dict.set Z.eqb sin_level [ts_info] sw
       end)
    loc.

(** lines 179-207: the swap-out decision for one output *)
Definition swap_out_tensor (threshold ahead groupby k : Z) (op_name : string)
    (loc : Locals) (ts : Tensor) : M Locals :=
  match ts_ndims ts with
  | None => ret loc
  | Some ndims =>
      if ndims <=? 1 then ret loc
      else
        let ts_name := ts_name ts in
        let ts_size := _ts_size ts in
        let loc := set_ts_size ts_size loc in
        let dest_ops := dest_ops_of threshold op_name ts in
        match dest_ops with
        | [] => ret loc
        | _ :: _ =>
            add_ref_count ts_name (- len dest_ops) ;;
            add_ref_count ts_name (_swapout_delay sim) ;;
            let loc := set_swapouts (PySet.add String.eqb ts_name) loc in
            _log_info (SwappedOut k ts_name) ;;
            let dests_grp := _groupby (_lms sim) dest_ops groupby in
            ret (fold_left (fun loc dests => add_swapin ahead ts_name ts_size dests loc)
                           dests_grp loc)
        end
  end.

(** lines 176-207: swap out tensors *)
Definition swap_out_tensors (threshold ahead groupby k : Z) (op : Op)
    (out_tensors : list Tensor) (loc : Locals) : M Locals :=
  if PySet.mem String.eqb (op_name op) (_excl_src_ops (_lms sim)) then ret loc
  else foldM (swap_out_tensor threshold ahead groupby k (op_name op))
             out_tensors loc.

(** lines 128-207: one op *)
Definition execute_op (threshold ahead groupby k : Z) (loc : Locals) (op : Op)
    : M Locals :=
  _log_info (ExecuteOp k (op_name op)) ;;
  let in_tensors := PySet.of_list Tensor_eqb (op_inputs op) in
  let out_tensors := PySet.of_list Tensor_eqb (op_outputs op) in
  loc <- allocate_inputs (op_name op) in_tensors loc ;;
  loc <- allocate_outputs out_tensors loc ;;
  consume_inputs (op_name op) in_tensors ;;
  update_swapouts loc ;;
  _gc ;;
  swap_out_tensors threshold ahead groupby k op out_tensors loc.

(** lines 111-210: one level *)
Definition simulate_level (threshold ahead groupby : Z) (loc : Locals) (k : Z)
    : M Locals :=
  _log_info (SimulateLevel k) ;;
  _gc ;;
  let k_ops := _get_ops_by_level (_lms sim) k in
  loc <- swapin_tensors k loc ;;
  loc <- foldM (execute_op threshold ahead groupby k) k_ops loc ;;
  _log_info (AvailableMemory k) ;;
  ret loc.

(** [range(0, n)] *)
Definition range (n : nat) : list Z := map Z.of_nat (seq 0 n).

Definition _generate_diagram (threshold ahead groupby : Z) : M unit :=
  t <- gets _mem_traces ;;
  _log_info (Diagram threshold ahead groupby t).

Definition init_locals : Locals :=
  {| swapouts := []; swapins := []; ts_size := None; passed := true |}.

(** The body of [play], with [return] still a result of the monad. *)
Definition play_body (threshold ahead groupby : Z) : M bool :=
  _reset ;;
  _log_info (Simulating threshold ahead groupby) ;;
  loc <- foldM (simulate_level threshold ahead groupby)
               (range (_topo_sort_size (_lms sim))) init_locals ;;
  (if _plot sim then _generate_diagram threshold ahead groupby else ret tt) ;;
  _log_info (SwappedOutTensors (len (swapouts loc))) ;;
  ret (passed loc).

(** How a call ends. *)
Inductive Outcome :=
| Returned (b : bool)
| Raised (e : Exn).

(** [play]: the outcome of the call, the ledger it leaves on the simulator
    and what the call let be observed. *)
Definition play (threshold ahead groupby : Z) (l : Ledger)
    : Outcome * Ledger * list Event :=
  let '(r, w) := play_body threshold ahead groupby {| self := l; out := [] |} in
  (match r with
   | Val b => Returned b
   | Return b => Returned b
   | Raise e => Raised e
   end, self w, out w).

End Simulator.

(** * Graphs to run the simulator on *)

(** ** A graph with a swapped-out tensor

    Five ops on ten levels.  [A] (level 0) produces the rank-2 tensor [A:0]
    of 100 bytes for [B] (level 3) and [C] (level 9); [X] (level 1) produces
    the rank-2 tensor [X:0] of 7 bytes for [Y] (level 2); [Y] produces [Y:0]
    for [B]; [B] produces [B:0] for [C].  The distance of two ops is the
    difference of their levels, a group is a single destination. *)

Definition ex_T : Tensor :=
  {| ts_name := "A:0"; ts_ndims := Some 2; ts_consumers := ["B"; "C"] |}.
Definition ex_V : Tensor :=
  {| ts_name := "X:0"; ts_ndims := Some 2; ts_consumers := ["Y"] |}.
Definition ex_W : Tensor :=
  {| ts_name := "Y:0"; ts_ndims := Some 0; ts_consumers := ["B"] |}.
Definition ex_U : Tensor :=
  {| ts_name := "B:0"; ts_ndims := Some 0; ts_consumers := ["C"] |}.

Definition ex_A : Op := {| op_name := "A"; op_inputs := []; op_outputs := [ex_T] |}.
Definition ex_X : Op := {| op_name := "X"; op_inputs := []; op_outputs := [ex_V] |}.
Definition ex_Y : Op := {| op_name := "Y"; op_inputs := [ex_V]; op_outputs := [ex_W] |}.
Definition ex_B : Op :=
  {| op_name := "B"; op_inputs := [ex_T; ex_W]; op_outputs := [ex_U] |}.
Definition ex_C : Op :=
  {| op_name := "C"; op_inputs := [ex_T; ex_U]; op_outputs := [] |}.

Definition ex_level (n : string) : Z :=
  if String.eqb n "A" then 0
  else if String.eqb n "X" then 1
  else if String.eqb n "Y" then 2
  else if String.eqb n "B" then 3
  else 9.

Definition ex_size (t : Tensor) : Z :=
  if String.eqb (ts_name t) "A:0" then 100
  else if String.eqb (ts_name t) "X:0" then 7
  else 1.

Definition ex_lms : LMS :=
  {| _topo_sort_size := 10;
     _get_ops_by_level := fun k =>
       match k with
       | 0 => [ex_A] | 1 => [ex_X] | 2 => [ex_Y] | 3 => [ex_B] | 9 => [ex_C]
       | _ => []
       end;
     _distance := fun a b => ex_level b - ex_level a;
     _get_level := ex_level;
     _get_earliest_op := fun dests => hd "" dests;
     _groupby := fun dests _ => map (fun d => [d]) dests;
     _excl_src_ops := [];
     _excl_dest_ops := [];
     get_tensor_size := ex_size |}.

(** Strict mode, one kilobyte. *)
Definition ex_sim : Simulator :=
  {| _lms := ex_lms; _plot := false; _swapout_delay := 1; _max_mem := 1000 |}.

(** Diagnostic mode, fifty bytes. *)
Definition ex_sim_plot : Simulator :=
  {| _lms := ex_lms; _plot := true; _swapout_delay := 1; _max_mem := 50 |}.

(** The messages among the observations of a run. *)
Definition logged (o : list Event) : list Msg :=
  flat_map (fun e => match e with Log m => [m] | Sampled _ => [] end) o.

(** ** A producer and its consumer

    [A] (level 0) produces the rank-0 tensor [A:0] of 5 bytes for [B]
    (level 1). *)
Definition sa_T : Tensor :=
  {| ts_name := "A:0"; ts_ndims := Some 0; ts_consumers := ["B"] |}.

Definition sa_lms : LMS :=
  {| _topo_sort_size := 2;
     _get_ops_by_level := fun k =>
       match k with
       | 0 => [{| op_name := "A"; op_inputs := []; op_outputs := [sa_T] |}]
       | 1 => [{| op_name := "B"; op_inputs := [sa_T]; op_outputs := [] |}]
       | _ => []
       end;
     _distance := fun _ _ => 1;
     _get_level := fun n => if String.eqb n "A" then 0 else 1;
     _get_earliest_op := fun dests => hd "" dests;
     _groupby := fun dests _ => [dests];
     _excl_src_ops := [];
     _excl_dest_ops := [];
     get_tensor_size := fun _ => 5 |}.

Definition sa_sim : Simulator :=
  {| _lms := sa_lms; _plot := false; _swapout_delay := 1; _max_mem := 1000 |}.

(** ** A swap-in whose name contains another tensor's name

    [P1] (level 0) produces the rank-2 tensor [xx:0], [P2] (level 2) produces
    the rank-0 tensor [x:0], both for [C] (level 3) only.  With threshold 1
    and ahead 0, [xx:0] is swapped out and its swap-in [xx:0_C] lands at
    level 3; [x:0] has rank 0 and stays resident. *)

Definition al_T1 : Tensor :=
  {| ts_name := "xx:0"; ts_ndims := Some 2; ts_consumers := ["C"] |}.
Definition al_T2 : Tensor :=
  {| ts_name := "x:0"; ts_ndims := Some 0; ts_consumers := ["C"] |}.
Definition al_P1 : Op := {| op_name := "P1"; op_inputs := []; op_outputs := [al_T1] |}.
Definition al_P2 : Op := {| op_name := "P2"; op_inputs := []; op_outputs := [al_T2] |}.
Definition al_C : Op :=
  {| op_name := "C"; op_inputs := [al_T1; al_T2]; op_outputs := [] |}.

Definition al_level (n : string) : Z :=
  if String.eqb n "P1" then 0 else if String.eqb n "P2" then 2 else 3.

Definition al_lms : LMS :=
  {| _topo_sort_size := 4;
     _get_ops_by_level := fun k =>
       match k with 0 => [al_P1] | 2 => [al_P2] | 3 => [al_C] | _ => [] end;
     _distance := fun a b => al_level b - al_level a;
     _get_level := al_level;
     _get_earliest_op := fun dests => hd "" dests;
     _groupby := fun dests _ => map (fun d => [d]) dests;
     _excl_src_ops := [];
     _excl_dest_ops := [];
     get_tensor_size := fun t => if String.eqb (ts_name t) "xx:0" then 10 else 20 |}.

Definition al_sim : Simulator :=
  {| _lms := al_lms; _plot := false; _swapout_delay := 1; _max_mem := 1000 |}.

(** ** A back edge

    A graph with a back edge, as a loop makes one: [M] (level 1) consumes
    [N:0], which [N] (level 2) produces from [M:0]; [N:0] has a second
    consumer [Z] (level 3).  Nothing is swapped out (threshold 100). *)
Definition lp_E0 : Tensor :=
  {| ts_name := "E:0"; ts_ndims := Some 2; ts_consumers := ["M"] |}.
Definition lp_M0 : Tensor :=
  {| ts_name := "M:0"; ts_ndims := Some 0; ts_consumers := ["N"] |}.
Definition lp_N0 : Tensor :=
  {| ts_name := "N:0"; ts_ndims := Some 0; ts_consumers := ["M"; "Z"] |}.
Definition lp_E : Op := {| op_name := "E"; op_inputs := []; op_outputs := [lp_E0] |}.
Definition lp_M : Op :=
  {| op_name := "M"; op_inputs := [lp_E0; lp_N0]; op_outputs := [lp_M0] |}.
Definition lp_N : Op := {| op_name := "N"; op_inputs := [lp_M0]; op_outputs := [lp_N0] |}.
Definition lp_Z : Op := {| op_name := "Z"; op_inputs := [lp_N0]; op_outputs := [] |}.

Definition lp_level (n : string) : Z :=
  if String.eqb n "E" then 0
  else if String.eqb n "M" then 1
  else if String.eqb n "N" then 2
  else 3.

Definition lp_lms : LMS :=
  {| _topo_sort_size := 4;
     _get_ops_by_level := fun k =>
       match k with
       | 0 => [lp_E] | 1 => [lp_M] | 2 => [lp_N] | 3 => [lp_Z] | _ => []
       end;
     _distance := fun a b => Z.abs (lp_level b - lp_level a);
     _get_level := lp_level;
     _get_earliest_op := fun dests => hd "" dests;
     _groupby := fun dests _ => map (fun d => [d]) dests;
     _excl_src_ops := [];
     _excl_dest_ops := [];
     get_tensor_size := fun t =>
       if String.eqb (ts_name t) "E:0" then 4
       else if String.eqb (ts_name t) "N:0" then 8
       else 1 |}.

Definition lp_sim : Simulator :=
  {| _lms := lp_lms; _plot := false; _swapout_delay := 1; _max_mem := 1000 |}.

(** ** An op whose output's name contains its input's name

    [mul] (level 0) produces the rank-0 tensor [mul:0] for [grad/mul]
    (level 1), which produces the rank-2 tensor [grad/mul:0] for [far]
    (level 5).  The name [grad/mul:0] contains both [mul:0] and
    [grad/mul]. *)

Definition gm_T : Tensor :=
  {| ts_name := "mul:0"; ts_ndims := Some 0; ts_consumers := ["grad/mul"] |}.
Definition gm_G : Tensor :=
  {| ts_name := "grad/mul:0"; ts_ndims := Some 2; ts_consumers := ["far"] |}.

Definition gm_level (n : string) : Z :=
  if String.eqb n "mul" then 0
  else if String.eqb n "grad/mul" then 1
  else 5.

Definition gm_lms : LMS :=
  {| _topo_sort_size := 6;
     _get_ops_by_level := fun k =>
       match k with
       | 0 => [{| op_name := "mul"; op_inputs := []; op_outputs := [gm_T] |}]
       | 1 => [{| op_name := "grad/mul"; op_inputs := [gm_T]; op_outputs := [gm_G] |}]
       | 5 => [{| op_name := "far"; op_inputs := [gm_G]; op_outputs := [] |}]
       | _ => []
       end;
     _distance := fun a b => gm_level b - gm_level a;
     _get_level := gm_level;
     _get_earliest_op := fun dests => hd "" dests;
     _groupby := fun dests _ => [dests];
     _excl_src_ops := [];
     _excl_dest_ops := [];
     get_tensor_size := fun _ => 4 |}.

Definition gm_sim : Simulator :=
  {| _lms := gm_lms; _plot := false; _swapout_delay := 1; _max_mem := 1000 |}.

(** Diagnostic mode, four bytes: no tensor fits. *)
Definition gm_sim_plot : Simulator :=
  {| _lms := gm_lms; _plot := true; _swapout_delay := 1; _max_mem := 4 |}.

(** ** Two groups of destinations with the same joined names

    [x] (level 0) produces the rank-2 tensor [x:0] of 10 bytes for
    [conv_relu] (level 3), [conv] and [relu] (level 4) and [relu_conv]
    (level 5).  The distance of two ops is the difference of their levels;
    the destinations are grouped by level, in the order of the consumers of
    the tensor.  The names of the group of level 4, joined by an underscore,
    are the name of the op of level 3 or, taken in the other order, that of
    the op of level 5. *)

Definition cr_tensor (consumers : list string) : Tensor :=
  {| ts_name := "x:0"; ts_ndims := Some 2; ts_consumers := consumers |}.

Definition cr_ops (t : Tensor) (k : Z) : list Op :=
  match k with
  | 0 => [{| op_name := "x"; op_inputs := []; op_outputs := [t] |}]
  | 3 => [{| op_name := "conv_relu"; op_inputs := [t]; op_outputs := [] |}]
  | 4 => [{| op_name := "conv"; op_inputs := [t]; op_outputs := [] |};
          {| op_name := "relu"; op_inputs := [t]; op_outputs := [] |}]
  | 5 => [{| op_name := "relu_conv"; op_inputs := [t]; op_outputs := [] |}]
  | _ => []
  end.

Definition cr_level (n : string) : Z :=
  if String.eqb n "x" then 0
  else if String.eqb n "conv_relu" then 3
  else if String.eqb n "relu_conv" then 5
  else 4.

(** Strict mode, one kilobyte. *)
Definition cr_sim (t : Tensor) : Simulator :=
  {| _lms :=
       {| _topo_sort_size := 6;
          _get_ops_by_level := cr_ops t;
          _distance := fun a b => cr_level b - cr_level a;
          _get_level := cr_level;
          _get_earliest_op := fun dests => hd "" dests;
          _groupby := fun dests _ =>
            map (fun k => filter (fun d => Z.eqb (cr_level d) k) dests) [3; 4; 5];
          _excl_src_ops := [];
          _excl_dest_ops := [];
          get_tensor_size := fun _ => 10 |};
     _plot := false; _swapout_delay := 1; _max_mem := 1000 |}.

(** The tensor, with [conv] before [relu] among its consumers, and with
    [relu] before [conv]. *)
Definition cr_T : Tensor := cr_tensor ["conv_relu"; "conv"; "relu"; "relu_conv"].
Definition cr_T' : Tensor := cr_tensor ["conv_relu"; "relu"; "conv"; "relu_conv"].

(** * Properties *)

(** ** The ledger operations, in closed form *)

(** The ledger after the allocating part of [_allocate]. *)
Definition allocated (ts_name : string) (ts_size lifetime : Z) (l : Ledger)
    : Ledger :=
  {| _mem := Dict.set String.eqb ts_name ts_size (_mem l);
     _ref_counts := Dict.set String.eqb ts_name lifetime (_ref_counts l);
     _used_mem := _used_mem l + ts_size;
     _mem_traces := _mem_traces l ++ [_used_mem l + ts_size] |}.

Lemma allocate_oom_strict sim n sz lt w :
  sz >= _get_free_mem sim (self w) -> _plot sim = false ->
  _allocate sim n sz lt w =
    (Val false,
     {| self := self w;
        out := out w ++ [Log (OOM n sz (_used_mem (self w))
                                  (_get_free_mem sim (self w)))] |}).
Proof.
  intros Hoom Hplot. unfold _allocate, bind, gets, _log_info, emit, ret.
  cbn. rewrite Hplot. destruct (Z.geb_spec sz (_get_free_mem sim (self w))); [|lia].
  reflexivity.
Qed.

Lemma allocate_oom_plot sim n sz lt w :
  sz >= _get_free_mem sim (self w) -> _plot sim = true ->
  _allocate sim n sz lt w =
    (Val false,
     {| self := allocated n sz lt (self w);
        out := out w ++ [Log (OOM n sz (_used_mem (self w))
                                  (_get_free_mem sim (self w)))]
                     ++ [Sampled (allocated n sz lt (self w))]
                     ++ [Log (Allocated sz n (_used_mem (self w) + sz)
                                (_get_free_mem sim (allocated n sz lt (self w))))] |}).
Proof.
  intros Hoom Hplot.
  unfold _allocate, bind, gets, _log_info, emit, ret, append_trace, modify.
  cbn. rewrite Hplot. destruct (Z.geb_spec sz (_get_free_mem sim (self w))); [|lia].
  cbn. rewrite <- !app_assoc. reflexivity.
Qed.

Lemma allocate_fits sim n sz lt w :
  sz < _get_free_mem sim (self w) ->
  _allocate sim n sz lt w =
    (Val true,
     {| self := allocated n sz lt (self w);
        out := out w ++ [Sampled (allocated n sz lt (self w))]
                     ++ [Log (Allocated sz n (_used_mem (self w) + sz)
                                (_get_free_mem sim (allocated n sz lt (self w))))] |}).
Proof.
  intros Hfit.
  unfold _allocate, bind, gets, _log_info, emit, ret, append_trace, modify.
  cbn. destruct (Z.geb_spec sz (_get_free_mem sim (self w))); [lia|].
  cbn. rewrite <- !app_assoc. reflexivity.
Qed.

(** C3. [_allocate] always hands back a boolean, and that boolean is [False]
    exactly when the requested size is at least [capacity - used]; a request
    of exactly the free bytes therefore fails. *)
Theorem allocate_false_iff_size_ge_free :
  forall sim n sz lt w,
    (exists b, fst (_allocate sim n sz lt w) = Val b) /\
    (fst (_allocate sim n sz lt w) = Val false <->
       sz >= _max_mem sim - _used_mem (self w)) /\
    fst (_allocate sim n (_max_mem sim - _used_mem (self w)) lt w) = Val false.
Proof.
  assert (step : forall sim n sz lt w,
            fst (_allocate sim n sz lt w)
            = Val (negb (sz >=? _max_mem sim - _used_mem (self w)))).
  { intros sim n sz lt w.
    destruct (Z.geb_spec sz (_max_mem sim - _used_mem (self w))) as [Hge|Hlt].
    - destruct (_plot sim) eqn:Hplot.
      + rewrite allocate_oom_plot; unfold _get_free_mem; auto; lia.
      + rewrite allocate_oom_strict; unfold _get_free_mem; auto; lia.
    - rewrite allocate_fits; unfold _get_free_mem; auto. }
  intros sim n sz lt w. split; [|split].
  - rewrite step. eauto.
  - rewrite step.
    destruct (Z.geb_spec sz (_max_mem sim - _used_mem (self w))); cbn;
      split; intros; try lia; try discriminate; reflexivity.
  - rewrite step. rewrite (proj2 (Z.geb_le _ _)); [reflexivity|lia].
Qed.

(** C9. A failed [_allocate] in strict mode (no plotting) leaves the ledger
    as it was; in diagnostic mode (plotting) it leaves the ledger of a
    successful call: the entry inserted, its reference count set to the
    lifetime, the full size added to the used bytes, a sample appended, and
    the sample is observed. *)
Theorem allocate_failure_by_mode :
  forall sim n sz lt w,
    sz >= _get_free_mem sim (self w) ->
    fst (_allocate sim n sz lt w) = Val false /\
    (_plot sim = false ->
       self (snd (_allocate sim n sz lt w)) = self w) /\
    (_plot sim = true ->
       self (snd (_allocate sim n sz lt w)) = allocated n sz lt (self w) /\
       In (Sampled (allocated n sz lt (self w)))
          (out (snd (_allocate sim n sz lt w))) /\
       forall sim' w',
         self w' = self w -> sz < _get_free_mem sim' (self w') ->
         self (snd (_allocate sim' n sz lt w')) =
         self (snd (_allocate sim n sz lt w))).
Proof.
  intros sim n sz lt w Hoom. destruct (_plot sim) eqn:Hplot.
  - split; [|split; [discriminate|intros _; split; [|split]]].
    + now rewrite allocate_oom_plot.
    + now rewrite allocate_oom_plot.
    + rewrite allocate_oom_plot by assumption.
      apply in_or_app. right. cbn. auto.
    + intros sim' w' Hw Hfit.
      rewrite allocate_fits, allocate_oom_plot by assumption.
      cbn. now rewrite Hw.
  - rewrite allocate_oom_strict by assumption. cbn.
    split; [reflexivity|]. split; [reflexivity|discriminate].
Qed.

(** ** Reasoning about runs *)

Lemma bind_eq {A B} (m : M A) (f : A -> M B) w :
  bind m f w = match m w with
               | (Val a, w') => f a w'
               | (Return b, w') => (Return b, w')
               | (Raise e, w') => (Raise e, w')
               end.
Proof. reflexivity. Qed.

Lemma foldM_cons {A B} (body : B -> A -> M B) x xs acc w :
  foldM body (x :: xs) acc w
  = match body acc x w with
    | (Val acc', w') => foldM body xs acc' w'
    | (Return b, w') => (Return b, w')
    | (Raise e, w') => (Raise e, w')
    end.
Proof. reflexivity. Qed.

Lemma forM_cons {A} (body : A -> M unit) x xs w :
  forM_ body (x :: xs) w
  = match body x w with
    | (Val _, w') => forM_ body xs w'
    | (Return b, w') => (Return b, w')
    | (Raise e, w') => (Raise e, w')
    end.
Proof. reflexivity. Qed.

(** [preserves P m]: whatever way [m] ends, it takes a world in [P] to a
    world in [P]. *)
Definition preserves {A} (P : World -> Prop) (m : M A) : Prop :=
  forall w, P w -> P (snd (m w)).

Section Preserves.
Variable P : World -> Prop.

Lemma preserves_ret {A} (a : A) : preserves P (ret a).
Proof. intros w H. exact H. Qed.

Lemma preserves_raise {A} e : preserves P (@raise A e).
Proof. intros w H. exact H. Qed.

Lemma preserves_return {A} b : preserves P (@return_ A b).
Proof. intros w H. exact H. Qed.

Lemma preserves_gets {A} (f : Ledger -> A) : preserves P (gets f).
Proof. intros w H. exact H. Qed.

Lemma preserves_bind {A B} (m : M A) (f : A -> M B) :
  preserves P m -> (forall a, preserves P (f a)) -> preserves P (bind m f).
Proof.
  intros Hm Hf w H. unfold bind. specialize (Hm w H).
  destruct (m w) as [[a|b|e] w']; cbn in *; auto. now apply Hf.
Qed.

Lemma preserves_foldM {A B} (body : B -> A -> M B) xs :
  (forall acc x, preserves P (body acc x)) ->
  forall acc, preserves P (foldM body xs acc).
Proof.
  intros Hbody. induction xs as [|x xs IH]; intros acc; cbn.
  - apply preserves_ret.
  - apply preserves_bind; auto.
Qed.

Lemma preserves_forM {A} (body : A -> M unit) xs :
  (forall x, preserves P (body x)) -> preserves P (forM_ body xs).
Proof.
  intros Hbody. induction xs as [|x xs IH]; cbn.
  - apply preserves_ret.
  - apply preserves_bind; auto.
Qed.

Lemma preserves_filterM {A} (test : A -> M bool) xs :
  (forall x, preserves P (test x)) -> preserves P (filterM test xs).
Proof.
  intros Htest. induction xs as [|x xs IH]; cbn.
  - apply preserves_ret.
  - apply preserves_bind; auto. intros b.
    apply preserves_bind; auto. intros rest. apply preserves_ret.
Qed.

End Preserves.

Create HintDb pres.
Create HintDb sim.

Create HintDb ledger.

(** The driver, and the ledger operations it is made of. *)
#[global] Hint Unfold _gc _is_swapin_tensor getitem check_ok swapin_tensors
  allocate_inputs allocate_outputs consume_inputs update_swapouts
  swap_out_tensor swap_out_tensors execute_op simulate_level
  _generate_diagram _log_info : sim.
#[global] Hint Unfold _allocate _release _reset append_trace delitem
  add_ref_count : ledger.

(** Walks through the control structure of a statement, leaving the
    [modify] and [emit] steps to the hints of [pres]. *)
Ltac pres_step :=
  first
    [ assumption
    | solve [auto with pres]
    | apply preserves_ret | apply preserves_raise | apply preserves_return
    | apply preserves_gets
    | apply preserves_bind; [|intros ?]
    | apply preserves_foldM; intros ? ?
    | apply preserves_forM; intros ?
    | apply preserves_filterM; intros ?
    | match goal with
      | |- preserves _ (match ?x with _ => _ end) => destruct x
      end
    | progress cbv zeta
    | progress autounfold with sim
    | progress autounfold with ledger ].

Ltac pres := repeat pres_step.

(** *** What a run lets be observed of a given class *)

Section Kept.
Variable cls : Event -> bool.

(** The events of class [cls] observed so far are [L]. *)
Definition kept (L : list Event) (w : World) : Prop := filter cls (out w) = L.

Lemma kept_modify L f : preserves (kept L) (modify f).
Proof. intros w H. exact H. Qed.

Lemma kept_emit L e : cls e = false -> preserves (kept L) (emit e).
Proof.
  intros He w H. unfold kept in *. cbn. rewrite filter_app. cbn.
  rewrite He, app_nil_r. exact H.
Qed.

Lemma emit_kept L e w :
  cls e = true -> kept L w -> kept (L ++ [e]) (snd (emit e w)).
Proof.
  intros He H. unfold kept in *. cbn. rewrite filter_app. cbn.
  now rewrite He, H.
Qed.

End Kept.

#[global] Hint Resolve kept_modify : pres.
#[global] Hint Extern 1 (preserves (kept _ _) (emit _)) =>
  apply kept_emit; reflexivity : pres.

(** ** Levels *)

Definition is_level (e : Event) : bool :=
  match e with Log (SimulateLevel _) => true | _ => false end.

Lemma simulate_level_once sim th ah gb loc k L w :
  kept is_level L w ->
  kept is_level (L ++ [Log (SimulateLevel k)])
       (snd (simulate_level sim th ah gb loc k w)).
Proof.
  intros H. unfold simulate_level.
  change ((_log_info (SimulateLevel k) ;; ?rest) w)
    with (rest (snd (emit (Log (SimulateLevel k)) w))).
  apply (emit_kept is_level L (Log (SimulateLevel k)) w eq_refl) in H.
  revert H. generalize (snd (emit (Log (SimulateLevel k)) w)). intros w' H.
  revert w' H.
  match goal with |- forall w', _ -> kept _ _ (snd (?m w')) =>
    change (preserves (kept is_level (L ++ [Log (SimulateLevel k)])) m) end.
  pres.
Qed.

Definition level_events (ks : list Z) : list Event :=
  map (fun k => Log (SimulateLevel k)) ks.

(** The level loop starts the levels of a prefix of its range, in order, and
    of the whole range when it runs to its end. *)
Lemma levels_loop sim th ah gb ks :
  forall loc L w,
    kept is_level L w ->
    exists m,
      (m <= List.length ks)%nat /\
      kept is_level (L ++ level_events (firstn m ks))
           (snd (foldM (simulate_level sim th ah gb) ks loc w)) /\
      (forall loc', fst (foldM (simulate_level sim th ah gb) ks loc w) = Val loc' ->
                    m = List.length ks).
Proof.
  induction ks as [|k ks IH]; intros loc L w H.
  - exists 0%nat. cbn. rewrite app_nil_r. auto.
  - rewrite foldM_cons.
    pose proof (simulate_level_once sim th ah gb loc k L w H) as H1.
    destruct (simulate_level sim th ah gb loc k w) as [[loc1|b|e] w1]; cbn in H1.
    + destruct (IH loc1 _ w1 H1) as (m & Hm & Hk & Hv).
      exists (S m). cbn. rewrite <- app_assoc in Hk. cbn in Hk.
      split; [lia|]. split; [exact Hk|]. intros loc' E. f_equal. eauto.
    + exists 1%nat. cbn. split; [lia|]. split; [exact H1|]. discriminate.
    + exists 1%nat. cbn. split; [lia|]. split; [exact H1|]. discriminate.
Qed.

Lemma firstn_seq_le m : forall n s, (m <= n)%nat -> firstn m (seq s n) = seq s m.
Proof.
  induction m as [|m IH]; intros n s H; [reflexivity|].
  destruct n as [|n]; [lia|]. cbn. f_equal. apply IH. lia.
Qed.

Lemma firstn_range m n : (m <= n)%nat -> firstn m (range n) = range m.
Proof.
  intros H. unfold range. now rewrite firstn_map, firstn_seq_le.
Qed.

Lemma length_range n : List.length (range n) = n.
Proof. unfold range. now rewrite length_map, length_seq. Qed.

(** The levels started by a call of [play]: a prefix of [range(0, size)],
    and all of it when the level loop ran to its end. *)
Lemma play_body_levels sim th ah gb l :
  exists m,
    (m <= _topo_sort_size (_lms sim))%nat /\
    filter is_level (out (snd (play_body sim th ah gb {| self := l; out := [] |})))
    = level_events (range m) /\
    (forall b, fst (play_body sim th ah gb {| self := l; out := [] |}) = Val b ->
               m = _topo_sort_size (_lms sim)).
Proof.
  unfold play_body.
  set (w0 := {| self := l; out := [] |}).
  change ((_reset ;; ?rest) w0) with (rest (snd (_reset w0))).
  set (w1 := snd (_reset w0)).
  change ((_log_info ?msg ;; ?rest) w1) with (rest (snd (_log_info msg w1))).
  set (w2 := snd (_log_info _ w1)).
  assert (H2 : kept is_level [] w2) by reflexivity.
  clearbody w2. clear w0 w1.
  rewrite bind_eq.
  destruct (levels_loop sim th ah gb (range (_topo_sort_size (_lms sim)))
              init_locals [] w2 H2) as (m & Hm & Hk & Hv).
  rewrite length_range in Hm, Hv. rewrite firstn_range in Hk by exact Hm.
  exists m. split; [exact Hm|].
  destruct (foldM _ _ _ w2) as [[loc|b|e] w3]; cbn in Hk, Hv |- *.
  - split.
    + revert w3 Hk.
      match goal with |- forall w3, _ -> filter _ (out (snd (?c w3))) = _ =>
        change (preserves (kept is_level (level_events (range m))) c) end.
      pres.
    + intros _ _. eauto.
  - split; [exact Hk|discriminate].
  - split; [exact Hk|discriminate].
Qed.

(** C10. Every call of [play] ends, with a returned boolean or a raised
    exception, and the levels it started are [0, 1, ..., m-1] for some [m]
    not above the number of levels: one iteration per level at most. *)
Theorem play_terminates_within_levels :
  forall sim th ah gb l,
  exists r l' o,
    play sim th ah gb l = (r, l', o) /\
    exists m,
      (m <= _topo_sort_size (_lms sim))%nat /\
      filter is_level o = level_events (range m) /\
      List.length (filter is_level o) = m.
Proof.
  intros sim th ah gb l.
  destruct (play_body_levels sim th ah gb l) as (m & Hm & Hk & _).
  unfold play.
  destruct (play_body sim th ah gb {| self := l; out := [] |}) as [r w].
  cbn in Hk. do 3 eexists. split; [reflexivity|].
  exists m. split; [exact Hm|]. split; [exact Hk|].
  rewrite Hk. unfold level_events. now rewrite length_map, length_range.
Qed.

(** ** Successive calls *)

Definition empty_ledger : Ledger :=
  {| _mem := []; _ref_counts := []; _used_mem := 0; _mem_traces := [] |}.

Lemma play_resets sim th ah gb l :
  play sim th ah gb l = play sim th ah gb empty_ledger.
Proof. reflexivity. Qed.

(** The memory trace and the number of swapped-out tensors a call reports. *)
Definition trace_of (x : Outcome * Ledger * list Event) : list Z :=
  _mem_traces (snd (fst x)).

Definition swapped_out_count (x : Outcome * Ledger * list Event) : list Z :=
  flat_map (fun e => match e with Log (SwappedOutTensors n) => [n] | _ => [] end)
           (snd x).

(** C8. A call of [play] on the simulator as a first call left it gives what
    the first call gave: the same outcome, the same ledger (hence the same
    memory trace) and the same observations (hence the same count of
    swapped-out tensors). *)
Theorem play_twice_same_outcome :
  forall sim th ah gb l,
    let first := play sim th ah gb l in
    let second := play sim th ah gb (snd (fst first)) in
    second = first /\
    fst (fst second) = fst (fst first) /\
    trace_of second = trace_of first /\
    swapped_out_count second = swapped_out_count first.
Proof.
  intros sim th ah gb l first second.
  assert (E : second = first).
  { subst first second. rewrite play_resets. symmetry. apply play_resets. }
  rewrite E. auto.
Qed.

(** ** Failed allocations and the outcome *)

(** [falls_through m]: [m] contains no [return] of [play]. *)
Definition falls_through {A} (m : M A) : Prop :=
  forall w b, fst (m w) <> Return b.

Lemma falls_through_ret {A} (a : A) : falls_through (ret a).
Proof. intros w b. discriminate. Qed.

Lemma falls_through_raise {A} e : falls_through (@raise A e).
Proof. intros w b. discriminate. Qed.

Lemma falls_through_gets {A} (f : Ledger -> A) : falls_through (gets f).
Proof. intros w b. discriminate. Qed.

Lemma falls_through_modify f : falls_through (modify f).
Proof. intros w b. discriminate. Qed.

Lemma falls_through_emit e : falls_through (emit e).
Proof. intros w b. discriminate. Qed.

Lemma falls_through_bind {A B} (m : M A) (f : A -> M B) :
  falls_through m -> (forall a, falls_through (f a)) -> falls_through (bind m f).
Proof.
  intros Hm Hf w b. rewrite bind_eq. specialize (Hm w).
  destruct (m w) as [[a|b'|e] w']; cbn in *.
  - apply Hf.
  - now destruct (Hm b').
  - discriminate.
Qed.

Lemma falls_through_forM {A} (body : A -> M unit) xs :
  (forall x, falls_through (body x)) -> falls_through (forM_ body xs).
Proof.
  intros Hbody. induction xs as [|x xs IH]; cbn.
  - apply falls_through_ret.
  - apply falls_through_bind; auto.
Qed.

Lemma falls_through_filterM {A} (test : A -> M bool) xs :
  (forall x, falls_through (test x)) -> falls_through (filterM test xs).
Proof.
  intros Htest. induction xs as [|x xs IH]; cbn.
  - apply falls_through_ret.
  - apply falls_through_bind; auto. intros b.
    apply falls_through_bind; auto. intros rest. apply falls_through_ret.
Qed.

Lemma falls_through_foldM {A B} (body : B -> A -> M B) xs :
  (forall acc x, falls_through (body acc x)) ->
  forall acc, falls_through (foldM body xs acc).
Proof.
  intros Hbody. induction xs as [|x xs IH]; intros acc; cbn.
  - apply falls_through_ret.
  - apply falls_through_bind; auto.
Qed.

Ltac falls_step :=
  first
    [ assumption
    | apply falls_through_ret | apply falls_through_raise
    | apply falls_through_gets | apply falls_through_modify
    | apply falls_through_emit
    | apply falls_through_bind; [|intros ?]
    | apply falls_through_foldM; intros ? ?
    | apply falls_through_forM; intros ?
    | apply falls_through_filterM; intros ?
    | match goal with
      | |- falls_through (match ?x with _ => _ end) => destruct x
      end
    | progress cbv zeta
    | progress autounfold with sim
    | progress autounfold with ledger ].

Ltac falls := repeat falls_step.

Definition is_oom (e : Event) : bool :=
  match e with Log (OOM _ _ _ _) => true | _ => false end.

(** The run so far ends with its first out-of-memory message. *)
Definition ends_in_first_oom (o : list Event) : Prop :=
  exists o' e, o = o' ++ [e] /\ is_oom e = true /\ filter is_oom o' = [].

Section Outcome.
Variable sim : Simulator.

(** The flag [passed] tells whether an allocation has failed, and in strict
    mode none has while the run goes on. *)
Definition flagged (p : bool) (w : World) : Prop :=
  (p = true <-> filter is_oom (out w) = []) /\
  (_plot sim = false -> filter is_oom (out w) = []).

Definition oom_post (r : Res Locals) (w : World) : Prop :=
  match r with
  | Val loc => flagged (passed loc) w
  | Return b => _plot sim = false /\ b = false /\ ends_in_first_oom (out w)
  | Raise _ => _plot sim = false -> filter is_oom (out w) = []
  end.

Definition oom_spec (p : bool) (m : M Locals) : Prop :=
  forall w, flagged p w -> oom_post (fst (m w)) (snd (m w)).

Lemma oom_spec_ret p loc : passed loc = p -> oom_spec p (ret loc).
Proof. intros <- w H. exact H. Qed.

Lemma oom_spec_raise p e : oom_spec p (raise e).
Proof. intros w H. cbn. apply H. Qed.

Lemma oom_spec_bind p (m : M Locals) (f : Locals -> M Locals) :
  oom_spec p m -> (forall loc, oom_spec (passed loc) (f loc)) ->
  oom_spec p (bind m f).
Proof.
  intros Hm Hf w H. rewrite bind_eq. specialize (Hm w H).
  destruct (m w) as [[loc|b|e] w']; cbn in *; auto. now apply Hf.
Qed.

(** A step that neither returns nor reports a failed allocation. *)
Lemma oom_spec_after {A} p (m : M A) (f : A -> M Locals) :
  (forall L, preserves (kept is_oom L) m) -> falls_through m ->
  (forall a, oom_spec p (f a)) ->
  oom_spec p (bind m f).
Proof.
  intros Hk Hft Hf w H. rewrite bind_eq.
  pose proof (Hk _ w eq_refl) as Hkw. specialize (Hft w).
  unfold kept in Hkw.
  destruct (m w) as [[a|b|e] w']; cbn in *.
  - apply Hf. unfold flagged. now rewrite Hkw.
  - now destruct (Hft b).
  - rewrite Hkw. apply H.
Qed.

Lemma oom_spec_foldM {A} (body : Locals -> A -> M Locals) xs :
  (forall loc x, oom_spec (passed loc) (body loc x)) ->
  forall loc, oom_spec (passed loc) (foldM body xs loc).
Proof.
  intros Hbody. induction xs as [|x xs IH]; intros loc; cbn.
  - now apply oom_spec_ret.
  - apply oom_spec_bind; auto.
Qed.

(** [ok = self._allocate(...)] followed by the check of [ok]. *)
Lemma oom_spec_allocate p loc n sz lt :
  passed loc = p ->
  oom_spec p (ok <- _allocate sim n sz lt ;; check_ok sim ok loc).
Proof.
  intros <- w [Hp Hs]. rewrite bind_eq.
  destruct (Z.lt_ge_cases sz (_get_free_mem sim (self w))) as [Hfit|Hoom].
  - rewrite allocate_fits by exact Hfit. cbn.
    unfold flagged. cbn. rewrite filter_app. cbn. rewrite app_nil_r. auto.
  - apply Z.le_ge in Hoom. destruct (_plot sim) eqn:Hplot.
    + rewrite allocate_oom_plot by assumption.
      unfold check_ok. rewrite Hplot. cbn.
      unfold flagged. cbn. rewrite filter_app. cbn. split.
      * split; [discriminate|]. intros E. apply app_eq_nil in E.
        destruct E as [_ E]. discriminate.
      * intros E. congruence.
    + rewrite allocate_oom_strict by assumption.
      unfold check_ok. rewrite Hplot. cbn.
      split; [exact Hplot|]. split; [reflexivity|].
      do 2 eexists. split; [reflexivity|]. split; [reflexivity|]. auto.
Qed.

End Outcome.


Ltac oom_step sim :=
  first
    [ apply oom_spec_allocate; reflexivity
    | apply oom_spec_ret; reflexivity
    | apply oom_spec_raise
    | apply (oom_spec_foldM sim); intros ? ?
    | match goal with
      | |- oom_spec _ _ (@bind Locals _ _ _) =>
          apply (oom_spec_bind sim); [|intros ?]
      | |- oom_spec _ _ (@bind _ _ _ _) =>
          apply (oom_spec_after sim); [intros ?; pres|falls|intros ?]
      | |- oom_spec _ _ (match ?x with _ => _ end) => destruct x
      end ].

Lemma oom_spec_swapin_tensors sim k loc :
  oom_spec sim (passed loc) (swapin_tensors sim k loc).
Proof.
  unfold swapin_tensors. apply (oom_spec_foldM sim). intros acc [[n sz] lt].
  repeat oom_step sim.
Qed.

Lemma oom_spec_allocate_inputs sim op_name ins loc :
  oom_spec sim (passed loc) (allocate_inputs sim op_name ins loc).
Proof.
  unfold allocate_inputs. apply (oom_spec_foldM sim). intros acc ts.
  repeat oom_step sim.
Qed.

Lemma oom_spec_allocate_outputs sim outs loc :
  oom_spec sim (passed loc) (allocate_outputs sim outs loc).
Proof.
  unfold allocate_outputs. apply (oom_spec_foldM sim). intros acc ts.
  repeat oom_step sim.
Qed.

Lemma add_swapins_passed sim ah n sz grp :
  forall loc,
    passed (fold_left (fun loc dests => add_swapin sim ah n sz dests loc) grp loc)
    = passed loc.
Proof.
  induction grp as [|g grp IH]; intros loc; cbn; [reflexivity|].
  now rewrite IH.
Qed.

Lemma add_swapins_swapouts sim ah n sz grp :
  forall loc,
    swapouts (fold_left (fun loc dests => add_swapin sim ah n sz dests loc) grp loc)
    = swapouts loc.
Proof.
  induction grp as [|g grp IH]; intros loc; cbn; [reflexivity|].
  now rewrite IH.
Qed.

Lemma oom_spec_swap_out_tensors sim th ah gb k op outs loc :
  oom_spec sim (passed loc) (swap_out_tensors sim th ah gb k op outs loc).
Proof.
  unfold swap_out_tensors.
  destruct (PySet.mem _ _ _); [now apply oom_spec_ret|].
  apply (oom_spec_foldM sim). intros acc ts. unfold swap_out_tensor.
  repeat oom_step sim.
  apply oom_spec_ret. now rewrite add_swapins_passed.
Qed.

Lemma oom_spec_execute_op sim th ah gb k loc op :
  oom_spec sim (passed loc) (execute_op sim th ah gb k loc op).
Proof.
  unfold execute_op.
  apply (oom_spec_after sim); [intros ?; pres|falls|intros _].
  apply (oom_spec_bind sim); [apply oom_spec_allocate_inputs|intros loc1].
  apply (oom_spec_bind sim); [apply oom_spec_allocate_outputs|intros loc2].
  apply (oom_spec_after sim); [intros ?; pres|falls|intros _].
  apply (oom_spec_after sim); [intros ?; pres|falls|intros _].
  apply (oom_spec_after sim); [intros ?; pres|falls|intros _].
  apply oom_spec_swap_out_tensors.
Qed.

Lemma oom_spec_simulate_level sim th ah gb loc k :
  oom_spec sim (passed loc) (simulate_level sim th ah gb loc k).
Proof.
  unfold simulate_level.
  apply (oom_spec_after sim); [intros ?; pres|falls|intros _].
  apply (oom_spec_after sim); [intros ?; pres|falls|intros _].
  apply (oom_spec_bind sim); [apply oom_spec_swapin_tensors|intros loc1].
  apply (oom_spec_bind sim).
  - apply (oom_spec_foldM sim). intros acc op. apply oom_spec_execute_op.
  - intros loc2.
    apply (oom_spec_after sim); [intros ?; pres|falls|intros _].
    now apply oom_spec_ret.
Qed.

Lemma play_body_oom sim th ah gb l :
  let rw := play_body sim th ah gb {| self := l; out := [] |} in
  match fst rw with
  | Val b => flagged sim b (snd rw)
  | Return b =>
      _plot sim = false /\ b = false /\ ends_in_first_oom (out (snd rw))
  | Raise _ => _plot sim = false -> filter is_oom (out (snd rw)) = []
  end.
Proof.
  unfold play_body.
  set (w0 := {| self := l; out := [] |}).
  change ((_reset ;; ?rest) w0) with (rest (snd (_reset w0))).
  set (w1 := snd (_reset w0)).
  change ((_log_info ?msg ;; ?rest) w1) with (rest (snd (_log_info msg w1))).
  set (w2 := snd (_log_info _ w1)).
  assert (H2 : flagged sim (passed init_locals) w2) by (split; cbn; tauto).
  clearbody w2. clear w0 w1. rewrite bind_eq.
  assert (Hloop := oom_spec_foldM sim (simulate_level sim th ah gb)
                     (range (_topo_sort_size (_lms sim)))
                     (oom_spec_simulate_level sim th ah gb) init_locals w2 H2).
  destruct (foldM _ _ _ w2) as [[loc|b|e] w3]; cbn in Hloop |- *;
    [|exact Hloop|exact Hloop].
  set (rest := (if _plot sim then _ else _) ;; _).
  assert (Hk : forall L, preserves (kept is_oom L) rest) by (intros L; subst rest; pres).
  assert (Hv : exists w4, rest w3 = (Val (passed loc), w4)).
  { subst rest. unfold _generate_diagram, _log_info, bind, gets, emit, ret.
    destruct (_plot sim); cbn; eauto. }
  destruct Hv as [w4 E]. specialize (Hk _ w3 eq_refl). rewrite E in *.
  cbn in *. unfold flagged, kept in *. now rewrite Hk.
Qed.

(** [_allocate] reports out-of-memory exactly when it returns [False].
    A call of [play] that returns, returns [False] exactly when some
    allocation failed.  In strict mode a failed allocation makes [play]
    return [False] at once: the report of the first failure is the last thing
    observed.  In diagnostic mode a call that returns has started every
    level. *)
Lemma play_outcome_of_oom :
  forall sim th ah gb l,
    (forall n sz lt w,
        exists b, fst (_allocate sim n sz lt w) = Val b /\
          filter is_oom (out (snd (_allocate sim n sz lt w)))
          = filter is_oom (out w)
            ++ (if b then []
                else [Log (OOM n sz (_used_mem (self w))
                               (_get_free_mem sim (self w)))])) /\
    let '(r, l', o) := play sim th ah gb l in
    (forall b, r = Returned b -> (b = false <-> filter is_oom o <> [])) /\
    (_plot sim = false -> filter is_oom o <> [] ->
       r = Returned false /\ ends_in_first_oom o) /\
    (_plot sim = true -> forall b, r = Returned b ->
       filter is_level o = level_events (range (_topo_sort_size (_lms sim)))).
Proof.
  intros sim th ah gb l. split.
  { intros n sz lt w.
    destruct (Z.lt_ge_cases sz (_get_free_mem sim (self w))) as [Hfit|Hoom].
    - exists true. rewrite allocate_fits by exact Hfit. cbn.
      rewrite filter_app. cbn. auto.
    - apply Z.le_ge in Hoom. exists false. destruct (_plot sim) eqn:Hplot.
      + rewrite allocate_oom_plot by assumption. cbn.
        rewrite filter_app. cbn. auto.
      + rewrite allocate_oom_strict by assumption. cbn.
        rewrite filter_app. cbn. auto. }
  pose proof (play_body_oom sim th ah gb l) as Hoom.
  destruct (play_body_levels sim th ah gb l) as (m & _ & Hlev & Hall).
  unfold play. cbn zeta in Hoom.
  destruct (play_body sim th ah gb {| self := l; out := [] |}) as [r w].
  cbn in Hoom, Hlev, Hall.
  destruct r as [b|b|e].
  - destruct Hoom as [Hp Hs]. split; [|split].
    + intros b' E. injection E as <-. destruct b; split; intros H.
      * discriminate.
      * destruct H. now apply Hp.
      * intros E. apply Hp in E. discriminate.
      * reflexivity.
    + intros Hplot Hne. destruct Hne. auto.
    + intros _ b' _. rewrite Hlev. now rewrite (Hall b eq_refl).
  - destruct Hoom as (Hplot & -> & Hend). split; [|split].
    + intros b' E. injection E as <-. split; [|reflexivity]. intros _.
      destruct Hend as (o' & e & -> & He & Ho'). rewrite filter_app. cbn.
      rewrite He. intros E. apply app_eq_nil in E. destruct E. discriminate.
    + auto.
    + intros E. congruence.
  - split; [|split].
    + discriminate.
    + intros Hplot Hne. destruct Hne. auto.
    + discriminate.
Qed.

(** ** Facts about the containers *)

Section DictFacts.
Context {K V : Type}.
Variable eqb : K -> K -> bool.
Hypothesis eqb_eq : forall a b, eqb a b = true <-> a = b.

Lemma eqb_refl_true a : eqb a a = true.
Proof. now apply eqb_eq. Qed.

Lemma eqb_neq_false a b : a <> b -> eqb a b = false.
Proof.
  intros H. destruct (eqb a b) eqn:E; [|reflexivity].
  apply eqb_eq in E. contradiction.
Qed.

Lemma eqb_dec (a b : K) : {a = b} + {a <> b}.
Proof.
  destruct (eqb a b) eqn:E.
  - left. now apply eqb_eq.
  - right. intros ->. rewrite eqb_refl_true in E. discriminate.
Qed.

Lemma get_set_same k (v : V) d : Dict.get eqb k (Dict.set eqb k v d) = Some v.
Proof.
  induction d as [|[k' v'] d IH]; cbn.
  - now rewrite eqb_refl_true.
  - destruct (eqb k k') eqn:E; cbn; rewrite E; auto.
Qed.

Lemma get_set_other k k' (v : V) d :
  k <> k' -> Dict.get eqb k' (Dict.set eqb k v d) = Dict.get eqb k' d.
Proof.
  intros Hne. induction d as [|[k1 v1] d IH]; cbn.
  - rewrite eqb_neq_false; auto.
  - destruct (eqb k k1) eqn:E; cbn.
    + apply eqb_eq in E. subst k1. rewrite eqb_neq_false; auto.
    + now rewrite IH.
Qed.

Lemma get_some_in k (v : V) d : Dict.get eqb k d = Some v -> In (k, v) d.
Proof.
  induction d as [|[k' v'] d IH]; cbn; [discriminate|].
  destruct (eqb k k') eqn:E.
  - intros [= ->]. apply eqb_eq in E. subst. now left.
  - intros H. right. auto.
Qed.

Lemma in_get_some k (v : V) d : In (k, v) d -> exists v', Dict.get eqb k d = Some v'.
Proof.
  induction d as [|[k' v'] d IH]; cbn; [tauto|].
  intros [[= -> ->]|H].
  - rewrite eqb_refl_true. eauto.
  - destruct (eqb k k'); eauto.
Qed.

Lemma keys_set_present k (v : V) d :
  Dict.mem eqb k d = true -> Dict.keys (Dict.set eqb k v d) = Dict.keys d.
Proof.
  unfold Dict.mem, Dict.keys. induction d as [|[k' v'] d IH]; cbn; [discriminate|].
  destruct (eqb k k') eqn:E; cbn; [reflexivity|].
  intros H. now rewrite IH.
Qed.

Lemma keys_set_absent k (v : V) d :
  Dict.mem eqb k d = false -> Dict.keys (Dict.set eqb k v d) = Dict.keys d ++ [k].
Proof.
  unfold Dict.mem, Dict.keys. induction d as [|[k' v'] d IH]; cbn; [reflexivity|].
  destruct (eqb k k') eqn:E; cbn; [discriminate|].
  intros H. now rewrite IH.
Qed.

End DictFacts.

Section PySetFacts.
Context {A : Type}.
Variable eqb : A -> A -> bool.
Hypothesis eqb_eq : forall a b, eqb a b = true <-> a = b.

Lemma mem_true_iff x s : PySet.mem eqb x s = true <-> In x s.
Proof.
  unfold PySet.mem. rewrite existsb_exists. split.
  - intros (y & Hy & E). apply eqb_eq in E. now subst.
  - intros H. exists x. split; [exact H|]. now apply eqb_eq.
Qed.

Lemma mem_false_iff x s : PySet.mem eqb x s = false <-> ~ In x s.
Proof.
  rewrite <- mem_true_iff. destruct (PySet.mem eqb x s); split; congruence.
Qed.

Lemma in_add x y s : In y (PySet.add eqb x s) <-> y = x \/ In y s.
Proof.
  unfold PySet.add. destruct (PySet.mem eqb x s) eqn:E.
  - apply mem_true_iff in E. split; [auto|]. intros [->|H]; auto.
  - rewrite in_app_iff. cbn. split; intros [H|H]; auto.
    destruct H as [->|[]]; auto.
Qed.

Lemma NoDup_add x s : NoDup s -> NoDup (PySet.add eqb x s).
Proof.
  intros H. unfold PySet.add. destruct (PySet.mem eqb x s) eqn:E; [exact H|].
  apply mem_false_iff in E. apply NoDup_app; [exact H|repeat constructor; auto|].
  intros y Hy [->|[]]. contradiction.
Qed.

Lemma of_list_spec xs :
  forall s, NoDup s ->
    NoDup (fold_left (fun s x => PySet.add eqb x s) xs s) /\
    (forall y, In y (fold_left (fun s x => PySet.add eqb x s) xs s)
               <-> In y s \/ In y xs).
Proof.
  induction xs as [|x xs IH]; intros s Hs; cbn.
  - split; [exact Hs|]. tauto.
  - destruct (IH (PySet.add eqb x s) (NoDup_add x s Hs)) as [Hn Hi].
    split; [exact Hn|]. intros y. rewrite Hi, in_add. cbn.
    intuition (subst; auto).
Qed.

Lemma NoDup_of_list xs : NoDup (PySet.of_list eqb xs).
Proof. apply of_list_spec. constructor. Qed.

Lemma in_of_list xs y : In y (PySet.of_list eqb xs) <-> In y xs.
Proof.
  unfold PySet.of_list. destruct (of_list_spec xs [] (NoDup_nil _)) as [_ H].
  rewrite H. cbn. tauto.
Qed.

Lemma in_diff s t y : In y (PySet.diff eqb s t) <-> In y s /\ ~ In y t.
Proof.
  unfold PySet.diff. rewrite filter_In, negb_true_iff, mem_false_iff. tauto.
Qed.

Lemma NoDup_diff s t : NoDup s -> NoDup (PySet.diff eqb s t).
Proof. apply NoDup_filter. Qed.

End PySetFacts.

(** ** The swap-out decision *)

Lemma add_ref_count_some k d w v :
  Dict.get String.eqb k (_ref_counts (self w)) = Some v ->
  add_ref_count k d w
  = (Val tt, {| self := set_ref_counts (Dict.set String.eqb k (v + d)) (self w);
                out := out w |}).
Proof.
  intros H. unfold add_ref_count, getitem, bind, gets. cbn. now rewrite H.
Qed.

Lemma add_ref_count_none k d w :
  Dict.get String.eqb k (_ref_counts (self w)) = None ->
  add_ref_count k d w = (Raise (KeyError k), w).
Proof.
  intros H. unfold add_ref_count, getitem, bind, gets. cbn. now rewrite H.
Qed.

Section SwapOut.
Variable sim : Simulator.
Variables threshold ahead groupby k : Z.
Variable op : Op.

(** The destinations of a swap-out, in the words of the specification: the
    consumers farther than [threshold] from the producer that are not
    excluded as destinations. *)
Definition is_dest (ts : Tensor) (d : string) : Prop :=
  In d (ts_consumers ts) /\
  _distance (_lms sim) (op_name op) d > threshold /\
  ~ In d (_excl_dest_ops (_lms sim)).

(** The condition of the specification for evicting an output of [op]. *)
Definition evicts (ts : Tensor) : Prop :=
  (exists ndims, ts_ndims ts = Some ndims /\ ndims > 1) /\
  ~ In (op_name op) (_excl_src_ops (_lms sim)) /\
  exists d, is_dest ts d.

Lemma in_dest_ops_of ts d :
  In d (dest_ops_of sim threshold (op_name op) ts) <-> is_dest ts d.
Proof.
  unfold dest_ops_of, is_dest.
  rewrite (in_diff String.eqb String.eqb_eq).
  rewrite (in_of_list String.eqb String.eqb_eq), filter_In.
  rewrite Z.gtb_lt. intuition lia.
Qed.

Lemma NoDup_dest_ops_of ts :
  NoDup (dest_ops_of sim threshold (op_name op) ts).
Proof.
  unfold dest_ops_of. apply NoDup_diff. apply (NoDup_of_list String.eqb String.eqb_eq).
Qed.

(** The test the loop of lines 178-189 makes on one output. *)
Definition evictable (ts : Tensor) : bool :=
  match ts_ndims ts with
  | None => false
  | Some ndims =>
      negb (ndims <=? 1) &&
      match dest_ops_of sim threshold (op_name op) ts with
      | [] => false
      | _ :: _ => true
      end
  end.

Lemma evictable_iff ts :
  ~ In (op_name op) (_excl_src_ops (_lms sim)) ->
  (evictable ts = true <-> evicts ts).
Proof.
  intros Hsrc. unfold evictable, evicts. split.
  - destruct (ts_ndims ts) as [nd|]; [|discriminate].
    intros H. apply andb_true_iff in H. destruct H as [Hnd Hd].
    apply negb_true_iff, Z.leb_gt in Hnd.
    split; [exists nd; split; [reflexivity|lia]|]. split; [exact Hsrc|].
    destruct (dest_ops_of sim threshold (op_name op) ts) as [|d ds] eqn:E;
      [discriminate|].
    exists d. apply in_dest_ops_of. rewrite E. now left.
  - intros ((nd & -> & Hnd) & _ & d & Hd).
    apply in_dest_ops_of in Hd.
    rewrite (proj2 (Z.leb_gt nd 1)) by lia. cbn.
    destruct (dest_ops_of sim threshold (op_name op) ts); [destruct Hd|reflexivity].
Qed.

Lemma swap_out_tensor_skip loc ts w :
  evictable ts = false ->
  exists loc',
    swap_out_tensor sim threshold ahead groupby k (op_name op) loc ts w = (Val loc', w) /\
    swapouts loc' = swapouts loc.
Proof.
  unfold evictable, swap_out_tensor. intros H.
  destruct (ts_ndims ts) as [nd|]; [|eexists; split; reflexivity].
  destruct (nd <=? 1); [eexists; split; reflexivity|].
  destruct (dest_ops_of sim threshold (op_name op) ts); [|discriminate].
  eexists. split; reflexivity.
Qed.

Lemma swap_out_tensor_evict loc ts w rc :
  evictable ts = true ->
  Dict.get String.eqb (ts_name ts) (_ref_counts (self w)) = Some rc ->
  exists loc',
    swap_out_tensor sim threshold ahead groupby k (op_name op) loc ts w
    = (Val loc',
       {| self := set_ref_counts
                    (fun d => Dict.set String.eqb (ts_name ts)
                                (rc + - len (dest_ops_of sim threshold (op_name op) ts)
                                 + _swapout_delay sim)
                                (Dict.set String.eqb (ts_name ts)
                                   (rc + - len (dest_ops_of sim threshold (op_name op) ts))
                                   d))
                    (self w);
          out := out w ++ [Log (SwappedOut k (ts_name ts))] |}) /\
    swapouts loc' = PySet.add String.eqb (ts_name ts) (swapouts loc).
Proof.
  unfold evictable, swap_out_tensor. intros H Hrc.
  destruct (ts_ndims ts) as [nd|]; [|discriminate].
  destruct (nd <=? 1); [discriminate|].
  destruct (dest_ops_of sim threshold (op_name op) ts) as [|d ds]; [discriminate|].
  rewrite bind_eq, (add_ref_count_some _ _ _ _ Hrc).
  rewrite bind_eq, (add_ref_count_some _ _ _ (rc + - len (d :: ds))).
  2:{ cbn. apply (get_set_same String.eqb String.eqb_eq). }
  eexists. split; [reflexivity|].
  now rewrite add_swapins_swapouts.
Qed.

Lemma swap_out_loop outs :
  NoDup (map ts_name outs) ->
  forall loc w,
    (forall ts, In ts outs -> evictable ts = true ->
       exists rc, Dict.get String.eqb (ts_name ts) (_ref_counts (self w)) = Some rc) ->
    exists loc' w',
      foldM (swap_out_tensor sim threshold ahead groupby k (op_name op)) outs loc w
      = (Val loc', w') /\
      (forall n, In n (swapouts loc') <->
                 In n (swapouts loc) \/
                 exists ts, In ts outs /\ evictable ts = true /\ ts_name ts = n) /\
      (forall n, ~ (exists ts, In ts outs /\ evictable ts = true /\ ts_name ts = n) ->
                 Dict.get String.eqb n (_ref_counts (self w'))
                 = Dict.get String.eqb n (_ref_counts (self w))) /\
      (forall ts rc, In ts outs -> evictable ts = true ->
         Dict.get String.eqb (ts_name ts) (_ref_counts (self w)) = Some rc ->
         Dict.get String.eqb (ts_name ts) (_ref_counts (self w'))
         = Some (rc - len (dest_ops_of sim threshold (op_name op) ts)
                 + _swapout_delay sim)).
Proof.
  induction outs as [|ts outs IH]; intros Hnd loc w Hres.
  - exists loc, w. cbn. split; [reflexivity|]. split; [|split].
    + intros n. split; [auto|]. intros [H|(ts & [] & _)]. exact H.
    + reflexivity.
    + intros ts rc [].
  - inversion Hnd as [|? ? Hnot Hnd']; subst. rewrite foldM_cons.
    destruct (evictable ts) eqn:Ev.
    + destruct (Hres ts (or_introl eq_refl) Ev) as [rc Hrc].
      destruct (swap_out_tensor_evict loc ts w rc Ev Hrc) as (loc1 & E1 & Hso).
      rewrite E1. clear E1.
      set (w1 := {| self := _; out := _ |}).
      assert (Hother : forall n, n <> ts_name ts ->
                Dict.get String.eqb n (_ref_counts (self w1))
                = Dict.get String.eqb n (_ref_counts (self w))).
      { intros n Hn. subst w1. cbn.
        rewrite !(get_set_other String.eqb String.eqb_eq) by congruence.
        reflexivity. }
      assert (Hself : Dict.get String.eqb (ts_name ts) (_ref_counts (self w1))
                      = Some (rc - len (dest_ops_of sim threshold (op_name op) ts)
                              + _swapout_delay sim)).
      { subst w1. cbn. rewrite (get_set_same String.eqb String.eqb_eq).
        f_equal; lia. }
      assert (Hin : forall ts', In ts' outs -> ts_name ts' <> ts_name ts).
      { intros ts' Hin E. apply Hnot. rewrite <- E. now apply in_map. }
      destruct (IH Hnd' loc1 w1) as (loc' & w' & E & Hsw & Hkeep & Hcnt).
      { intros ts' Hin' Ev'. rewrite Hother by auto.
        apply Hres; [now right|exact Ev']. }
      exists loc', w'. split; [exact E|]. split; [|split].
      * intros n. rewrite Hsw, Hso, (in_add String.eqb String.eqb_eq). cbn.
        split.
        -- intros [[->|H]|(ts' & Hin' & Ev' & <-)]; eauto 7.
        -- intros [H|(ts' & [<-|Hin'] & Ev' & <-)]; eauto 7.
      * intros n Hn. rewrite Hkeep, Hother; [reflexivity| |].
        -- intros ->. apply Hn. exists ts. cbn. auto.
        -- intros (ts' & Hin' & Ev' & <-). apply Hn. exists ts'. cbn. auto.
      * intros ts' rc' [<-|Hin'] Ev' Hrc'.
        -- rewrite Hkeep; [|intros (ts' & Hin' & _ & E'); now apply (Hin ts')].
           rewrite Hself. congruence.
        -- apply Hcnt; auto. rewrite Hother; auto.
    + destruct (swap_out_tensor_skip loc ts w Ev) as (loc1 & E1 & Hso).
      rewrite E1. clear E1.
      destruct (IH Hnd' loc1 w) as (loc' & w' & E & Hsw & Hkeep & Hcnt).
      { intros ts' Hin' Ev'. apply Hres; [now right|exact Ev']. }
      exists loc', w'. split; [exact E|]. split; [|split].
      * intros n. rewrite Hsw, Hso. cbn. split.
        -- intros [H|(ts' & Hin' & Ev' & <-)]; eauto 7.
        -- intros [H|(ts' & [<-|Hin'] & Ev' & <-)]; eauto 7. congruence.
      * intros n Hn. apply Hkeep.
        intros (ts' & Hin' & Ev' & <-). apply Hn. exists ts'. cbn. auto.
      * intros ts' rc' [<-|Hin'] Ev' Hrc'; [congruence|]. now apply Hcnt.
Qed.

End SwapOut.

Lemma NoDup_map_eq {A B} (f : A -> B) (l : list A) a b :
  NoDup (map f l) -> In a l -> In b l -> f a = f b -> a = b.
Proof.
  induction l as [|x l IH]; cbn; [tauto|].
  intros Hnd Ha Hb E. inversion Hnd as [|? ? Hnot Hnd']; subst.
  destruct Ha as [->|Ha], Hb as [->|Hb]; auto.
  - exfalso. apply Hnot. rewrite E. now apply in_map.
  - exfalso. apply Hnot. rewrite <- E. now apply in_map.
Qed.

(** The swap-out loop of an op, from a world in which the outputs that have
    consumers still have a reference count and are not yet recorded: it
    records an output exactly when its rank is known and above 1, the op is
    not an excluded source, and some consumer is farther than [threshold]
    and not an excluded destination; the reference count of a recorded
    output goes down by the number of such consumers and up by
    [swapout_delay], the reference count of any other output stays. *)
Lemma swap_out_loop_decision :
  forall sim th ah gb k op outs loc w,
    NoDup (map ts_name outs) ->
    (forall ts, In ts outs -> ~ In (ts_name ts) (swapouts loc)) ->
    (forall ts, In ts outs -> ts_consumers ts <> [] ->
       exists rc, Dict.get String.eqb (ts_name ts) (_ref_counts (self w)) = Some rc) ->
    exists loc' w',
      swap_out_tensors sim th ah gb k op outs loc w = (Val loc', w') /\
      forall ts, In ts outs ->
        (In (ts_name ts) (swapouts loc') <-> evicts sim th op ts) /\
        forall rc,
          Dict.get String.eqb (ts_name ts) (_ref_counts (self w)) = Some rc ->
          (evicts sim th op ts ->
             exists dests,
               NoDup dests /\
               (forall d, In d dests <-> is_dest sim th op ts d) /\
               Dict.get String.eqb (ts_name ts) (_ref_counts (self w'))
               = Some (rc - len dests + _swapout_delay sim)) /\
          (~ evicts sim th op ts ->
             Dict.get String.eqb (ts_name ts) (_ref_counts (self w')) = Some rc).
Proof.
  intros sim th ah gb k op outs loc w Hnd Hfresh Hres.
  unfold swap_out_tensors.
  destruct (PySet.mem String.eqb (op_name op) (_excl_src_ops (_lms sim))) eqn:Hsrc.
  - apply (mem_true_iff String.eqb String.eqb_eq) in Hsrc.
    exists loc, w. split; [reflexivity|]. intros ts Hin.
    assert (Hno : ~ evicts sim th op ts) by (intros (_ & H & _); contradiction).
    split; [split; [intros H; now apply Hfresh in H|tauto]|].
    intros rc Hrc. split; [tauto|auto].
  - apply (mem_false_iff String.eqb String.eqb_eq) in Hsrc.
    destruct (swap_out_loop sim th ah gb k op outs Hnd loc w)
      as (loc' & w' & E & Hsw & Hkeep & Hcnt).
    { intros ts Hin Ev. apply Hres; [exact Hin|].
      apply (evictable_iff sim th op ts Hsrc) in Ev.
      destruct Ev as (_ & _ & d & Hd & _). intros E. rewrite E in Hd. destruct Hd. }
    exists loc', w'. split; [exact E|]. intros ts Hin.
    pose proof (evictable_iff sim th op ts Hsrc) as Hiff.
    split.
    + rewrite Hsw, <- Hiff. split.
      * intros [H|(ts' & Hin' & Ev' & En)]; [now apply Hfresh in H|].
        now rewrite <- (NoDup_map_eq ts_name outs ts' ts Hnd Hin' Hin En).
      * intros Ev. right. exists ts. auto.
    + intros rc Hrc. split.
      * intros Hev. apply Hiff in Hev.
        exists (dest_ops_of sim th (op_name op) ts).
        split; [apply NoDup_dest_ops_of|].
        split; [intros d; apply in_dest_ops_of|]. now apply Hcnt.
      * intros Hno. rewrite Hkeep; [exact Hrc|].
        intros (ts' & Hin' & Ev' & En). apply Hno, Hiff.
        now rewrite <- (NoDup_map_eq ts_name outs ts' ts Hnd Hin' Hin En).
Qed.

(** ** Runs of the first graph *)

Example ex_play_passes :
  let '(r, l, o) := play ex_sim 5 1 0 empty_ledger in
  r = Returned true /\
  _mem_traces l = [100; 107; 108; 8; 1; 8; 9; 8; 1; 101; 100; 0] /\
  In (SwappedOut 0 "A:0") (logged o) /\
  In (SwappedIn 8 "A:0_C") (logged o) /\
  In (SwappedOutTensors 1) (logged o).
Proof. vm_compute. intuition. Qed.

Example ex_play_fails_strict :
  let '(r, l, o) :=
    play {| _lms := ex_lms; _plot := false; _swapout_delay := 1; _max_mem := 50 |}
         5 1 0 empty_ledger in
  r = Returned false /\
  _mem_traces l = [] /\
  logged o = [Simulating 5 1 0; SimulateLevel 0; ExecuteOp 0 "A";
              OOM "A:0" 100 0 50].
Proof. vm_compute. intuition. Qed.

Example ex_play_fails_plot :
  let '(r, l, o) := play ex_sim_plot 5 1 0 empty_ledger in
  r = Returned false /\
  _mem_traces l = [100; 107; 108; 8; 1; 8; 9; 8; 1; 101; 100; 0] /\
  filter is_level o = level_events (range 10) /\
  In (Diagram 5 1 0 (_mem_traces l)) (logged o).
Proof. vm_compute. intuition. Qed.

(** The world once [A] has allocated its output [A:0]. *)
Definition ex_world : World :=
  {| self := {| _mem := [("A:0", 100)]; _ref_counts := [("A:0", 2)];
                _used_mem := 100; _mem_traces := [100] |};
     out := [] |}.

Lemma allocate_failure_by_mode_witness :
  1000 >= _get_free_mem ex_sim (self {| self := empty_ledger; out := [] |}) /\
  fst (_allocate ex_sim "A:0" 1000 2 {| self := empty_ledger; out := [] |})
  = Val false /\
  self (snd (_allocate ex_sim "A:0" 1000 2 {| self := empty_ledger; out := [] |}))
  = empty_ledger.
Proof.
  assert (H : 1000 >= _get_free_mem ex_sim (self {| self := empty_ledger; out := [] |}))
    by (vm_compute; discriminate).
  split; [exact H|].
  destruct (allocate_failure_by_mode ex_sim "A:0" 1000 2
              {| self := empty_ledger; out := [] |} H) as (Hf & Hs & _).
  split; [exact Hf|]. apply Hs. reflexivity.
Defined.

(** ** The size of an input that is not resident *)

(** What [allocate_inputs] does for one input that is neither resident nor
    the landing point of a swap-in: the size it hands to [_allocate] is the
    local [ts_size], not the size of the input. *)
Lemma allocate_inputs_uses_local_size sim op_name ts loc w v :
  fst (_is_swapin_tensor (ts_name ts) op_name w) = Val (false, ts_name ts) ->
  Dict.mem String.eqb (ts_name ts) (_mem (self w)) = false ->
  ts_size loc = Some v ->
  allocate_inputs sim op_name [ts] loc w
  = (loc' <- (ok <- _allocate sim (ts_name ts) v (len (ts_consumers ts)) ;;
              check_ok sim ok loc) ;;
     ret loc') w.
Proof.
  intros Hfind Hres Hsz. unfold allocate_inputs. cbn [foldM].
  rewrite bind_eq. rewrite (bind_eq (_is_swapin_tensor _ _)).
  destruct (_is_swapin_tensor (ts_name ts) op_name w) as [r w1] eqn:E.
  assert (Hw : w1 = w).
  { unfold _is_swapin_tensor, bind, gets in E. cbn in E.
    destruct (find _ _); unfold ret in E; congruence. }
  subst w1. cbn in Hfind. subst r. cbn [fst].
  rewrite (bind_eq (gets _)). cbn [gets fst]. rewrite Hres, Hsz.
  rewrite bind_eq. reflexivity.
Qed.

Lemma allocate_inputs_unbound sim op_name ts loc w :
  fst (_is_swapin_tensor (ts_name ts) op_name w) = Val (false, ts_name ts) ->
  Dict.mem String.eqb (ts_name ts) (_mem (self w)) = false ->
  ts_size loc = None ->
  allocate_inputs sim op_name [ts] loc w = (Raise (UnboundLocalError "ts_size"), w).
Proof.
  intros Hfind Hres Hsz. unfold allocate_inputs. cbn [foldM].
  rewrite bind_eq. rewrite (bind_eq (_is_swapin_tensor _ _)).
  destruct (_is_swapin_tensor (ts_name ts) op_name w) as [r w1] eqn:E.
  assert (Hw : w1 = w).
  { unfold _is_swapin_tensor, bind, gets in E. cbn in E.
    destruct (find _ _); unfold ret in E; congruence. }
  subst w1. cbn in Hfind. subst r. cbn [fst].
  rewrite (bind_eq (gets _)). cbn [gets fst]. rewrite Hres, Hsz.
  reflexivity.
Qed.

(** C7 (the code departs from it).  In the small graph with threshold 5 and
    ahead 1, [A:0] (100 bytes, two consumers) has been swapped out and
    released when its near consumer [B] executes at level 3; [play] allocates
    it anew with lifetime 2 but with 7 bytes, the size of [X:0], which the
    swap-out loop looked at last. *)
Theorem input_allocated_with_stale_size :
  let '(r, l, o) := play ex_sim 5 1 0 empty_ledger in
  _ts_size ex_sim ex_T = 100 /\
  len (ts_consumers ex_T) = 2 /\
  _ts_size ex_sim ex_V = 7 /\
  firstn 3 (skipn 17 (logged o))
  = [ExecuteOp 3 "B"; Allocated 7 "A:0" 8 992; Allocated 1 "B:0" 9 991] /\
  ~ In (Allocated 100 "A:0" 101 899) (logged o).
Proof.
  vm_compute. repeat split; try reflexivity.
  intros H. repeat (destruct H as [H|H]; [discriminate|]). exact H.
Qed.

(** ** Swap-ins scheduled in the past *)



(** *** Levels that are past are not looked at again *)

Section FilterDict.
Context {V : Type}.
Variable k : Z.

Definition later (kv : Z * V) : bool := k <? fst kv.

Lemma later_pair key (v : V) : later (key, v) = (k <? key).
Proof. reflexivity. Qed.

Lemma get_later key (d : list (Z * V)) :
  k < key -> Dict.get Z.eqb key (filter later d) = Dict.get Z.eqb key d.
Proof.
  intros H. induction d as [|[k' v'] d IH]; [reflexivity|].
  cbn [filter Dict.get]. rewrite later_pair.
  destruct (Z.ltb_spec k k'); cbn [Dict.get].
  - now rewrite IH.
  - rewrite (proj2 (Z.eqb_neq key k')) by lia. exact IH.
Qed.

Lemma get_not_later key (d : list (Z * V)) :
  key <= k -> Dict.get Z.eqb key (filter later d) = None.
Proof.
  intros H. induction d as [|[k' v'] d IH]; [reflexivity|].
  cbn [filter]. rewrite later_pair.
  destruct (Z.ltb_spec k k'); cbn [Dict.get]; [|exact IH].
  rewrite (proj2 (Z.eqb_neq key k')) by lia. exact IH.
Qed.

Lemma set_later key v (d : list (Z * V)) :
  k < key ->
  filter later (Dict.set Z.eqb key v d) = Dict.set Z.eqb key v (filter later d).
Proof.
  intros H. induction d as [|[k' v'] d IH]; cbn [Dict.set filter].
  - rewrite later_pair. now rewrite (proj2 (Z.ltb_lt k key)).
  - destruct (Z.eqb_spec key k') as [->|Hne]; cbn [filter]; rewrite !later_pair.
    + rewrite (proj2 (Z.ltb_lt k k')) by exact H.
      cbn [Dict.set]. now rewrite Z.eqb_refl.
    + destruct (k <? k'); cbn [Dict.set].
      * rewrite (proj2 (Z.eqb_neq key k')) by exact Hne. now rewrite IH.
      * exact IH.
Qed.

Lemma set_not_later key v (d : list (Z * V)) :
  key <= k -> filter later (Dict.set Z.eqb key v d) = filter later d.
Proof.
  intros H. induction d as [|[k' v'] d IH]; cbn [Dict.set filter].
  - rewrite later_pair. now rewrite (proj2 (Z.ltb_ge k key)).
  - destruct (Z.eqb_spec key k') as [->|Hne]; cbn [filter]; rewrite !later_pair.
    + now rewrite (proj2 (Z.ltb_ge k k')).
    + now rewrite IH.
Qed.

Lemma later_idem (d : list (Z * V)) : filter later (filter later d) = filter later d.
Proof.
  induction d as [|kv d IH]; cbn; [reflexivity|].
  destruct (later kv) eqn:E; cbn; [rewrite E|]; now rewrite IH.
Qed.

End FilterDict.

(** [forget k loc]: the locals without the swap-ins scheduled at level [k]
    or before. *)
Definition forget (k : Z) (loc : Locals) : Locals :=
  set_swapins (filter (later k)) loc.

Definition same_after (k : Z) (a b : Locals) : Prop := forget k a = forget k b.

Lemma same_after_fields k a b :
  same_after k a b ->
  swapouts a = swapouts b /\ ts_size a = ts_size b /\ passed a = passed b /\
  forall k', k < k' ->
    Dict.get Z.eqb k' (swapins a) = Dict.get Z.eqb k' (swapins b).
Proof.
  unfold same_after, forget, set_swapins. intros H. injection H as H1 H2 H3 H4.
  repeat split; auto. intros k' Hk.
  rewrite <- (get_later k k' (swapins a) Hk), <- (get_later k k' (swapins b) Hk).
  now rewrite H2.
Qed.

Lemma forget_add_swapin sim k ah n sz dests loc :
  forget k (add_swapin sim ah n sz dests loc)
  = forget k (add_swapin sim ah n sz dests (forget k loc)).
Proof.
  unfold forget, add_swapin, set_swapins. cbn. f_equal.
  set (lvl := _get_level (_lms sim) (_get_earliest_op (_lms sim) dests) - ah).
  destruct (Z.lt_ge_cases k lvl) as [Hlt|Hge].
  - rewrite (get_later k lvl _ Hlt).
    destruct (Dict.get Z.eqb lvl (swapins loc));
      now rewrite !set_later, later_idem by exact Hlt.
  - rewrite (get_not_later k lvl _ Hge).
    destruct (Dict.get Z.eqb lvl (swapins loc));
      now rewrite !set_not_later, later_idem by exact Hge.
Qed.

Lemma same_after_add_swapin sim k ah n sz dests a b :
  same_after k a b ->
  same_after k (add_swapin sim ah n sz dests a) (add_swapin sim ah n sz dests b).
Proof.
  unfold same_after. intros H.
  rewrite forget_add_swapin, H, <- forget_add_swapin. reflexivity.
Qed.

Lemma same_after_add_swapins sim k ah n sz grp :
  forall a b,
    same_after k a b ->
    same_after k
      (fold_left (fun loc dests => add_swapin sim ah n sz dests loc) grp a)
      (fold_left (fun loc dests => add_swapin sim ah n sz dests loc) grp b).
Proof.
  induction grp as [|g grp IH]; intros a b H; cbn; [exact H|].
  apply IH. now apply same_after_add_swapin.
Qed.

Lemma same_after_set_ts_size k v a b :
  same_after k a b -> same_after k (set_ts_size v a) (set_ts_size v b).
Proof.
  intros H. destruct (same_after_fields k a b H) as (H1 & H2 & H3 & _).
  unfold same_after, forget, set_swapins, set_ts_size in *. cbn.
  injection H as _ E _ _. now rewrite H1, H3, E.
Qed.

Lemma same_after_set_passed k p a b :
  same_after k a b -> same_after k (set_passed p a) (set_passed p b).
Proof.
  intros H. destruct (same_after_fields k a b H) as (H1 & H2 & H3 & _).
  unfold same_after, forget, set_swapins, set_passed in *. cbn.
  injection H as _ E _ _. now rewrite H1, H2, E.
Qed.

Lemma same_after_set_swapouts k f a b :
  same_after k a b -> same_after k (set_swapouts f a) (set_swapouts f b).
Proof.
  intros H. destruct (same_after_fields k a b H) as (H1 & H2 & H3 & _).
  unfold same_after, forget, set_swapins, set_swapouts in *. cbn.
  injection H as _ E _ _. now rewrite H1, H2, H3, E.
Qed.

(** Two statements are [related] when, from the same world, they end the
    same way in the same world, with locals that are the same after [k]. *)
Definition related (k : Z) (m1 m2 : M Locals) : Prop :=
  forall w,
    snd (m1 w) = snd (m2 w) /\
    match fst (m1 w), fst (m2 w) with
    | Val a, Val b => same_after k a b
    | Return a, Return b => a = b
    | Raise a, Raise b => a = b
    | _, _ => False
    end.

Section Related.
Variable k : Z.

Lemma related_ret a b : same_after k a b -> related k (ret a) (ret b).
Proof. intros H w. cbn. auto. Qed.

Lemma related_raise e : related k (raise e) (raise e).
Proof. intros w. cbn. auto. Qed.

Lemma related_return b : related k (return_ b) (return_ b).
Proof. intros w. cbn. auto. Qed.

Lemma related_bind_same {A} (m : M A) f1 f2 :
  (forall x, related k (f1 x) (f2 x)) -> related k (bind m f1) (bind m f2).
Proof.
  intros H w. rewrite !bind_eq. destruct (m w) as [[x|b|e] w']; cbn; auto.
  apply H.
Qed.

Lemma related_bind m1 m2 f1 f2 :
  related k m1 m2 ->
  (forall a b, same_after k a b -> related k (f1 a) (f2 b)) ->
  related k (bind m1 f1) (bind m2 f2).
Proof.
  intros Hm Hf w. rewrite !bind_eq. destruct (Hm w) as [Hw Hr].
  destruct (m1 w) as [[a|b|e] w1], (m2 w) as [[a'|b'|e'] w2];
    cbn in *; subst; try contradiction; auto.
  now apply Hf.
Qed.

Lemma related_foldM {A} (body : Locals -> A -> M Locals) :
  (forall a b x, same_after k a b -> related k (body a x) (body b x)) ->
  forall xs a b,
    same_after k a b -> related k (foldM body xs a) (foldM body xs b).
Proof.
  intros Hbody. induction xs as [|x xs IH]; intros a b H; cbn.
  - now apply related_ret.
  - apply related_bind; auto.
Qed.

End Related.

Create HintDb same.
#[global] Hint Resolve same_after_set_ts_size same_after_set_passed
  same_after_set_swapouts same_after_add_swapins : same.

Ltac rel_step :=
  first
    [ apply related_ret; solve [auto with same]
    | apply related_raise | apply related_return
    | apply related_bind_same; intros ?
    | match goal with
      | |- related _ (match ?x with _ => _ end) (match ?x with _ => _ end) =>
          destruct x
      end ].

Section Past.
Variable sim : Simulator.
Variables th ah gb : Z.
Variable k : Z.

Lemma related_check_ok ok a b :
  same_after k a b -> related k (check_ok sim ok a) (check_ok sim ok b).
Proof.
  intros H. unfold check_ok. destruct ok; [now apply related_ret|].
  destruct (negb (_plot sim)); cbn [passed set_passed].
  - apply related_return.
  - apply related_ret. auto with same.
Qed.

Lemma related_swapin_tensors k' a b :
  k < k' -> same_after k a b ->
  related k (swapin_tensors sim k' a) (swapin_tensors sim k' b).
Proof.
  intros Hk H. unfold swapin_tensors.
  destruct (same_after_fields k a b H) as (_ & _ & _ & Hget).
  rewrite (Hget k' Hk). apply related_foldM; [|exact H].
  intros a' b' [[n sz] lt] H'. repeat rel_step.
  apply related_check_ok. auto with same.
Qed.

Lemma related_allocate_inputs op_name ins a b :
  same_after k a b ->
  related k (allocate_inputs sim op_name ins a) (allocate_inputs sim op_name ins b).
Proof.
  intros H. unfold allocate_inputs. apply related_foldM; [|exact H].
  intros a' b' ts H'.
  destruct (same_after_fields k a' b' H') as (_ & Hsz & _ & _). rewrite Hsz.
  repeat rel_step. now apply related_check_ok.
Qed.

Lemma related_allocate_outputs outs a b :
  same_after k a b ->
  related k (allocate_outputs sim outs a) (allocate_outputs sim outs b).
Proof.
  intros H. unfold allocate_outputs. apply related_foldM; [|exact H].
  intros a' b' ts H'. repeat rel_step. now apply related_check_ok.
Qed.

Lemma related_swap_out_tensors kk op outs a b :
  same_after k a b ->
  related k (swap_out_tensors sim th ah gb kk op outs a)
            (swap_out_tensors sim th ah gb kk op outs b).
Proof.
  intros H. unfold swap_out_tensors.
  destruct (PySet.mem _ _ _); [now apply related_ret|].
  apply related_foldM; [|exact H]. intros a' b' ts H'. unfold swap_out_tensor.
  repeat rel_step.
Qed.

Lemma related_execute_op kk a b op :
  same_after k a b ->
  related k (execute_op sim th ah gb kk a op) (execute_op sim th ah gb kk b op).
Proof.
  intros H. unfold execute_op. apply related_bind_same. intros _.
  apply related_bind; [now apply related_allocate_inputs|]. intros a1 b1 H1.
  apply related_bind; [now apply related_allocate_outputs|]. intros a2 b2 H2.
  apply related_bind_same. intros _.
  destruct (same_after_fields k a2 b2 H2) as (Hso & _).
  unfold update_swapouts. rewrite Hso.
  apply related_bind_same. intros _.
  apply related_bind_same. intros _.
  now apply related_swap_out_tensors.
Qed.

Lemma related_simulate_level k' a b :
  k < k' -> same_after k a b ->
  related k (simulate_level sim th ah gb a k') (simulate_level sim th ah gb b k').
Proof.
  intros Hk H. unfold simulate_level.
  apply related_bind_same. intros _. apply related_bind_same. intros _.
  apply related_bind; [now apply related_swapin_tensors|]. intros a1 b1 H1.
  apply related_bind.
  - apply related_foldM; [|exact H1]. intros a2 b2 op H2.
    now apply related_execute_op.
  - intros a2 b2 H2. apply related_bind_same. intros _. now apply related_ret.
Qed.

Lemma related_levels ks :
  Forall (fun k' => k < k') ks ->
  forall a b,
    same_after k a b ->
    related k (foldM (simulate_level sim th ah gb) ks a)
              (foldM (simulate_level sim th ah gb) ks b).
Proof.
  induction 1 as [|k' ks Hk Hks IH]; intros a b H; cbn.
  - now apply related_ret.
  - apply related_bind; [now apply related_simulate_level|]. exact IH.
Qed.

End Past.

Lemma skipn_range_later i n :
  Forall (fun k' => Z.of_nat i < k') (skipn (S i) (range n)).
Proof.
  unfold range. rewrite skipn_map. apply Forall_map.
  apply Forall_forall. intros x Hx.
  assert (Hin : In x (seq 0 n)).
  { rewrite <- (firstn_skipn (S i) (seq 0 n)). apply in_or_app. now right. }
  apply in_seq in Hin.
  destruct (Nat.le_gt_cases n (S i)) as [Hle|Hgt].
  - rewrite skipn_all2 in Hx by (rewrite length_seq; exact Hle). destruct Hx.
  - replace n with (S i + (n - S i))%nat in Hx by lia.
    rewrite seq_app, skipn_app, length_seq, Nat.sub_diag in Hx.
    rewrite skipn_all2 in Hx by (rewrite length_seq; lia).
    cbn [skipn app] in Hx. apply in_seq in Hx. lia.
Qed.

(** The swap-in for a group of destinations is stored under the level of
    the group's earliest op minus [ahead].  Once level [i] has been
    simulated, what is stored under level [i] or an earlier one, a negative
    one included, has no part in the rest of the run: the levels that follow
    end the same way, in the same world, with or without it. *)
Lemma past_swapins_are_not_read :
  forall sim th ah gb,
    (forall n sz dests loc,
        exists ds,
          Dict.get Z.eqb
            (_get_level (_lms sim) (_get_earliest_op (_lms sim) dests) - ah)
            (swapins (add_swapin sim ah n sz dests loc)) = Some ds /\
          In ((n ++ "_" ++ String.concat "_" dests)%string, sz, len dests) ds) /\
    (forall (i : nat) a b,
        same_after (Z.of_nat i) a b ->
        related (Z.of_nat i)
          (foldM (simulate_level sim th ah gb)
                 (skipn (S i) (range (_topo_sort_size (_lms sim)))) a)
          (foldM (simulate_level sim th ah gb)
                 (skipn (S i) (range (_topo_sort_size (_lms sim)))) b)) /\
    (forall (i : nat) loc,
        same_after (Z.of_nat i) loc (forget (Z.of_nat i) loc) /\
        forall k', k' <= Z.of_nat i ->
          Dict.get Z.eqb k' (swapins (forget (Z.of_nat i) loc)) = None).
Proof.
  intros sim th ah gb. split; [|split].
  - intros n sz dests loc. unfold add_swapin. cbn.
    set (lvl := _get_level (_lms sim) (_get_earliest_op (_lms sim) dests) - ah).
    destruct (Dict.get Z.eqb lvl (swapins loc)) as [old|];
      rewrite (get_set_same Z.eqb Z.eqb_eq); eexists; (split; [reflexivity|]).
    + apply (in_add Descr_eqb); [|now left].
      intros [[n1 s1] l1] [[n2 s2] l2]. unfold Descr_eqb.
      rewrite !andb_true_iff, String.eqb_eq, !Z.eqb_eq.
      split; [intros [[-> ->] ->]; reflexivity|intros [= -> -> ->]; auto].
    + now left.
  - intros i a b H. apply related_levels; [apply skipn_range_later|exact H].
  - intros i loc. split.
    + unfold same_after, forget, set_swapins. cbn. now rewrite later_idem.
    + intros k' Hk. unfold forget, set_swapins. cbn. now apply get_not_later.
Qed.

(** ** Reference counts *)

(** C6 (counterexample).  When [C] executes, [x:0] and [xx:0_C] are
    resident, each with reference count 1.  [xx:0_C] is the only resident
    name that contains [C], and it contains both [xx:0] and [x:0]: both
    inputs of [C] resolve to it, in whatever order they are taken.  Its count
    is decremented twice, the second time from 0, and the run ends with the
    entry still resident at count -1. *)
Lemma ref_count_goes_negative :
  let '(r, l, o) := play al_sim 1 0 0 empty_ledger in
  r = Returned true /\
  _mem l = [("x:0", 20); ("xx:0_C", 10)] /\
  _ref_counts l = [("x:0", 1); ("xx:0_C", -1)] /\
  fst (_is_swapin_tensor "xx:0" "C" {| self := l; out := [] |})
  = Val (true, "xx:0_C") /\
  fst (_is_swapin_tensor "x:0" "C" {| self := l; out := [] |})
  = Val (true, "xx:0_C") /\
  logged o
  = [Simulating 1 0 0;
     SimulateLevel 0; ExecuteOp 0 "P1"; Allocated 10 "xx:0" 10 990;
     SwappedOut 0 "xx:0"; AvailableMemory 0;
     SimulateLevel 1; AvailableMemory 1;
     SimulateLevel 2; ExecuteOp 2 "P2"; Allocated 20 "x:0" 30 970;
     Released 10 "xx:0" 20 980; AvailableMemory 2;
     SimulateLevel 3; SwappedIn 3 "xx:0_C"; Allocated 10 "xx:0_C" 30 970;
     ExecuteOp 3 "C"; AvailableMemory 3;
     SwappedOutTensors 1].
Proof. vm_compute. intuition. Qed.

Definition ref_count (n : string) (w : World) : option Z :=
  Dict.get String.eqb n (_ref_counts (self w)).

(** The loop of line 170 over distinct names that all have a count. *)
Lemma decrement_all xs :
  NoDup xs ->
  forall w,
    (forall x, In x xs -> ref_count x w <> None) ->
    exists w',
      forM_ (fun ts => add_ref_count ts (-1)) xs w = (Val tt, w') /\
      _mem (self w') = _mem (self w) /\
      (forall n, In n xs ->
         ref_count n w' = option_map (fun v => v - 1) (ref_count n w)) /\
      (forall n, ~ In n xs -> ref_count n w' = ref_count n w).
Proof.
  induction 1 as [|x xs Hnot Hnd IH]; intros w Hall.
  - exists w. cbn. repeat split; tauto.
  - rewrite forM_cons.
    destruct (ref_count x w) as [v|] eqn:Hx;
      [|now destruct (Hall x (or_introl eq_refl))].
    rewrite (add_ref_count_some _ _ _ _ Hx).
    set (w1 := {| self := _; out := _ |}).
    assert (Hsame : ref_count x w1 = Some (v - 1)).
    { subst w1. unfold ref_count. cbn.
      now rewrite (get_set_same String.eqb String.eqb_eq). }
    assert (Hother : forall n, n <> x -> ref_count n w1 = ref_count n w).
    { intros n Hn. subst w1. unfold ref_count. cbn.
      rewrite (get_set_other String.eqb String.eqb_eq); congruence. }
    destruct (IH w1) as (w' & E & Hmem & Hin & Hout).
    { intros y Hy. rewrite Hother; [apply Hall; now right|].
      intros ->. contradiction. }
    exists w'. split; [exact E|]. split; [exact Hmem|]. split.
    + intros n [<-|Hn].
      * rewrite Hout, Hsame, Hx by exact Hnot. reflexivity.
      * rewrite Hin, Hother by (auto; intros ->; contradiction). reflexivity.
    + intros n Hn. rewrite Hout, Hother; [reflexivity| |]; intros E'; apply Hn.
      * subst. now left.
      * now right.
Qed.

(** The test of the comprehension of lines 168-169. *)
Definition still_counted (x : string) : M bool :=
  resident <- gets (fun l => Dict.mem String.eqb x (_mem l)) ;;
  if resident then
    v <- getitem _ref_counts x ;;
    ret (v >? 0)
  else ret false.

Lemma update_swapouts_unfold loc :
  update_swapouts loc
  = (xs <- filterM still_counted (swapouts loc) ;;
     forM_ (fun ts => add_ref_count ts (-1)) (PySet.of_list String.eqb xs)).
Proof. reflexivity. Qed.

Lemma still_counted_eq x w :
  still_counted x w
  = (if Dict.mem String.eqb x (_mem (self w)) then
       match ref_count x w with
       | Some v => Val (v >? 0)
       | None => Raise (KeyError x)
       end
     else Val false, w).
Proof.
  unfold still_counted, getitem, ref_count, bind, gets. cbn.
  destruct (Dict.mem String.eqb x (_mem (self w))); [|reflexivity].
  now destruct (Dict.get String.eqb x (_ref_counts (self w))).
Qed.

Lemma filterM_cons {A} (test : A -> M bool) x xs w :
  filterM test (x :: xs) w
  = match test x w with
    | (Val b, w') =>
        match filterM test xs w' with
        | (Val rest, w'') => (Val (if b then x :: rest else rest), w'')
        | (Return b', w'') => (Return b', w'')
        | (Raise e, w'') => (Raise e, w'')
        end
    | (Return b', w') => (Return b', w')
    | (Raise e, w') => (Raise e, w')
    end.
Proof.
  cbn [filterM]. rewrite bind_eq. destruct (test x w) as [[b|b'|e] w']; auto.
Qed.

Lemma still_counted_selects xs :
  forall w,
    snd (filterM still_counted xs w) = w /\
    match fst (filterM still_counted xs w) with
    | Val ys =>
        forall y, In y ys ->
          In y xs /\ Dict.mem String.eqb y (_mem (self w)) = true /\
          exists v, ref_count y w = Some v /\ v > 0
    | Return _ => False
    | Raise _ => True
    end.
Proof.
  induction xs as [|x xs IH]; intros w.
  - cbn. split; [reflexivity|]. intros y [].
  - rewrite filterM_cons, still_counted_eq. destruct (IH w) as [Hw Hys].
    assert (Hskip : forall ys y,
               (forall y, In y ys ->
                  In y xs /\ Dict.mem String.eqb y (_mem (self w)) = true /\
                  exists v, ref_count y w = Some v /\ v > 0) ->
               In y ys ->
               In y (x :: xs) /\ Dict.mem String.eqb y (_mem (self w)) = true /\
               exists v, ref_count y w = Some v /\ v > 0).
    { intros ys y H Hy. destruct (H y Hy) as (H1 & H2). split; [now right|exact H2]. }
    destruct (Dict.mem String.eqb x (_mem (self w))) eqn:Hmem.
    + destruct (ref_count x w) as [v|] eqn:Hrc; [|cbn; auto].
      destruct (filterM still_counted xs w) as [[ys|b|e] w']; cbn in *; subst; auto.
      split; [reflexivity|]. intros y Hy.
      destruct (Z.gtb_spec v 0) as [Hv|Hv]; [|now apply (Hskip ys)].
      destruct Hy as [<-|Hy]; [|now apply (Hskip ys)].
      split; [now left|]. split; [exact Hmem|]. exists v. split; [exact Hrc|lia].
    + destruct (filterM still_counted xs w) as [[ys|b|e] w']; cbn in *; subst; auto.
      split; [reflexivity|]. intros y Hy. now apply (Hskip ys).
Qed.

(** What [update_swapouts] does to a count: nothing, or one less for a
    swapped-out resident tensor whose count was positive. *)
Lemma update_swapouts_guarded loc w n :
  _mem (self (snd (update_swapouts loc w))) = _mem (self w) /\
  (ref_count n (snd (update_swapouts loc w)) = ref_count n w \/
   exists v,
     ref_count n w = Some v /\ v > 0 /\
     In n (swapouts loc) /\ Dict.mem String.eqb n (_mem (self w)) = true /\
     ref_count n (snd (update_swapouts loc w)) = Some (v - 1)).
Proof.
  rewrite update_swapouts_unfold, bind_eq.
  destruct (still_counted_selects (swapouts loc) w) as [Hw Hys].
  destruct (filterM still_counted (swapouts loc) w) as [[ys|b|e] w']; cbn in *; subst;
    [|contradiction|auto].
  destruct (decrement_all (PySet.of_list String.eqb ys)
              (NoDup_of_list String.eqb String.eqb_eq ys) w) as (w' & E & Hmem & Hin & Hout).
  { intros x Hx. apply (proj1 (in_of_list String.eqb String.eqb_eq ys x)) in Hx.
    destruct (Hys x Hx) as (_ & _ & v & -> & _). discriminate. }
  rewrite E. cbn. split; [exact Hmem|].
  destruct (in_dec string_dec n (PySet.of_list String.eqb ys)) as [Hn|Hn].
  - right. pose proof (proj1 (in_of_list String.eqb String.eqb_eq ys n) Hn) as Hn'.
    destruct (Hys n Hn') as (H1 & H2 & v & Hv & Hpos).
    exists v. rewrite (Hin n Hn), Hv. cbn. auto.
  - left. now apply Hout.
Qed.

(** C6 (as the code has it).  The decrement for outstanding swapped-out
    tensors changes a count only for a swapped-out tensor that is resident
    with a positive count, and then by one; it therefore keeps counts that
    are not negative not negative.  The decrement for a consumed input has
    no such guard: the entry the input resolves to goes from [v] to [v - 1]
    whatever [v] is. *)
Theorem swapout_decrement_guarded_input_decrement_not :
  (forall loc w n,
      ref_count n (snd (update_swapouts loc w)) = ref_count n w \/
      exists v,
        ref_count n w = Some v /\ v > 0 /\
        In n (swapouts loc) /\ Dict.mem String.eqb n (_mem (self w)) = true /\
        ref_count n (snd (update_swapouts loc w)) = Some (v - 1)) /\
  (forall loc w,
      (forall n v, ref_count n w = Some v -> 0 <= v) ->
      forall n v, ref_count n (snd (update_swapouts loc w)) = Some v -> 0 <= v) /\
  (forall op_name ts w found s v,
      _is_swapin_tensor (ts_name ts) op_name w = (Val (found, s), w) ->
      ref_count s w = Some v ->
      fst (consume_inputs op_name [ts] w) = Val tt /\
      ref_count s (snd (consume_inputs op_name [ts] w)) = Some (v - 1)).
Proof.
  split; [|split].
  - intros loc w n. apply update_swapouts_guarded.
  - intros loc w Hpos n v Hv.
    destruct (update_swapouts_guarded loc w n) as [_ [E|(v0 & H0 & Hgt & _ & _ & E)]].
    + rewrite E in Hv. eauto.
    + rewrite E in Hv. injection Hv as <-. lia.
  - intros op_name ts w found s v Hres Hv.
    unfold consume_inputs. rewrite forM_cons, bind_eq, Hres. cbn [snd].
    rewrite (add_ref_count_some _ _ _ _ Hv). cbn.
    split; [reflexivity|]. unfold ref_count. cbn.
    rewrite (get_set_same String.eqb String.eqb_eq). f_equal; lia.
Qed.

(** ** Used bytes and resident sizes *)

Section KeysFacts.
Context {K V1 V2 : Type}.
Variable eqb : K -> K -> bool.

Lemma mem_same_keys k (d1 : list (K * V1)) (d2 : list (K * V2)) :
  Dict.keys d1 = Dict.keys d2 -> Dict.mem eqb k d1 = Dict.mem eqb k d2.
Proof.
  unfold Dict.mem, Dict.keys. revert d2.
  induction d1 as [|[k1 v1] d1 IH]; intros [|[k2 v2] d2]; cbn;
    try discriminate; [reflexivity|].
  intros [= -> E]. destruct (eqb k k2); [reflexivity|]. now apply IH.
Qed.

Lemma set_same_keys k v1 v2 (d1 : list (K * V1)) (d2 : list (K * V2)) :
  Dict.keys d1 = Dict.keys d2 ->
  Dict.keys (Dict.set eqb k v1 d1) = Dict.keys (Dict.set eqb k v2 d2).
Proof.
  unfold Dict.keys. revert d2.
  induction d1 as [|[k1 w1] d1 IH]; intros [|[k2 w2] d2]; cbn;
    try discriminate; [reflexivity|].
  intros [= -> E]. destruct (eqb k k2); cbn; f_equal; auto.
Qed.

Lemma del_same_keys k (d1 : list (K * V1)) (d2 : list (K * V2)) :
  Dict.keys d1 = Dict.keys d2 ->
  Dict.keys (Dict.del eqb k d1) = Dict.keys (Dict.del eqb k d2).
Proof.
  unfold Dict.keys. revert d2.
  induction d1 as [|[k1 w1] d1 IH]; intros [|[k2 w2] d2]; cbn;
    try discriminate; [reflexivity|].
  intros [= -> E]. destruct (eqb k k2); cbn; [exact E|]. f_equal; auto.
Qed.

End KeysFacts.

(** [sum(self._mem.values())] *)
Definition sum_sizes (d : list (string * Z)) : Z :=
  fold_right Z.add 0 (map snd d).

Lemma sum_sizes_set_absent n sz d :
  Dict.mem String.eqb n d = false ->
  sum_sizes (Dict.set String.eqb n sz d) = sum_sizes d + sz.
Proof.
  unfold Dict.mem, sum_sizes. induction d as [|[k v] d IH]; cbn; [lia|].
  destruct (String.eqb n k); [discriminate|]. cbn. intros H.
  rewrite (IH H). lia.
Qed.

Lemma sum_sizes_set_present n sz d old :
  Dict.get String.eqb n d = Some old ->
  sum_sizes (Dict.set String.eqb n sz d) = sum_sizes d + sz - old.
Proof.
  unfold sum_sizes. induction d as [|[k v] d IH]; cbn; [discriminate|].
  destruct (String.eqb n k); cbn.
  - intros [= ->]. lia.
  - intros H. rewrite (IH H). lia.
Qed.

Lemma sum_sizes_del n sz d :
  Dict.get String.eqb n d = Some sz ->
  sum_sizes (Dict.del String.eqb n d) = sum_sizes d - sz.
Proof.
  unfold sum_sizes. induction d as [|[k v] d IH]; cbn; [discriminate|].
  destruct (String.eqb n k); cbn.
  - intros [= ->]. lia.
  - intros H. rewrite (IH H). lia.
Qed.

(** The invariant of the specification, on one ledger. *)
Definition used_is_sum (l : Ledger) : Prop := _used_mem l = sum_sizes (_mem l).

(** The ledgers sampled during a run, in order. *)
Definition samples (o : list Event) : list Ledger :=
  flat_map (fun e => match e with Sampled l => [l] | Log _ => [] end) o.

(** From one sample to the next: an allocation of a tensor that was not
    resident, a release, or an allocation of a tensor that was resident. *)
Definition fresh_alloc (l l' : Ledger) : Prop :=
  exists n sz,
    Dict.mem String.eqb n (_mem l) = false /\
    _mem l' = Dict.set String.eqb n sz (_mem l) /\
    _used_mem l' = _used_mem l + sz.

Definition released (l l' : Ledger) : Prop :=
  exists n sz,
    Dict.get String.eqb n (_mem l) = Some sz /\
    _mem l' = Dict.del String.eqb n (_mem l) /\
    _used_mem l' = _used_mem l - sz.

Definition realloc (l l' : Ledger) : Prop :=
  exists n sz,
    Dict.mem String.eqb n (_mem l) = true /\
    _mem l' = Dict.set String.eqb n sz (_mem l) /\
    _used_mem l' = _used_mem l + sz.

Definition fresh_step (l l' : Ledger) : Prop := fresh_alloc l l' \/ released l l'.

Definition ledger_step (l l' : Ledger) : Prop := fresh_step l l' \/ realloc l l'.

Fixpoint chain (R : Ledger -> Ledger -> Prop) (prev : Ledger) (ls : list Ledger)
    : Prop :=
  match ls with
  | [] => True
  | l :: ls' => R prev l /\ chain R l ls'
  end.

Lemma last_cons {A} (ls : list A) : forall l d, last (l :: ls) d = last ls l.
Proof.
  induction ls as [|x ls IH]; intros l d; [reflexivity|].
  change (last (l :: x :: ls) d) with (last (x :: ls) d).
  now rewrite !IH.
Qed.

Lemma chain_snoc R l' : forall ls prev,
  chain R prev (ls ++ [l']) <-> chain R prev ls /\ R (last ls prev) l'.
Proof.
  induction ls as [|l ls IH]; intros prev.
  - cbn. tauto.
  - cbn [app chain]. rewrite IH, last_cons. tauto.
Qed.

Lemma fresh_step_keeps_sum l l' :
  fresh_step l l' -> used_is_sum l -> used_is_sum l'.
Proof.
  unfold used_is_sum.
  intros [(n & sz & Hm & -> & ->)|(n & sz & Hg & -> & ->)] H.
  - rewrite sum_sizes_set_absent by exact Hm. lia.
  - rewrite (sum_sizes_del n sz) by exact Hg. lia.
Qed.

Lemma fresh_chain_keeps_sum ls : forall prev,
  used_is_sum prev -> chain fresh_step prev ls -> Forall used_is_sum ls.
Proof.
  induction ls as [|l ls IH]; intros prev Hp Hc; constructor.
  - destruct Hc as [Hs _]. now apply (fresh_step_keeps_sum prev).
  - destruct Hc as [Hs Hc]. apply (IH l); [|exact Hc].
    now apply (fresh_step_keeps_sum prev).
Qed.

(** The ledger after [_release]. *)
Definition release_ledger (ts_name : string) (ts_size : Z) (l : Ledger) : Ledger :=
  {| _mem := Dict.del String.eqb ts_name (_mem l);
     _ref_counts := Dict.del String.eqb ts_name (_ref_counts l);
     _used_mem := _used_mem l - ts_size;
     _mem_traces := _mem_traces l ++ [_used_mem l - ts_size] |}.

Lemma release_present sim n w sz :
  Dict.get String.eqb n (_mem (self w)) = Some sz ->
  Dict.mem String.eqb n (_ref_counts (self w)) = true ->
  _release sim n w
  = (Val tt,
     {| self := release_ledger n sz (self w);
        out := out w ++ [Sampled (release_ledger n sz (self w));
                         Log (Released sz n (_used_mem (self w) - sz)
                                (_get_free_mem sim (release_ledger n sz (self w))))] |}).
Proof.
  intros Hg Hm.
  unfold _release, getitem, delitem, append_trace, _log_info, bind, gets, modify, emit.
  cbn. rewrite Hg. cbn. unfold Dict.mem at 1. rewrite Hg. cbn. rewrite Hm. cbn.
  rewrite <- app_assoc. reflexivity.
Qed.

Lemma release_absent sim n w :
  Dict.get String.eqb n (_mem (self w)) = None ->
  _release sim n w = (Raise (KeyError n), w).
Proof.
  intros Hg. unfold _release, getitem, bind, gets. cbn. now rewrite Hg.
Qed.

Definition last_sample (w : World) : Ledger := last (samples (out w)) empty_ledger.

(** What holds of the world between two statements of a run: the two
    dictionaries have the same keys, the resident sizes and the used bytes
    are those of the last sample, the memory trace is the used bytes of the
    samples, and each sample comes from the one before by one step. *)
Definition tracked (w : World) : Prop :=
  Dict.keys (_mem (self w)) = Dict.keys (_ref_counts (self w)) /\
  _mem (self w) = _mem (last_sample w) /\
  _used_mem (self w) = _used_mem (last_sample w) /\
  _mem_traces (self w) = map _used_mem (samples (out w)) /\
  chain ledger_step empty_ledger (samples (out w)).

Lemma samples_app o1 o2 : samples (o1 ++ o2) = samples o1 ++ samples o2.
Proof. apply flat_map_app. Qed.

Lemma tracked_log m : preserves tracked (emit (Log m)).
Proof.
  intros w H. unfold tracked, last_sample in *. cbn.
  rewrite samples_app. cbn. rewrite app_nil_r. exact H.
Qed.

Lemma tracked_sample w l' es :
  tracked w ->
  Dict.keys (_mem l') = Dict.keys (_ref_counts l') ->
  ledger_step (self w) l' ->
  _mem_traces l' = _mem_traces (self w) ++ [_used_mem l'] ->
  samples es = [l'] ->
  tracked {| self := l'; out := out w ++ es |}.
Proof.
  intros (Hk & Hm & Hu & Ht & Hc) Hk' Hstep Ht' Hes.
  unfold tracked, last_sample in *. cbn. rewrite samples_app, Hes.
  rewrite last_last, map_app, chain_snoc. cbn.
  repeat split; auto; [now rewrite Ht', Ht|].
  unfold ledger_step, fresh_step, fresh_alloc, released, realloc in *.
  now rewrite <- Hm, <- Hu.
Qed.

Lemma tracked_allocate sim n sz lt : preserves tracked (_allocate sim n sz lt).
Proof.
  intros w H.
  assert (Hstep : tracked {| self := allocated n sz lt (self w);
                             out := out w ++ [Sampled (allocated n sz lt (self w))] |}).
  { apply tracked_sample; [exact H| | |reflexivity|reflexivity].
    - apply set_same_keys, H.
    - destruct (Dict.mem String.eqb n (_mem (self w))) eqn:Hm.
      + right. exists n, sz. auto.
      + left. left. exists n, sz. auto. }
  destruct (Z.lt_ge_cases sz (_get_free_mem sim (self w))) as [Hfit|Hoom].
  - rewrite allocate_fits by exact Hfit. cbn [snd].
    apply (tracked_log (Allocated sz n (_used_mem (self w) + sz)
               (_get_free_mem sim (allocated n sz lt (self w))))) in Hstep.
    cbn in Hstep. rewrite <- app_assoc in Hstep. exact Hstep.
  - apply Z.le_ge in Hoom. destruct (_plot sim) eqn:Hplot.
    + rewrite allocate_oom_plot by assumption. cbn [snd].
      apply (tracked_log (OOM n sz (_used_mem (self w)) (_get_free_mem sim (self w))))
        in H. cbn in H.
      apply (tracked_sample _ (allocated n sz lt (self w))
               [Sampled (allocated n sz lt (self w))]) in H.
      * apply (tracked_log (Allocated sz n (_used_mem (self w) + sz)
               (_get_free_mem sim (allocated n sz lt (self w))))) in H.
        cbn in H. rewrite <- !app_assoc in H. exact H.
      * apply set_same_keys. destruct Hstep as [Hk _]. cbn in Hk.
        destruct H as [Hk' _]. exact Hk'.
      * cbn. destruct (Dict.mem String.eqb n (_mem (self w))) eqn:Hm.
        -- right. exists n, sz. auto.
        -- left. left. exists n, sz. auto.
      * reflexivity.
      * reflexivity.
    + rewrite allocate_oom_strict by assumption. cbn [snd].
      now apply (tracked_log (OOM n sz (_used_mem (self w)) (_get_free_mem sim (self w))))
        in H.
Qed.

Lemma tracked_release sim n : preserves tracked (_release sim n).
Proof.
  intros w H.
  destruct (Dict.get String.eqb n (_mem (self w))) as [sz|] eqn:Hg.
  - assert (Hm : Dict.mem String.eqb n (_ref_counts (self w)) = true).
    { destruct H as [Hk _]. rewrite <- (mem_same_keys String.eqb n _ _ Hk).
      unfold Dict.mem. now rewrite Hg. }
    rewrite (release_present sim n w sz Hg Hm). cbn [snd].
    assert (Hstep : tracked {| self := release_ledger n sz (self w);
                               out := out w ++ [Sampled (release_ledger n sz (self w))] |}).
    { apply tracked_sample; [exact H| | |reflexivity|reflexivity].
      - apply del_same_keys, H.
      - left. right. exists n, sz. auto. }
    apply (tracked_log (Released sz n (_used_mem (self w) - sz)
                          (_get_free_mem sim (release_ledger n sz (self w))))) in Hstep.
    cbn in Hstep. rewrite <- app_assoc in Hstep. exact Hstep.
  - now rewrite release_absent.
Qed.

Lemma tracked_add_ref_count k d : preserves tracked (add_ref_count k d).
Proof.
  intros w H.
  destruct (Dict.get String.eqb k (_ref_counts (self w))) as [v|] eqn:Hg.
  - rewrite (add_ref_count_some _ _ _ _ Hg). cbn [snd].
    destruct H as (Hk & H). split; [|exact H].
    change (Dict.keys (_mem (self w))
            = Dict.keys (Dict.set String.eqb k (v + d) (_ref_counts (self w)))).
    rewrite keys_set_present; [exact Hk|]. unfold Dict.mem. now rewrite Hg.
  - now rewrite add_ref_count_none.
Qed.

#[global] Hint Resolve tracked_log tracked_allocate tracked_release
  tracked_add_ref_count : pres.

Lemma play_body_tracked sim th ah gb l :
  tracked (snd (play_body sim th ah gb {| self := l; out := [] |})).
Proof.
  unfold play_body.
  set (w0 := {| self := l; out := [] |}).
  change ((_reset ;; ?rest) w0) with (rest (snd (_reset w0))).
  set (w1 := snd (_reset w0)).
  assert (H1 : tracked w1) by (repeat split).
  clearbody w1. revert w1 H1.
  match goal with |- forall w1, _ -> tracked (snd (?c w1)) =>
    change (preserves tracked c) end.
  pres.
Qed.

(** The memory trace of a call of [play] is the used bytes of its samples;
    every sample comes from the one before (the empty ledger for the first)
    by an allocation or a release; and as long as no allocation so far was
    of a tensor already resident, the used bytes of a sample are the sum of
    the sizes resident at that sample. *)
Lemma samples_keep_sum_while_fresh :
  forall sim th ah gb l,
    let '(r, l', o) := play sim th ah gb l in
    _mem_traces l' = map _used_mem (samples o) /\
    chain ledger_step empty_ledger (samples o) /\
    (forall pre post,
        samples o = pre ++ post ->
        chain fresh_step empty_ledger pre ->
        Forall used_is_sum pre).
Proof.
  intros sim th ah gb l.
  pose proof (play_body_tracked sim th ah gb l) as H. unfold play.
  destruct (play_body sim th ah gb {| self := l; out := [] |}) as [r w].
  cbn [snd] in H. destruct H as (_ & _ & _ & Ht & Hc).
  split; [exact Ht|]. split; [exact Hc|].
  intros pre post _ Hfresh.
  apply (fresh_chain_keeps_sum pre empty_ledger); [reflexivity|exact Hfresh].
Qed.

(** On the graph with a back edge, [M] allocates its input [N:0], which
    stays resident for [Z]; when [N] executes, its output [N:0] is allocated
    over the resident entry.  The fifth sample has 13 used bytes for 9
    resident bytes, and the run ends with 12 used bytes for 8 resident
    bytes. *)
Example lp_play_allocates_over_resident :
  let '(r, l, o) := play lp_sim 100 0 0 empty_ledger in
  r = Returned true /\
  nth 4 (samples o) empty_ledger
  = {| _mem := [("N:0", 8); ("M:0", 1)];
       _ref_counts := [("N:0", 2); ("M:0", 1)];
       _used_mem := 13;
       _mem_traces := [4; 8; 9; 5; 13] |} /\
  sum_sizes (_mem (nth 4 (samples o) empty_ledger)) = 9 /\
  _mem_traces l = [4; 8; 9; 5; 13; 12] /\
  _used_mem l = 12 /\
  sum_sizes (_mem l) = 8.
Proof. vm_compute. intuition. Qed.

(** * Further properties of the ledger and the driver *)

(** ** Allocating and releasing *)

Section DictMore.
Context {K V : Type}.
Variable eqb : K -> K -> bool.
Hypothesis eqb_eq : forall a b, eqb a b = true <-> a = b.

Lemma del_set_absent k (v : V) d :
  Dict.mem eqb k d = false -> Dict.del eqb k (Dict.set eqb k v d) = d.
Proof.
  unfold Dict.mem. induction d as [|[k' v'] d IH]; cbn.
  - now rewrite (eqb_refl_true eqb eqb_eq).
  - destruct (eqb k k') eqn:E; [discriminate|]. cbn. rewrite E.
    intros H. now rewrite IH.
Qed.

Lemma mem_true_in_keys k (d : list (K * V)) :
  Dict.mem eqb k d = true <-> In k (Dict.keys d).
Proof.
  unfold Dict.mem, Dict.keys. induction d as [|[k' v'] d IH]; cbn.
  - split; [discriminate|tauto].
  - destruct (eqb k k') eqn:E.
    + apply eqb_eq in E. subst. split; auto.
    + rewrite IH. split; [auto|]. intros [->|H]; [|exact H].
      rewrite (eqb_refl_true eqb eqb_eq) in E. discriminate.
Qed.

Lemma get_none_not_mem k (d : list (K * V)) :
  Dict.get eqb k d = None <-> Dict.mem eqb k d = false.
Proof. unfold Dict.mem. destruct (Dict.get eqb k d); split; congruence. Qed.

(** Without its first binding of [k], a dictionary with distinct keys has
    no binding of [k] left, and the other bindings are as they were. *)
Lemma get_del_same k (d : list (K * V)) :
  NoDup (Dict.keys d) -> Dict.get eqb k (Dict.del eqb k d) = None.
Proof.
  unfold Dict.keys. induction d as [|[k' v'] d IH]; cbn; [reflexivity|].
  intros Hnd. inversion Hnd as [|? ? Hnot Hnd']; subst.
  destruct (eqb k k') eqn:E.
  - apply eqb_eq in E. subst k'.
    apply get_none_not_mem. destruct (Dict.mem eqb k d) eqn:Hm; [|reflexivity].
    apply mem_true_in_keys in Hm. contradiction.
  - cbn. rewrite E. auto.
Qed.

Lemma get_del_other k k' (d : list (K * V)) :
  k <> k' -> Dict.get eqb k' (Dict.del eqb k d) = Dict.get eqb k' d.
Proof.
  intros Hne. induction d as [|[k1 v1] d IH]; cbn; [reflexivity|].
  destruct (eqb k k1) eqn:E.
  - apply eqb_eq in E. subst k1. rewrite (eqb_neq_false eqb eqb_eq); auto.
  - cbn. now rewrite IH.
Qed.

Lemma keys_del_subset k x (d : list (K * V)) :
  In x (Dict.keys (Dict.del eqb k d)) -> In x (Dict.keys d).
Proof.
  unfold Dict.keys. induction d as [|[k1 v1] d IH]; cbn; [tauto|].
  destruct (eqb k k1); cbn; [auto|]. intros [H|H]; auto.
Qed.

Lemma NoDup_keys_del k (d : list (K * V)) :
  NoDup (Dict.keys d) -> NoDup (Dict.keys (Dict.del eqb k d)).
Proof.
  unfold Dict.keys. induction d as [|[k1 v1] d IH]; cbn; [auto|].
  intros Hnd. inversion Hnd as [|? ? Hnot Hnd']; subst.
  destruct (eqb k k1); cbn; [exact Hnd'|]. constructor; [|auto].
  intros H. apply Hnot. now apply (keys_del_subset k).
Qed.

Lemma NoDup_keys_set k (v : V) (d : list (K * V)) :
  NoDup (Dict.keys d) -> NoDup (Dict.keys (Dict.set eqb k v d)).
Proof.
  intros Hnd. destruct (Dict.mem eqb k d) eqn:Hm.
  - now rewrite (keys_set_present eqb).
  - rewrite (keys_set_absent eqb) by exact Hm.
    apply NoDup_app; [exact Hnd|repeat constructor; auto|].
    intros x Hx [<-|[]]. apply mem_true_in_keys in Hx. congruence.
Qed.

End DictMore.

(** [_release] of a name that is in [_mem] but not in [_ref_counts]: the
    second [del] raises when the first has been done. *)
Lemma release_half sim n w sz :
  Dict.get String.eqb n (_mem (self w)) = Some sz ->
  Dict.mem String.eqb n (_ref_counts (self w)) = false ->
  _release sim n w
  = (Raise (KeyError n),
     {| self := set_mem (Dict.del String.eqb n) (self w); out := out w |}).
Proof.
  intros Hg Hm.
  unfold _release, getitem, delitem, bind, gets, modify, raise.
  cbn. rewrite Hg. cbn. unfold Dict.mem at 1. rewrite Hg. cbn. rewrite Hm.
  reflexivity.
Qed.

(** X1. Allocating a tensor that is resident in neither dictionary and then
    releasing it gives back the resident sizes, the reference counts and the
    used bytes there were; the memory trace has grown by the two samples.
    The allocation is one that inserts: the size fits, or the simulator
    plots. *)
Theorem allocate_then_release_restores :
  forall sim n sz lt w,
    Dict.mem String.eqb n (_mem (self w)) = false ->
    Dict.mem String.eqb n (_ref_counts (self w)) = false ->
    sz < _get_free_mem sim (self w) \/ _plot sim = true ->
    let w1 := snd (_allocate sim n sz lt w) in
    fst (_release sim n w1) = Val tt /\
    _mem (self (snd (_release sim n w1))) = _mem (self w) /\
    _ref_counts (self (snd (_release sim n w1))) = _ref_counts (self w) /\
    _used_mem (self (snd (_release sim n w1))) = _used_mem (self w) /\
    _mem_traces (self (snd (_release sim n w1)))
    = _mem_traces (self w) ++ [_used_mem (self w) + sz; _used_mem (self w)].
Proof.
  intros sim n sz lt w Hm Hr Hins w1.
  assert (Hw1 : self w1 = allocated n sz lt (self w)).
  { subst w1. destruct (Z.lt_ge_cases sz (_get_free_mem sim (self w))) as [Hfit|Hoom].
    - now rewrite allocate_fits.
    - destruct Hins as [Hfit|Hplot]; [lia|].
      rewrite allocate_oom_plot; [reflexivity|lia|exact Hplot]. }
  clearbody w1.
  rewrite (release_present sim n w1 sz).
  - cbn. rewrite Hw1. cbn.
    rewrite !(del_set_absent String.eqb String.eqb_eq) by assumption.
    repeat split; try lia. rewrite <- app_assoc. cbn. do 3 f_equal. lia.
  - rewrite Hw1. cbn. apply (get_set_same String.eqb String.eqb_eq).
  - rewrite Hw1. cbn. unfold Dict.mem.
    now rewrite (get_set_same String.eqb String.eqb_eq).
Qed.

Lemma allocate_then_release_restores_witness :
  fst (_release ex_sim "A:0"
         (snd (_allocate ex_sim "A:0" 100 2 {| self := empty_ledger; out := [] |})))
  = Val tt /\
  _mem_traces (self (snd (_release ex_sim "A:0"
         (snd (_allocate ex_sim "A:0" 100 2 {| self := empty_ledger; out := [] |})))))
  = [100; 0].
Proof.
  destruct (allocate_then_release_restores ex_sim "A:0" 100 2
              {| self := empty_ledger; out := [] |} eq_refl eq_refl)
    as (H1 & _ & _ & _ & H5).
  - left. vm_compute. reflexivity.
  - split; [exact H1|exact H5].
Defined.

(** X2. [_release] of a name that is not in [_mem] raises [KeyError] and
    touches nothing.  [_release] of a name that is in [_mem] but not in
    [_ref_counts] raises [KeyError] too, but after the entry of [_mem] has
    been deleted: the used bytes and the trace are as before and nothing is
    sampled or logged. *)
Theorem release_missing_key :
  forall sim n w,
    (Dict.get String.eqb n (_mem (self w)) = None ->
       _release sim n w = (Raise (KeyError n), w)) /\
    (forall sz,
       Dict.get String.eqb n (_mem (self w)) = Some sz ->
       Dict.mem String.eqb n (_ref_counts (self w)) = false ->
       fst (_release sim n w) = Raise (KeyError n) /\
       out (snd (_release sim n w)) = out w /\
       _mem (self (snd (_release sim n w))) = Dict.del String.eqb n (_mem (self w)) /\
       _ref_counts (self (snd (_release sim n w))) = _ref_counts (self w) /\
       _used_mem (self (snd (_release sim n w))) = _used_mem (self w) /\
       _mem_traces (self (snd (_release sim n w))) = _mem_traces (self w)).
Proof.
  intros sim n w. split.
  - apply release_absent.
  - intros sz Hg Hm. rewrite (release_half sim n w sz Hg Hm). cbn. auto 10.
Qed.

(** ** Garbage collection *)

Section DictNoDup.
Context {K V : Type}.
Variable eqb : K -> K -> bool.
Hypothesis eqb_eq : forall a b, eqb a b = true <-> a = b.

Lemma in_get_nodup k (v : V) d :
  NoDup (Dict.keys d) -> In (k, v) d -> Dict.get eqb k d = Some v.
Proof.
  unfold Dict.keys. induction d as [|[k' v'] d IH]; cbn; [tauto|].
  intros Hnd [[= -> ->]|Hin].
  - now rewrite (eqb_refl_true eqb eqb_eq).
  - inversion Hnd as [|? ? Hnot Hnd']; subst.
    destruct (eqb k k') eqn:E; [|auto].
    apply eqb_eq in E. subst k'. exfalso. apply Hnot.
    change k with (fst (k, v)). now apply in_map.
Qed.

Lemma NoDup_keys_filter (p : K * V -> bool) d :
  NoDup (Dict.keys d) -> NoDup (Dict.keys (filter p d)).
Proof.
  unfold Dict.keys. induction d as [|kv d IH]; cbn; [auto|].
  intros Hnd. inversion Hnd as [|? ? Hnot Hnd']; subst.
  destruct (p kv); cbn; [|auto]. constructor; [|auto].
  intros H. apply Hnot. apply in_map_iff in H. destruct H as (x & <- & Hx).
  apply filter_In in Hx. apply in_map. tauto.
Qed.

Lemma in_keys_del_other k x (d : list (K * V)) :
  k <> x -> In x (Dict.keys d) -> In x (Dict.keys (Dict.del eqb k d)).
Proof.
  intros Hne. unfold Dict.keys. induction d as [|[k1 v1] d IH]; cbn; [tauto|].
  destruct (eqb k k1) eqn:E.
  - apply eqb_eq in E. subst k1. intros [H|H]; [contradiction|exact H].
  - cbn. intros [H|H]; auto.
Qed.

End DictNoDup.

(** The loop of [_gc] over distinct resident names. *)
Lemma release_all sim xs :
  NoDup xs ->
  forall w,
    NoDup (Dict.keys (_mem (self w))) ->
    NoDup (Dict.keys (_ref_counts (self w))) ->
    Dict.keys (_mem (self w)) = Dict.keys (_ref_counts (self w)) ->
    (forall x, In x xs -> In x (Dict.keys (_mem (self w)))) ->
    exists w',
      forM_ (_release sim) xs w = (Val tt, w') /\
      (forall n, In n xs ->
         Dict.get String.eqb n (_mem (self w')) = None /\ ref_count n w' = None) /\
      (forall n, ~ In n xs ->
         Dict.get String.eqb n (_mem (self w')) = Dict.get String.eqb n (_mem (self w)) /\
         ref_count n w' = ref_count n w) /\
      _used_mem (self w') - sum_sizes (_mem (self w'))
      = _used_mem (self w) - sum_sizes (_mem (self w)) /\
      NoDup (Dict.keys (_mem (self w'))) /\
      NoDup (Dict.keys (_ref_counts (self w'))) /\
      Dict.keys (_mem (self w')) = Dict.keys (_ref_counts (self w')) /\
      List.length (_mem_traces (self w'))
      = (List.length (_mem_traces (self w)) + List.length xs)%nat.
Proof.
  induction 1 as [|x xs Hnot Hnd IH]; intros w Hm Hr Hk Hin.
  - exists w. cbn. repeat split; auto; try (intros n []); lia.
  - rewrite forM_cons.
    assert (Hx : In x (Dict.keys (_mem (self w)))) by (apply Hin; now left).
    pose proof Hx as Hxm. apply (mem_true_in_keys String.eqb String.eqb_eq) in Hxm.
    pose proof Hxm as Hxr. rewrite (mem_same_keys String.eqb x _ _ Hk) in Hxr.
    destruct (Dict.get String.eqb x (_mem (self w))) as [sz|] eqn:Hg;
      [|unfold Dict.mem in Hxm; rewrite Hg in Hxm; discriminate].
    rewrite (release_present sim x w sz Hg Hxr).
    set (w1 := {| self := _; out := _ |}).
    destruct (IH w1) as (w' & E & Hgone & Hkept & Hgap & Hm' & Hr' & Hk' & Hlen).
    + apply NoDup_keys_del, Hm.
    + apply NoDup_keys_del, Hr.
    + apply del_same_keys, Hk.
    + intros y Hy. apply (in_keys_del_other String.eqb String.eqb_eq).
      * intros ->. contradiction.
      * apply Hin. now right.
    + exists w'. split; [exact E|].
      assert (Hone : Dict.get String.eqb x (_mem (self w1)) = None /\
                     ref_count x w1 = None).
      { split; apply (get_del_same String.eqb String.eqb_eq); assumption. }
      assert (Hoth : forall n, n <> x ->
                Dict.get String.eqb n (_mem (self w1))
                = Dict.get String.eqb n (_mem (self w)) /\
                ref_count n w1 = ref_count n w).
      { intros n Hn. split; apply (get_del_other String.eqb String.eqb_eq); congruence. }
      split; [|split; [|split; [|split; [|split; [|split]]]]]; auto.
      * intros n [<-|Hn]; [|now apply Hgone].
        destruct (Hkept x Hnot) as [-> ->]. exact Hone.
      * intros n Hn. destruct (Hkept n) as [-> ->]; [intros H; apply Hn; now right|].
        apply Hoth. intros ->. apply Hn. now left.
      * rewrite Hgap. subst w1. cbn [self _mem _used_mem release_ledger].
        rewrite (sum_sizes_del x sz) by exact Hg. lia.
      * rewrite Hlen. subst w1. cbn. rewrite length_app. cbn. lia.
Qed.

(** The names [_gc] collects: those with reference count 0. *)
Definition zero_counts (w : World) : list string :=
  map fst (filter (fun kv => snd kv =? 0) (_ref_counts (self w))).

Lemma gc_unfold sim w : _gc sim w = forM_ (_release sim) (zero_counts w) w.
Proof. reflexivity. Qed.

Lemma in_zero_counts n w :
  NoDup (Dict.keys (_ref_counts (self w))) ->
  (In n (zero_counts w) <-> ref_count n w = Some 0).
Proof.
  intros Hnd. unfold zero_counts, ref_count. rewrite in_map_iff. split.
  - intros ([k v] & <- & Hin). apply filter_In in Hin. destruct Hin as [Hin Hz].
    cbn in Hz. apply Z.eqb_eq in Hz. subst v.
    now apply (in_get_nodup String.eqb String.eqb_eq).
  - intros Hg. exists (n, 0). split; [reflexivity|]. apply filter_In.
    split; [|reflexivity]. now apply (get_some_in String.eqb String.eqb_eq).
Qed.

(** X3. On a ledger whose two dictionaries have the same keys, [_gc] does
    not raise; it removes from both dictionaries exactly the tensors whose
    reference count is 0 and leaves the others as they were; the used bytes
    go down by the sizes removed; one sample is appended per tensor removed;
    no count 0 is left, so a second [_gc] does nothing at all. *)
Theorem gc_collects_zero_counts :
  forall sim w,
    NoDup (Dict.keys (_mem (self w))) ->
    Dict.keys (_mem (self w)) = Dict.keys (_ref_counts (self w)) ->
    let w' := snd (_gc sim w) in
    fst (_gc sim w) = Val tt /\
    (forall n, ref_count n w = Some 0 ->
       Dict.get String.eqb n (_mem (self w')) = None /\ ref_count n w' = None) /\
    (forall n, ref_count n w <> Some 0 ->
       Dict.get String.eqb n (_mem (self w')) = Dict.get String.eqb n (_mem (self w)) /\
       ref_count n w' = ref_count n w) /\
    _used_mem (self w') - sum_sizes (_mem (self w'))
    = _used_mem (self w) - sum_sizes (_mem (self w)) /\
    Dict.keys (_mem (self w')) = Dict.keys (_ref_counts (self w')) /\
    List.length (_mem_traces (self w'))
    = (List.length (_mem_traces (self w)) + List.length (zero_counts w))%nat /\
    _gc sim w' = (Val tt, w').
Proof.
  intros sim w Hm Hk w'.
  assert (Hr : NoDup (Dict.keys (_ref_counts (self w)))) by now rewrite <- Hk.
  destruct (release_all sim (zero_counts w)) with (w := w)
    as (w1 & E & Hgone & Hkept & Hgap & Hm1 & Hr1 & Hk1 & Hlen); auto.
  { unfold zero_counts. apply (NoDup_keys_filter (fun kv => snd kv =? 0)), Hr. }
  { intros x Hx. rewrite Hk. unfold zero_counts in Hx.
    apply in_map_iff in Hx. destruct Hx as (kv & <- & Hin).
    apply filter_In in Hin. apply in_map. tauto. }
  subst w'. rewrite gc_unfold, E. cbn [fst snd].
  assert (Hnone : forall n, ref_count n w1 <> Some 0).
  { intros n Hn. destruct (in_dec string_dec n (zero_counts w)) as [Hin|Hin].
    - destruct (Hgone n Hin) as [_ Hg]. congruence.
    - destruct (Hkept n Hin) as [_ Hg]. rewrite Hg in Hn.
      apply Hin. now apply in_zero_counts. }
  split; [reflexivity|]. split; [|split; [|split; [|split; [|split]]]]; auto.
  - intros n Hn. apply Hgone. now apply in_zero_counts.
  - intros n Hn. apply Hkept. intros Hin. apply Hn. now apply in_zero_counts.
  - rewrite gc_unfold.
    destruct (zero_counts w1) as [|n ns] eqn:Hz; [reflexivity|].
    exfalso. apply (Hnone n). apply in_zero_counts; [exact Hr1|].
    rewrite Hz. now left.
Qed.

Lemma gc_collects_zero_counts_witness :
  fst (_gc ex_sim {| self := {| _mem := [("A:0", 100); ("X:0", 7)];
                                _ref_counts := [("A:0", 0); ("X:0", 1)];
                                _used_mem := 107; _mem_traces := [100; 107] |};
                     out := [] |}) = Val tt /\
  _ref_counts (self (snd (_gc ex_sim
                 {| self := {| _mem := [("A:0", 100); ("X:0", 7)];
                               _ref_counts := [("A:0", 0); ("X:0", 1)];
                               _used_mem := 107; _mem_traces := [100; 107] |};
                    out := [] |}))) = [("X:0", 1)].
Proof.
  split; [|reflexivity].
  apply (gc_collects_zero_counts ex_sim
           {| self := {| _mem := [("A:0", 100); ("X:0", 7)];
                         _ref_counts := [("A:0", 0); ("X:0", 1)];
                         _used_mem := 107; _mem_traces := [100; 107] |};
              out := [] |}).
  - cbn. repeat constructor; cbn; intuition discriminate.
  - reflexivity.
Defined.

(** ** The two dictionaries go together *)

(** [_mem] and [_ref_counts] have the same keys in the same order, none
    twice. *)
Definition consistent (l : Ledger) : Prop :=
  Dict.keys (_mem l) = Dict.keys (_ref_counts l) /\ NoDup (Dict.keys (_mem l)).

Definition all_consistent (w : World) : Prop :=
  consistent (self w) /\ Forall consistent (samples (out w)).

Lemma consistent_allocated n sz lt l : consistent l -> consistent (allocated n sz lt l).
Proof.
  intros [Hk Hnd]. split; cbn.
  - now apply set_same_keys.
  - now apply (NoDup_keys_set String.eqb String.eqb_eq).
Qed.

Lemma consistent_release_ledger n sz l : consistent l -> consistent (release_ledger n sz l).
Proof.
  intros [Hk Hnd]. split; cbn.
  - now apply del_same_keys.
  - now apply NoDup_keys_del.
Qed.

Lemma all_consistent_log m : preserves all_consistent (emit (Log m)).
Proof.
  intros w [H1 H2]. split; [exact H1|]. cbn. rewrite samples_app. cbn.
  now rewrite app_nil_r.
Qed.

Lemma all_consistent_sample w l' es :
  all_consistent w -> consistent l' -> samples es = [l'] ->
  all_consistent {| self := l'; out := out w ++ es |}.
Proof.
  intros [H1 H2] Hl Hes. split; [exact Hl|]. cbn. rewrite samples_app, Hes.
  apply Forall_app. split; [exact H2|]. now constructor.
Qed.

Lemma all_consistent_allocate sim n sz lt :
  preserves all_consistent (_allocate sim n sz lt).
Proof.
  intros w H.
  destruct (Z.lt_ge_cases sz (_get_free_mem sim (self w))) as [Hfit|Hoom].
  - rewrite allocate_fits by exact Hfit. cbn [snd].
    apply all_consistent_sample; [exact H| |reflexivity].
    apply consistent_allocated, H.
  - apply Z.le_ge in Hoom. destruct (_plot sim) eqn:Hplot.
    + rewrite allocate_oom_plot by assumption. cbn [snd].
      apply all_consistent_sample; [exact H| |reflexivity].
      apply consistent_allocated, H.
    + rewrite allocate_oom_strict by assumption. cbn [snd].
      now apply (all_consistent_log _ w).
Qed.

Lemma consistent_resident n l sz :
  consistent l -> Dict.get String.eqb n (_mem l) = Some sz ->
  Dict.mem String.eqb n (_ref_counts l) = true.
Proof.
  intros [Hk _] Hg. rewrite <- (mem_same_keys String.eqb n _ _ Hk).
  unfold Dict.mem. now rewrite Hg.
Qed.

Lemma all_consistent_release sim n : preserves all_consistent (_release sim n).
Proof.
  intros w H.
  destruct (Dict.get String.eqb n (_mem (self w))) as [sz|] eqn:Hg.
  - rewrite (release_present sim n w sz Hg); [|apply (consistent_resident n _ sz), Hg; apply H].
    cbn [snd]. apply all_consistent_sample; [exact H| |reflexivity].
    apply consistent_release_ledger, H.
  - now rewrite release_absent.
Qed.

Lemma all_consistent_add_ref_count k d : preserves all_consistent (add_ref_count k d).
Proof.
  intros w H.
  destruct (Dict.get String.eqb k (_ref_counts (self w))) as [v|] eqn:Hg.
  - rewrite (add_ref_count_some _ _ _ _ Hg). cbn [snd].
    destruct H as [[Hk Hnd] Hs]. split; [|exact Hs]. split; [|exact Hnd].
    change (Dict.keys (_mem (self w))
            = Dict.keys (Dict.set String.eqb k (v + d) (_ref_counts (self w)))).
    rewrite keys_set_present; [exact Hk|]. unfold Dict.mem. now rewrite Hg.
  - now rewrite add_ref_count_none.
Qed.

#[global] Hint Resolve all_consistent_log all_consistent_allocate
  all_consistent_release all_consistent_add_ref_count : pres.

(** X4. Whatever way a call of [play] ends, the ledger it leaves and the
    ledger at every sample have a reference count for exactly the resident
    tensors: [_mem] and [_ref_counts] have the same keys in the same
    order. *)
Theorem play_keeps_dictionaries_together :
  forall sim th ah gb l,
    let '(r, l', o) := play sim th ah gb l in
    Dict.keys (_mem l') = Dict.keys (_ref_counts l') /\
    Forall (fun s => Dict.keys (_mem s) = Dict.keys (_ref_counts s)) (samples o).
Proof.
  intros sim th ah gb l. unfold play.
  assert (H : all_consistent (snd (play_body sim th ah gb {| self := l; out := [] |}))).
  { unfold play_body.
    set (w0 := {| self := l; out := [] |}).
    change ((_reset ;; ?rest) w0) with (rest (snd (_reset w0))).
    set (w1 := snd (_reset w0)).
    assert (H1 : all_consistent w1) by (repeat constructor).
    clearbody w1. revert w1 H1.
    match goal with |- forall w1, _ -> all_consistent (snd (?c w1)) =>
      change (preserves all_consistent c) end.
    pres. }
  destruct (play_body sim th ah gb {| self := l; out := [] |}) as [r w].
  cbn [snd] in H. destruct H as [[Hk _] Hs]. split; [exact Hk|].
  eapply Forall_impl; [|exact Hs]. intros s [Hs' _]. exact Hs'.
Qed.

(** ** Recognising a swap-in *)

Section Substrings.
Local Open Scope string_scope.

Lemma append_nil_right s : s ++ "" = s.
Proof. induction s as [|a s IH]; cbn; [reflexivity|]. now rewrite IH. Qed.

Lemma append_assoc_string a b c : (a ++ b) ++ c = a ++ b ++ c.
Proof. induction a as [|x a IH]; cbn; [reflexivity|]. now rewrite IH. Qed.

Lemma prefix_iff a : forall s, prefix a s = true <-> exists post, s = a ++ post.
Proof.
  induction a as [|x a IH]; intros s.
  - destruct s; cbn; split; eauto.
  - destruct s as [|y s]; cbn.
    + split; [discriminate|]. intros [post H]. discriminate.
    + destruct (Ascii.ascii_dec x y) as [->|Hne].
      * rewrite IH. split; intros [post H]; exists post; congruence.
      * split; [discriminate|]. intros [post H]. congruence.
Qed.

Lemma contains_cons sub b s :
  contains sub (String b s) = prefix sub (String b s) || contains sub s.
Proof.
  unfold contains. cbn [index]. destruct (prefix sub (String b s)); [reflexivity|].
  cbn. now destruct (index 0 sub s).
Qed.

(** [contains] is Python's [in] on strings: [sub] occurs in [s]. *)
Lemma contains_iff sub : forall s,
  contains sub s = true <-> exists pre post, s = pre ++ sub ++ post.
Proof.
  induction s as [|b s IH].
  - unfold contains. cbn. destruct sub as [|x sub]; split.
    + intros _. exists "", "". reflexivity.
    + reflexivity.
    + discriminate.
    + intros (pre & post & H). destruct pre; discriminate.
  - rewrite contains_cons, orb_true_iff, prefix_iff, IH. split.
    + intros [[post H]|(pre & post & H)].
      * exists "", post. exact H.
      * exists (String b pre), post. cbn. now rewrite H.
    + intros (pre & post & H). destruct pre as [|y pre].
      * left. exists post. exact H.
      * right. cbn in H. injection H as _ H. eauto.
Qed.

Lemma contains_concat d dests :
  In d dests -> contains d (String.concat "_" dests) = true.
Proof.
  intros Hin. apply contains_iff.
  induction dests as [|x dests IH]; [destruct Hin|].
  destruct dests as [|y dests].
  - destruct Hin as [->|[]]. exists "", "". cbn. now rewrite append_nil_right.
  - change (String.concat "_" (x :: y :: dests))
      with (x ++ "_" ++ String.concat "_" (y :: dests)).
    destruct Hin as [->|Hin].
    + exists "", ("_" ++ String.concat "_" (y :: dests)). reflexivity.
    + destruct (IH Hin) as (pre & post & H). exists (x ++ "_" ++ pre), post.
      rewrite H. now rewrite !append_assoc_string.
Qed.

End Substrings.

Lemma find_first {A} (p : A -> bool) l x :
  find p l = Some x ->
  exists pre post, l = pre ++ x :: post /\ p x = true /\ Forall (fun y => p y = false) pre.
Proof.
  induction l as [|y l IH]; cbn; [discriminate|].
  destruct (p y) eqn:E.
  - intros [= ->]. exists [], l. auto.
  - intros H. destruct (IH H) as (pre & post & -> & Hp & Hpre).
    exists (y :: pre), post. auto.
Qed.

(** A resident name in which both names occur. *)
Definition names_both (ts_name op_name s : string) : Prop :=
  (exists a b, s = (a ++ ts_name ++ b)%string) /\
  (exists a b, s = (a ++ op_name ++ b)%string).

Lemma names_both_iff ts_name op_name s :
  contains ts_name s && contains op_name s = true <-> names_both ts_name op_name s.
Proof. unfold names_both. now rewrite andb_true_iff, !contains_iff. Qed.

(** X5. [_is_swapin_tensor] changes nothing.  It answers [(True, s)] for the
    first resident name [s], in the order of [_mem], in which both the
    tensor's name and the op's name occur as substrings, and
    [(False, ts_name)] when there is no such resident name. *)
Theorem is_swapin_tensor_first_match :
  forall ts_name op_name w,
    snd (_is_swapin_tensor ts_name op_name w) = w /\
    ((exists pre s post,
         Dict.keys (_mem (self w)) = pre ++ s :: post /\
         names_both ts_name op_name s /\
         Forall (fun x => ~ names_both ts_name op_name x) pre /\
         fst (_is_swapin_tensor ts_name op_name w) = Val (true, s)) \/
     (Forall (fun x => ~ names_both ts_name op_name x) (Dict.keys (_mem (self w))) /\
      fst (_is_swapin_tensor ts_name op_name w) = Val (false, ts_name))).
Proof.
  intros ts_name op_name w. unfold _is_swapin_tensor. rewrite bind_eq. cbn [gets].
  destruct (find _ (Dict.keys (_mem (self w)))) as [s|] eqn:E.
  - split; [reflexivity|]. left.
    destruct (find_first _ _ _ E) as (pre & post & Hk & Hs & Hpre).
    exists pre, s, post. split; [exact Hk|]. split; [now apply names_both_iff|].
    split; [|reflexivity].
    eapply Forall_impl; [|exact Hpre]. intros x Hx Hb.
    apply names_both_iff in Hb. congruence.
  - split; [reflexivity|]. right. split; [|reflexivity].
    apply Forall_forall. intros x Hx Hb. apply names_both_iff in Hb.
    pose proof (find_none _ _ E x Hx) as Hn. cbn in Hn. congruence.
Qed.

(** The name line 199 gives to the swap-in of a tensor for a group. *)
Definition swapin_name (ts_name : string) (dests : list string) : string :=
  (ts_name ++ "_" ++ String.concat "_" dests)%string.

Lemma add_swapin_uses_swapin_name sim ah n sz dests loc :
  exists ds,
    Dict.get Z.eqb (_get_level (_lms sim) (_get_earliest_op (_lms sim) dests) - ah)
      (swapins (add_swapin sim ah n sz dests loc)) = Some ds /\
    In (swapin_name n dests, sz, len dests) ds.
Proof.
  unfold add_swapin, swapin_name. cbn.
  set (lvl := _get_level (_lms sim) (_get_earliest_op (_lms sim) dests) - ah).
  destruct (Dict.get Z.eqb lvl (swapins loc)) as [old|];
    rewrite (get_set_same Z.eqb Z.eqb_eq); eexists; (split; [reflexivity|]).
  - unfold PySet.add. destruct (PySet.mem Descr_eqb _ old) eqn:Hm.
    + unfold PySet.mem in Hm. apply existsb_exists in Hm.
      destruct Hm as ([[n' sz'] lt'] & Hin & Heq). unfold Descr_eqb in Heq.
      apply andb_true_iff in Heq. destruct Heq as [Heq H3].
      apply andb_true_iff in Heq. destruct Heq as [H1 H2].
      apply String.eqb_eq in H1. apply Z.eqb_eq in H2, H3. now subst.
    + apply in_or_app. right. now left.
  - now left.
Qed.

(** ** What [play] can raise *)

(** *** The statements that do not raise on a consistent ledger *)

Lemma gc_returns sim w :
  consistent (self w) -> exists w', _gc sim w = (Val tt, w').
Proof.
  intros [Hk Hnd].
  assert (Hr : NoDup (Dict.keys (_ref_counts (self w)))) by now rewrite <- Hk.
  destruct (release_all sim (zero_counts w)) with (w := w) as (w1 & E & _); auto.
  - unfold zero_counts. apply (NoDup_keys_filter (fun kv => snd kv =? 0)), Hr.
  - intros x Hx. rewrite Hk. unfold zero_counts in Hx.
    apply in_map_iff in Hx. destruct Hx as (kv & <- & Hin).
    apply filter_In in Hin. apply in_map. tauto.
  - exists w1. now rewrite gc_unfold.
Qed.

Lemma still_counted_returns xs w :
  consistent (self w) ->
  exists ys,
    filterM still_counted xs w = (Val ys, w) /\
    forall y, In y ys -> ref_count y w <> None.
Proof.
  intros Hc. induction xs as [|x xs IH].
  - exists []. split; [reflexivity|]. intros y [].
  - destruct IH as (ys & E & Hys). rewrite filterM_cons, still_counted_eq.
    destruct (Dict.mem String.eqb x (_mem (self w))) eqn:Hm.
    + assert (Hx : ref_count x w <> None).
      { unfold ref_count. intros Hn. apply get_none_not_mem in Hn.
        rewrite <- (mem_same_keys String.eqb x _ _ (proj1 Hc)) in Hn. congruence. }
      destruct (ref_count x w) as [v|] eqn:Hv; [|congruence]. rewrite E.
      destruct (v >? 0).
      * exists (x :: ys). split; [reflexivity|]. intros y [<-|Hy]; [congruence|auto].
      * exists ys. auto.
    + rewrite E. exists ys. auto.
Qed.

Lemma update_swapouts_returns loc w :
  consistent (self w) -> exists w', update_swapouts loc w = (Val tt, w').
Proof.
  intros Hc. rewrite update_swapouts_unfold, bind_eq.
  destruct (still_counted_returns (swapouts loc) w Hc) as (ys & E & Hys). rewrite E.
  destruct (decrement_all (PySet.of_list String.eqb ys)
              (NoDup_of_list String.eqb String.eqb_eq ys) w) as (w' & E' & _).
  - intros x Hx. apply Hys. now apply (in_of_list String.eqb String.eqb_eq).
  - eauto.
Qed.

(** The entry an input of [op_name] resolves to at line 164. *)
Definition resolve (op_name : string) (ts : Tensor) (w : World) : string :=
  match find (fun s => contains (ts_name ts) s && contains op_name s)
             (Dict.keys (_mem (self w))) with
  | Some s => s
  | None => ts_name ts
  end.

Definition resolvable (op_name : string) (ts : Tensor) (w : World) : Prop :=
  In (resolve op_name ts w) (Dict.keys (_mem (self w))).

Lemma is_swapin_tensor_resolve op_name ts w :
  exists found, _is_swapin_tensor (ts_name ts) op_name w = (Val (found, resolve op_name ts w), w).
Proof.
  unfold _is_swapin_tensor, resolve. rewrite bind_eq. cbn [gets].
  destruct (find _ _); eexists; reflexivity.
Qed.

Lemma find_app_some {A} (p : A -> bool) l l' x :
  find p l = Some x -> find p (l ++ l') = Some x.
Proof.
  induction l as [|y l IH]; cbn; [discriminate|]. destruct (p y); auto.
Qed.

Lemma find_app_none {A} (p : A -> bool) l l' :
  find p l = None -> find p (l ++ l') = find p l'.
Proof.
  induction l as [|y l IH]; cbn; [reflexivity|]. destruct (p y); [discriminate|auto].
Qed.

Lemma resolvable_grows op_name ts w w' more :
  Dict.keys (_mem (self w')) = Dict.keys (_mem (self w)) ++ more ->
  resolvable op_name ts w -> resolvable op_name ts w'.
Proof.
  unfold resolvable, resolve. intros ->.
  destruct (find _ (Dict.keys (_mem (self w)))) as [s|] eqn:E.
  - rewrite (find_app_some _ _ more _ E). intros H. apply in_or_app. now left.
  - rewrite (find_app_none _ _ more E). intros H.
    destruct (find _ more) as [s|] eqn:E'.
    + apply in_or_app. right. now apply (find_some _ _ E').
    + apply in_or_app. now left.
Qed.

Lemma keys_allocated n sz lt l :
  exists more, Dict.keys (_mem (allocated n sz lt l)) = Dict.keys (_mem l) ++ more /\
               In n (Dict.keys (_mem (allocated n sz lt l))).
Proof.
  unfold allocated. cbn [_mem]. destruct (Dict.mem String.eqb n (_mem l)) eqn:Hm.
  - exists []. rewrite (keys_set_present String.eqb) by exact Hm. rewrite app_nil_r.
    split; [reflexivity|]. now apply (mem_true_in_keys String.eqb String.eqb_eq).
  - exists [n]. rewrite (keys_set_absent String.eqb) by exact Hm.
    split; [reflexivity|]. apply in_or_app. right. now left.
Qed.

(** [ok = self._allocate(...)] with the check of [ok], when the run goes on. *)
Lemma allocate_check sim n sz lt loc w :
  match fst ((ok <- _allocate sim n sz lt ;; check_ok sim ok loc) w) with
  | Val loc' =>
      self (snd ((ok <- _allocate sim n sz lt ;; check_ok sim ok loc) w))
      = allocated n sz lt (self w) /\
      (loc' = loc \/ loc' = set_passed false loc)
  | Return b =>
      b = false /\ _plot sim = false /\ sz >= _get_free_mem sim (self w) /\
      self (snd ((ok <- _allocate sim n sz lt ;; check_ok sim ok loc) w)) = self w
  | Raise _ => False
  end.
Proof.
  rewrite bind_eq.
  destruct (Z.lt_ge_cases sz (_get_free_mem sim (self w))) as [Hfit|Hoom].
  - rewrite allocate_fits by exact Hfit. cbn. auto.
  - apply Z.le_ge in Hoom. destruct (_plot sim) eqn:Hplot.
    + rewrite allocate_oom_plot by assumption. unfold check_ok. rewrite Hplot.
      cbn. auto.
    + rewrite allocate_oom_strict by assumption. unfold check_ok. rewrite Hplot.
      cbn. auto.
Qed.

Lemma consume_inputs_returns op_name ins :
  forall w,
    consistent (self w) ->
    (forall ts, In ts ins -> resolvable op_name ts w) ->
    exists w', consume_inputs op_name ins w = (Val tt, w') /\
               _mem (self w') = _mem (self w).
Proof.
  unfold consume_inputs. induction ins as [|ts ins IH]; intros w Hc Hres.
  - exists w. auto.
  - rewrite forM_cons, bind_eq.
    destruct (is_swapin_tensor_resolve op_name ts w) as [found ->]. cbn [snd].
    assert (Hin : In (resolve op_name ts w) (Dict.keys (_ref_counts (self w)))).
    { rewrite <- (proj1 Hc). apply Hres. now left. }
    apply (mem_true_in_keys String.eqb String.eqb_eq) in Hin. unfold Dict.mem in Hin.
    destruct (Dict.get String.eqb (resolve op_name ts w) (_ref_counts (self w)))
      as [v|] eqn:Hg; [|discriminate].
    rewrite (add_ref_count_some _ _ _ _ Hg).
    set (w1 := {| self := _; out := _ |}).
    destruct (IH w1) as (w' & E & Hm).
    + destruct Hc as [Hk Hnd]. split; [|exact Hnd]. subst w1.
      change (Dict.keys (_mem (self w))
              = Dict.keys (Dict.set String.eqb (resolve op_name ts w) (v + -1)
                             (_ref_counts (self w)))).
      rewrite keys_set_present; [exact Hk|]. unfold Dict.mem. now rewrite Hg.
    + intros ts' Hts'. apply (resolvable_grows op_name ts' w w1 []).
      * now rewrite app_nil_r.
      * apply Hres. now right.
    + exists w'. split; [exact E|]. exact Hm.
Qed.

(** *** The statements that never raise *)

Definition never_raises {A} (m : M A) : Prop :=
  forall w e, fst (m w) <> Raise e.

Lemma never_raises_ret {A} (a : A) : never_raises (ret a).
Proof. intros w e. discriminate. Qed.

Lemma never_raises_return {A} b : never_raises (@return_ A b).
Proof. intros w e. discriminate. Qed.

Lemma never_raises_gets {A} (f : Ledger -> A) : never_raises (gets f).
Proof. intros w e. discriminate. Qed.

Lemma never_raises_modify f : never_raises (modify f).
Proof. intros w e. discriminate. Qed.

Lemma never_raises_emit e : never_raises (emit e).
Proof. intros w e'. discriminate. Qed.

Lemma never_raises_bind {A B} (m : M A) (f : A -> M B) :
  never_raises m -> (forall a, never_raises (f a)) -> never_raises (bind m f).
Proof.
  intros Hm Hf w e. rewrite bind_eq. specialize (Hm w).
  destruct (m w) as [[a|b|e'] w']; cbn in *.
  - apply Hf.
  - discriminate.
  - now destruct (Hm e').
Qed.

Lemma never_raises_foldM {A B} (body : B -> A -> M B) xs :
  (forall acc x, never_raises (body acc x)) ->
  forall acc, never_raises (foldM body xs acc).
Proof.
  intros Hbody. induction xs as [|x xs IH]; intros acc; cbn.
  - apply never_raises_ret.
  - apply never_raises_bind; auto.
Qed.

Ltac never_step :=
  first
    [ assumption
    | apply never_raises_ret | apply never_raises_return
    | apply never_raises_gets | apply never_raises_modify
    | apply never_raises_emit
    | apply never_raises_bind; [|intros ?]
    | apply never_raises_foldM; intros ? ?
    | match goal with
      | |- never_raises (match ?x with _ => _ end) => destruct x
      end
    | progress cbv zeta
    | progress unfold _allocate, check_ok, append_trace, _log_info ].

Lemma never_raises_allocate sim n sz lt : never_raises (_allocate sim n sz lt).
Proof. repeat never_step. Qed.

Lemma never_raises_swapin_tensors sim k loc : never_raises (swapin_tensors sim k loc).
Proof. unfold swapin_tensors. repeat never_step. Qed.

Lemma never_raises_allocate_outputs sim outs loc :
  never_raises (allocate_outputs sim outs loc).
Proof. unfold allocate_outputs. repeat never_step. Qed.

(** *** Inputs *)

Lemma resolvable_allocate sim op_name ts n sz lt :
  preserves (resolvable op_name ts) (_allocate sim n sz lt).
Proof.
  intros w H.
  assert (Ha : forall o, resolvable op_name ts {| self := allocated n sz lt (self w); out := o |}).
  { intros o. destruct (keys_allocated n sz lt (self w)) as (more & Hk & _).
    now apply (resolvable_grows op_name ts w _ more). }
  destruct (Z.lt_ge_cases sz (_get_free_mem sim (self w))) as [Hfit|Hoom].
  - rewrite allocate_fits by exact Hfit. apply Ha.
  - apply Z.le_ge in Hoom. destruct (_plot sim) eqn:Hplot.
    + rewrite allocate_oom_plot by assumption. apply Ha.
    + rewrite allocate_oom_strict by assumption. exact H.
Qed.

Lemma resolvable_log op_name ts m : preserves (resolvable op_name ts) (emit (Log m)).
Proof. intros w H. exact H. Qed.

#[global] Hint Resolve resolvable_allocate resolvable_log : pres.

Lemma resolvable_allocate_inputs sim op_name ts op' ins loc :
  preserves (resolvable op_name ts) (allocate_inputs sim op' ins loc).
Proof. pres. Qed.

Lemma resolvable_allocate_outputs sim op_name ts outs loc :
  preserves (resolvable op_name ts) (allocate_outputs sim outs loc).
Proof. pres. Qed.

(** What [allocate_inputs] does for one input. *)
Lemma allocate_input_step sim op_name ts loc w :
  match fst (allocate_inputs sim op_name [ts] loc w) with
  | Val _ => resolvable op_name ts (snd (allocate_inputs sim op_name [ts] loc w))
  | Return _ => True
  | Raise e => e = UnboundLocalError "ts_size"
  end.
Proof.
  unfold allocate_inputs. cbn [foldM]. rewrite bind_eq, (bind_eq (_is_swapin_tensor _ _)).
  destruct (is_swapin_tensor_resolve op_name ts w) as [found E]. rewrite E. cbn [fst].
  assert (Hfound : found = true -> resolvable op_name ts w).
  { intros ->. unfold _is_swapin_tensor in E. rewrite bind_eq in E. cbn [gets] in E.
    unfold resolvable, resolve in *.
    destruct (find _ (Dict.keys (_mem (self w)))) as [s|] eqn:Ef.
    - now apply (find_some _ _ Ef).
    - discriminate. }
  assert (Hres : Dict.mem String.eqb (ts_name ts) (_mem (self w)) = true ->
                 resolvable op_name ts w).
  { intros Hm. unfold resolvable, resolve.
    destruct (find _ (Dict.keys (_mem (self w)))) as [s|] eqn:Ef.
    - now apply (find_some _ _ Ef).
    - now apply (mem_true_in_keys String.eqb String.eqb_eq). }
  destruct found; [cbn; auto|].
  rewrite (bind_eq (gets _)). cbn [gets fst].
  destruct (Dict.mem String.eqb (ts_name ts) (_mem (self w))) eqn:Hm; [cbn; auto|].
  destruct (ts_size loc) as [v|]; [|reflexivity].
  pose proof (allocate_check sim (ts_name ts) v (len (ts_consumers ts)) loc w) as Hac.
  destruct ((ok <- _allocate sim (ts_name ts) v (len (ts_consumers ts)) ;;
             check_ok sim ok loc) w) as [[loc1|b|e] w1]; cbn in Hac |- *;
    [|exact I|destruct Hac].
  destruct Hac as [Hself _].
  unfold resolvable, resolve. rewrite Hself.
  destruct (keys_allocated (ts_name ts) v (len (ts_consumers ts)) (self w))
    as (more & _ & Hin).
  destruct (find _ (Dict.keys (_mem (allocated _ _ _ (self w))))) as [s|] eqn:Ef.
  - now apply (find_some _ _ Ef).
  - exact Hin.
Qed.

Lemma allocate_inputs_cons sim op_name ts ins loc w :
  allocate_inputs sim op_name (ts :: ins) loc w
  = match allocate_inputs sim op_name [ts] loc w with
    | (Val loc1, w1) => allocate_inputs sim op_name ins loc1 w1
    | (Return b, w1) => (Return b, w1)
    | (Raise e, w1) => (Raise e, w1)
    end.
Proof.
  unfold allocate_inputs. rewrite !foldM_cons.
  match goal with |- match ?x with _ => _ end = _ => destruct x as [[a|b|e] w1] end;
    reflexivity.
Qed.

(** When [allocate_inputs] goes through, every input is resident or has a
    resident swap-in; it raises nothing but the unbound [ts_size]. *)
Lemma allocate_inputs_post sim op_name ins :
  forall loc w,
    match fst (allocate_inputs sim op_name ins loc w) with
    | Val _ =>
        forall ts, In ts ins ->
          resolvable op_name ts (snd (allocate_inputs sim op_name ins loc w))
    | Return _ => True
    | Raise e => e = UnboundLocalError "ts_size"
    end.
Proof.
  induction ins as [|ts ins IH]; intros loc w.
  - cbn. intros ts [].
  - rewrite allocate_inputs_cons.
    pose proof (allocate_input_step sim op_name ts loc w) as Hstep.
    destruct (allocate_inputs sim op_name [ts] loc w) as [[loc1|b|e] w1];
      cbn in Hstep |- *; auto.
    specialize (IH loc1 w1).
    pose proof (resolvable_allocate_inputs sim op_name ts op_name ins loc1 w1 Hstep) as Hkeep.
    destruct (allocate_inputs sim op_name ins loc1 w1) as [[loc2|b|e] w2];
      cbn in IH, Hkeep |- *; auto.
    intros ts' [<-|Hin]; auto.
Qed.

(** *** The swap-out loop *)

Lemma swap_out_tensor_raises sim th ah gb k op_name loc ts w e :
  fst (swap_out_tensor sim th ah gb k op_name loc ts w) = Raise e ->
  e = KeyError (ts_name ts).
Proof.
  unfold swap_out_tensor.
  destruct (ts_ndims ts) as [nd|]; [|discriminate].
  destruct (nd <=? 1); [discriminate|].
  destruct (dest_ops_of sim th op_name ts) as [|d ds]; [discriminate|].
  rewrite bind_eq.
  destruct (Dict.get String.eqb (ts_name ts) (_ref_counts (self w))) as [v|] eqn:Hg.
  - rewrite (add_ref_count_some _ _ _ _ Hg), bind_eq.
    rewrite (add_ref_count_some _ _ _ (v + - len (d :: ds))); [discriminate|].
    cbn. apply (get_set_same String.eqb String.eqb_eq).
  - rewrite (add_ref_count_none _ _ _ Hg). now intros [= <-].
Qed.

(** A loop raises what one of its rounds raises, from a world the rounds
    before have kept in [C]. *)
Lemma foldM_raises {A B} (C : World -> Prop) (Q : A -> Exn -> Prop)
    (body : B -> A -> M B) xs :
  (forall acc x, preserves C (body acc x)) ->
  (forall acc x w e, C w -> In x xs -> fst (body acc x w) = Raise e -> Q x e) ->
  forall acc w e,
    C w -> fst (foldM body xs acc w) = Raise e -> exists x, In x xs /\ Q x e.
Proof.
  intros Hc. induction xs as [|x xs IH]; intros Hq acc w e Hw; [discriminate|].
  rewrite foldM_cons.
  pose proof (Hc acc x w Hw) as Hw1. pose proof (Hq acc x w) as Hqx.
  destruct (body acc x w) as [[acc1|b|e1] w1]; cbn in *.
  - intros H. destruct (IH (fun a y w' e' Hw' Hy => Hq a y w' e' Hw' (or_intror Hy))
                          acc1 w1 e Hw1 H) as (y & Hy & Hqy).
    exists y. auto.
  - discriminate.
  - intros [= ->]. exists x. split; [now left|].
    apply (Hqx e); [exact Hw|now left|reflexivity].
Qed.

Lemma in_of_list_subset {A} (eqb : A -> A -> bool) xs y :
  In y (PySet.of_list eqb xs) -> In y xs.
Proof.
  unfold PySet.of_list.
  assert (H : forall s, In y (fold_left (fun s x => PySet.add eqb x s) xs s) ->
                        In y s \/ In y xs).
  { induction xs as [|x xs IH]; intros s; cbn; [auto|].
    intros Hy. destruct (IH _ Hy) as [H|H]; [|auto].
    unfold PySet.add in H. destruct (PySet.mem eqb x s); [auto|].
    apply in_app_or in H. destruct H as [H|[<-|[]]]; auto. }
  intros Hy. destruct (H [] Hy) as [[]|Hin]. exact Hin.
Qed.

(** *** One op, one level, the run *)

Definition op_may_raise (op : Op) (e : Exn) : Prop :=
  e = UnboundLocalError "ts_size" \/
  exists ts, In ts (op_outputs op) /\ e = KeyError (ts_name ts).

Lemma all_consistent_execute_op sim th ah gb k loc op :
  preserves all_consistent (execute_op sim th ah gb k loc op).
Proof. pres. Qed.

Lemma execute_op_raises sim th ah gb k loc op w e :
  all_consistent w ->
  fst (execute_op sim th ah gb k loc op w) = Raise e -> op_may_raise op e.
Proof.
  intros Hw. unfold execute_op.
  set (ins := PySet.of_list Tensor_eqb (op_inputs op)).
  set (outs := PySet.of_list Tensor_eqb (op_outputs op)).
  rewrite bind_eq. cbn [_log_info emit].
  apply (all_consistent_log (ExecuteOp k (op_name op))) in Hw. cbn [emit snd] in Hw.
  set (w0 := {| self := self w; out := _ |}) in *. clearbody w0.
  rewrite bind_eq.
  pose proof (allocate_inputs_post sim (op_name op) ins loc w0) as Hin.
  assert (Hc1 : all_consistent (snd (allocate_inputs sim (op_name op) ins loc w0)))
    by (revert Hw; generalize w0; change (preserves all_consistent
          (allocate_inputs sim (op_name op) ins loc)); pres).
  destruct (allocate_inputs sim (op_name op) ins loc w0) as [[loc1|b|e1] w1];
    cbn in Hin, Hc1 |- *; [|discriminate|intros [= <-]; now left].
  rewrite bind_eq.
  pose proof (never_raises_allocate_outputs sim outs loc1 w1) as Hnr.
  assert (Hc2 : all_consistent (snd (allocate_outputs sim outs loc1 w1)))
    by (revert Hc1; generalize w1; change (preserves all_consistent
          (allocate_outputs sim outs loc1)); pres).
  assert (Hr2 : forall ts, In ts ins ->
            resolvable (op_name op) ts (snd (allocate_outputs sim outs loc1 w1))).
  { intros ts Hts. now apply resolvable_allocate_outputs, Hin. }
  destruct (allocate_outputs sim outs loc1 w1) as [[loc2|b|e2] w2];
    cbn in Hnr, Hc2, Hr2 |- *; [|discriminate|now destruct (Hnr e2)].
  rewrite bind_eq.
  destruct (consume_inputs_returns (op_name op) ins w2 (proj1 Hc2) Hr2) as (w3 & E3 & _).
  assert (Hc3 : all_consistent w3).
  { replace w3 with (snd (consume_inputs (op_name op) ins w2)) by now rewrite E3.
    revert Hc2. generalize w2.
    change (preserves all_consistent (consume_inputs (op_name op) ins)). pres. }
  rewrite E3, bind_eq.
  destruct (update_swapouts_returns loc2 w3 (proj1 Hc3)) as (w4 & E4).
  assert (Hc4 : all_consistent w4).
  { replace w4 with (snd (update_swapouts loc2 w3)) by now rewrite E4.
    revert Hc3. generalize w3.
    change (preserves all_consistent (update_swapouts loc2)). pres. }
  rewrite E4, bind_eq.
  destruct (gc_returns sim w4 (proj1 Hc4)) as (w5 & E5). rewrite E5.
  unfold swap_out_tensors.
  destruct (PySet.mem String.eqb (op_name op) (_excl_src_ops (_lms sim)));
    [discriminate|].
  intros H.
  destruct (foldM_raises (fun _ => True) (fun ts e => e = KeyError (ts_name ts))
              (swap_out_tensor sim th ah gb k (op_name op)) outs) with (3 := I) (4 := H)
    as (ts & Hts & ->).
  - intros acc x w' _. exact I.
  - intros acc x w' e' _ _. apply swap_out_tensor_raises.
  - right. exists ts. split; [|reflexivity].
    now apply (in_of_list_subset Tensor_eqb).
Qed.

Lemma all_consistent_simulate_level sim th ah gb loc k :
  preserves all_consistent (simulate_level sim th ah gb loc k).
Proof. pres. Qed.

Lemma simulate_level_raises sim th ah gb loc k w e :
  all_consistent w ->
  fst (simulate_level sim th ah gb loc k w) = Raise e ->
  exists op, In op (_get_ops_by_level (_lms sim) k) /\ op_may_raise op e.
Proof.
  intros Hw. unfold simulate_level. rewrite bind_eq. cbn [_log_info emit].
  apply (all_consistent_log (SimulateLevel k)) in Hw. cbn [emit snd] in Hw.
  set (w0 := {| self := self w; out := _ |}) in *. clearbody w0.
  rewrite bind_eq.
  destruct (gc_returns sim w0 (proj1 Hw)) as (w1 & E1).
  assert (Hc1 : all_consistent w1).
  { replace w1 with (snd (_gc sim w0)) by now rewrite E1.
    revert Hw. generalize w0. change (preserves all_consistent (_gc sim)). pres. }
  rewrite E1, bind_eq.
  pose proof (never_raises_swapin_tensors sim k loc w1) as Hnr.
  assert (Hc2 : all_consistent (snd (swapin_tensors sim k loc w1)))
    by (revert Hc1; generalize w1; change (preserves all_consistent
          (swapin_tensors sim k loc)); pres).
  destruct (swapin_tensors sim k loc w1) as [[loc1|b|e1] w2];
    cbn in Hnr, Hc2 |- *; [|discriminate|now destruct (Hnr e1)].
  rewrite bind_eq.
  destruct (foldM (execute_op sim th ah gb k) (_get_ops_by_level (_lms sim) k) loc1 w2)
    as [[loc2|b|e2] w3] eqn:E; cbn; [discriminate|discriminate|].
  intros [= <-].
  apply (foldM_raises all_consistent op_may_raise (execute_op sim th ah gb k)
           (_get_ops_by_level (_lms sim) k)) with (acc := loc1) (w := w2).
  - intros acc x. apply all_consistent_execute_op.
  - intros acc x w' e' Hw' _. now apply execute_op_raises.
  - exact Hc2.
  - now rewrite E.
Qed.

(** When [grad/mul] runs, its input [mul:0] is looked up as a swap-in and
    resolves to the output [grad/mul:0], the first resident name that
    contains both [mul:0] and [grad/mul]; the output's count goes from 1 to
    0, [_gc] releases it, and the swap-out loop finds no count to update. *)
Example gm_play_raises_key_error :
  fst (fst (play gm_sim 2 1 0 empty_ledger)) = Raised (KeyError "grad/mul:0") /\
  _mem (snd (fst (play gm_sim 2 1 0 empty_ledger))) = [("mul:0", 4)].
Proof. vm_compute. split; reflexivity. Qed.

(** ** The memory trace and the capacity *)

Section DictIn.
Context {K V : Type}.
Variable eqb : K -> K -> bool.

Lemma in_set_inv k (v : V) x d :
  In x (Dict.set eqb k v d) -> snd x = v \/ In x d.
Proof.
  induction d as [|[k' v'] d IH]; cbn.
  - intros [<-|[]]. now left.
  - destruct (eqb k k'); cbn.
    + intros [<-|H]; [now left|now right; right].
    + intros [<-|H]; [now right; left|]. destruct (IH H); auto.
Qed.

Lemma in_del_inv k (x : K * V) d : In x (Dict.del eqb k d) -> In x d.
Proof.
  induction d as [|[k' v'] d IH]; cbn; [auto|].
  destruct (eqb k k'); cbn; [auto|]. intros [<-|H]; auto.
Qed.

End DictIn.

Lemma in_add_inv {A} (eqb : A -> A -> bool) x y s :
  In y (PySet.add eqb x s) -> y = x \/ In y s.
Proof.
  unfold PySet.add. destruct (PySet.mem eqb x s); [auto|].
  intros H. apply in_app_or in H. destruct H as [H|[<-|[]]]; auto.
Qed.

Lemma sum_sizes_nonneg d :
  (forall x, In x d -> 0 <= snd x) -> 0 <= sum_sizes d.
Proof.
  unfold sum_sizes. induction d as [|[k v] d IH]; cbn; [lia|].
  intros H. specialize (H (k, v) (or_introl eq_refl)) as Hv. cbn in Hv.
  assert (0 <= fold_right Z.add 0 (map snd d)) by (apply IH; intros x Hx; apply H; now right).
  lia.
Qed.

Lemma sum_sizes_set_le n sz d :
  (forall x, In x d -> 0 <= snd x) ->
  sum_sizes (Dict.set String.eqb n sz d) <= sum_sizes d + sz.
Proof.
  intros H. destruct (Dict.get String.eqb n d) as [old|] eqn:Hg.
  - rewrite (sum_sizes_set_present n sz d old Hg).
    apply (get_some_in String.eqb String.eqb_eq) in Hg. apply H in Hg. cbn in Hg. lia.
  - rewrite sum_sizes_set_absent; [lia|]. unfold Dict.mem. now rewrite Hg.
Qed.

Ltac fields :=
  unfold allocated, release_ledger, set_mem;
  cbn [_mem _ref_counts _used_mem _mem_traces self].

Section Capacity.
Variable sim : Simulator.

(** The resident sizes are not negative, the used bytes are at least their
    sum, and no sample of the trace is negative. *)
Definition sound (l : Ledger) : Prop :=
  (forall x, In x (_mem l) -> 0 <= snd x) /\
  sum_sizes (_mem l) <= _used_mem l /\
  Forall (fun u => 0 <= u) (_mem_traces l).

(** Every sample so far is below the capacity, and so are the used bytes
    once something is resident. *)
Definition below (l : Ledger) : Prop :=
  Forall (fun u => u < _max_mem sim) (_mem_traces l) /\
  (_mem l = [] \/ _used_mem l < _max_mem sim).

(** Some sample so far has reached the capacity. *)
Definition above (l : Ledger) : Prop :=
  Exists (fun u => _max_mem sim <= u) (_mem_traces l).

Definition within (p : bool) (w : World) : Prop :=
  sound (self w) /\ if p then below (self w) else above (self w).

Lemma sound_allocated n sz lt l : 0 <= sz -> sound l -> sound (allocated n sz lt l).
Proof.
  intros Hsz (Hm & Hu & Ht). split; [|split]; fields.
  - intros x Hx. destruct (in_set_inv _ _ _ _ _ Hx) as [->|H]; auto.
  - pose proof (sum_sizes_set_le n sz _ Hm). lia.
  - apply Forall_app. split; [exact Ht|]. constructor; [|constructor].
    pose proof (sum_sizes_nonneg _ Hm). lia.
Qed.

Lemma below_allocated n sz lt l :
  sz < _get_free_mem sim l -> below l -> below (allocated n sz lt l).
Proof.
  unfold _get_free_mem. intros Hfit (Ht & _). split; fields.
  - apply Forall_app. split; [exact Ht|]. constructor; [lia|constructor].
  - right. lia.
Qed.

Lemma above_allocated_oom n sz lt l :
  sz >= _get_free_mem sim l -> above (allocated n sz lt l).
Proof.
  unfold _get_free_mem, above. intros Hoom. fields.
  apply Exists_app. right. constructor. lia.
Qed.

Lemma above_grows l l' more :
  _mem_traces l' = _mem_traces l ++ more -> above l -> above l'.
Proof. unfold above. intros -> H. apply Exists_app. now left. Qed.

Lemma sound_release_ledger n sz l :
  Dict.get String.eqb n (_mem l) = Some sz -> sound l -> sound (release_ledger n sz l).
Proof.
  intros Hg (Hm & Hu & Ht).
  assert (Hd : forall x, In x (Dict.del String.eqb n (_mem l)) -> 0 <= snd x)
    by (intros x Hx; apply Hm; now apply in_del_inv in Hx).
  pose proof (sum_sizes_nonneg _ Hd) as Hs.
  rewrite (sum_sizes_del n sz _ Hg) in Hs.
  split; [|split]; fields.
  - exact Hd.
  - rewrite (sum_sizes_del n sz _ Hg). lia.
  - apply Forall_app. split; [exact Ht|]. constructor; [lia|constructor].
Qed.

Lemma below_release_ledger n sz l :
  Dict.get String.eqb n (_mem l) = Some sz -> sound l -> below l ->
  below (release_ledger n sz l).
Proof.
  intros Hg (Hm & _ & _) (Ht & Hu).
  assert (Hsz : 0 <= sz)
    by (apply (get_some_in String.eqb String.eqb_eq) in Hg; now apply Hm in Hg).
  assert (Hlt : _used_mem l < _max_mem sim).
  { destruct Hu as [E|H]; [|exact H]. rewrite E in Hg. discriminate. }
  split; fields.
  - apply Forall_app. split; [exact Ht|]. constructor; [lia|constructor].
  - right. lia.
Qed.

Lemma within_log p m : preserves (within p) (emit (Log m)).
Proof. intros w H. exact H. Qed.

Lemma within_add_ref_count p k d : preserves (within p) (add_ref_count k d).
Proof.
  intros w H.
  destruct (Dict.get String.eqb k (_ref_counts (self w))) as [v|] eqn:Hg.
  - rewrite (add_ref_count_some _ _ _ _ Hg). cbn [snd]. exact H.
  - now rewrite add_ref_count_none.
Qed.

Lemma within_release p n : preserves (within p) (_release sim n).
Proof.
  intros w [Hs Hp].
  destruct (Dict.get String.eqb n (_mem (self w))) as [sz|] eqn:Hg;
    [|now rewrite release_absent].
  destruct (Dict.mem String.eqb n (_ref_counts (self w))) eqn:Hm.
  - rewrite (release_present sim n w sz Hg Hm). cbn [snd]. split; cbn [self].
    + now apply sound_release_ledger.
    + destruct p.
      * now apply below_release_ledger.
      * now apply (above_grows (self w) _ [_used_mem (self w) - sz]).
  - rewrite (release_half sim n w sz Hg Hm). cbn [snd].
    destruct Hs as (Hmem & Hu & Ht).
    assert (Hsz : 0 <= sz)
      by (pose proof Hg as Hi; apply (get_some_in String.eqb String.eqb_eq) in Hi;
          now apply Hmem in Hi).
    split; fields.
    + split; [|split]; fields.
      * intros x Hx. apply Hmem. now apply in_del_inv in Hx.
      * rewrite (sum_sizes_del n sz _ Hg). lia.
      * exact Ht.
    + destruct p; [|exact Hp]. destruct Hp as (Hb & Hl). split; [exact Hb|].
      right. destruct Hl as [E|H]; [|exact H]. rewrite E in Hg. discriminate.
Qed.

(** The sizes [play] keeps in its locals are not negative. *)
Definition sized (loc : Locals) : Prop :=
  (forall v, ts_size loc = Some v -> 0 <= v) /\
  (forall k ds d, Dict.get Z.eqb k (swapins loc) = Some ds -> In d ds ->
                  0 <= snd (fst d)).

(** However the run stops, the ledger is sound, and below the capacity in
    strict mode. *)
Definition ended (w : World) : Prop :=
  sound (self w) /\ (_plot sim = false -> below (self w)).

(** Between two statements: [passed] tells whether the trace has stayed
    below the capacity, and in strict mode it has. *)
Definition cap_inv (loc : Locals) (w : World) : Prop :=
  sized loc /\ within (passed loc) w /\ (_plot sim = false -> passed loc = true).

Definition cap_post (r : Res Locals) (w : World) : Prop :=
  match r with
  | Val loc => cap_inv loc w
  | Return _ => _plot sim = false /\ ended w
  | Raise _ => ended w
  end.

Definition cap_spec (loc : Locals) (m : M Locals) : Prop :=
  forall w, cap_inv loc w -> cap_post (fst (m w)) (snd (m w)).

Lemma cap_inv_ended loc w : cap_inv loc w -> ended w.
Proof.
  intros (_ & [Hs Hp] & Hstrict). split; [exact Hs|].
  intros Hplot. now rewrite (Hstrict Hplot) in Hp.
Qed.

Lemma cap_spec_ret loc loc' :
  (sized loc -> sized loc') -> passed loc' = passed loc -> cap_spec loc (ret loc').
Proof.
  intros Hs Hp w (H1 & H2 & H3). cbn. unfold cap_inv. rewrite Hp. auto.
Qed.

Lemma cap_spec_raise loc e : cap_spec loc (raise e).
Proof. intros w H. cbn. now apply (cap_inv_ended loc). Qed.

Lemma cap_spec_bind loc (m : M Locals) (f : Locals -> M Locals) :
  cap_spec loc m -> (forall loc1, cap_spec loc1 (f loc1)) -> cap_spec loc (bind m f).
Proof.
  intros Hm Hf w H. rewrite bind_eq. specialize (Hm w H).
  destruct (m w) as [[loc1|b|e] w']; cbn in *; auto. now apply Hf.
Qed.

(** A step that leaves the locals alone and does not return. *)
Lemma cap_spec_after {A} loc (m : M A) (f : A -> M Locals) :
  (forall p, preserves (within p) m) -> falls_through m ->
  (forall a, cap_spec loc (f a)) ->
  cap_spec loc (bind m f).
Proof.
  intros Hk Hft Hf w (H1 & H2 & H3). rewrite bind_eq.
  pose proof (Hk _ w H2) as Hw. specialize (Hft w).
  destruct (m w) as [[a|b|e] w']; cbn in *.
  - apply Hf. now split.
  - now destruct (Hft b).
  - apply (cap_inv_ended loc). now split.
Qed.

Lemma cap_spec_foldM {A} (body : Locals -> A -> M Locals) xs :
  (forall loc x, In x xs -> cap_spec loc (body loc x)) ->
  forall loc, cap_spec loc (foldM body xs loc).
Proof.
  induction xs as [|x xs IH]; intros Hbody loc; cbn.
  - now apply cap_spec_ret.
  - apply cap_spec_bind; [apply Hbody; now left|].
    apply IH. intros loc1 y Hy. apply Hbody. now right.
Qed.

(** [ok = self._allocate(...)] followed by the check of [ok]. *)
Lemma cap_spec_allocate loc loc' n sz lt :
  0 <= sz -> (sized loc -> sized loc') -> passed loc' = passed loc ->
  cap_spec loc (ok <- _allocate sim n sz lt ;; check_ok sim ok loc').
Proof.
  intros Hsz Hs Hp w (H1 & [Hsound Hpass] & H3). rewrite bind_eq.
  destruct (Z.lt_ge_cases sz (_get_free_mem sim (self w))) as [Hfit|Hoom].
  - rewrite allocate_fits by exact Hfit. cbn.
    unfold cap_inv, within. rewrite Hp. cbn [self].
    split; [auto|]. split; [|exact H3]. split; [now apply sound_allocated|].
    destruct (passed loc).
    + now apply below_allocated.
    + now apply (above_grows (self w) _ [_used_mem (self w) + sz]).
  - apply Z.le_ge in Hoom. destruct (_plot sim) eqn:Hplot.
    + rewrite allocate_oom_plot by assumption.
      unfold check_ok. rewrite Hplot. cbn.
      unfold cap_inv, within. cbn [self passed set_passed].
      split; [apply Hs in H1; exact H1|]. split; [|congruence].
      split; [now apply sound_allocated|now apply above_allocated_oom].
    + rewrite allocate_oom_strict by assumption.
      unfold check_ok. rewrite Hplot. cbn.
      split; [exact Hplot|]. split; [exact Hsound|]. intros _.
      now rewrite (H3 eq_refl) in Hpass.
Qed.

Hypothesis sizes_nonneg : forall ts, 0 <= get_tensor_size (_lms sim) ts.

Lemma sized_set_ts_size v loc : 0 <= v -> sized loc -> sized (set_ts_size v loc).
Proof.
  intros Hv [_ H2]. split; [|exact H2]. cbn. now intros v' [= <-].
Qed.

Lemma sized_set_swapouts f loc : sized loc -> sized (set_swapouts f loc).
Proof. intros H. exact H. Qed.

Lemma sized_add_swapin ah n sz dests loc :
  0 <= sz -> sized loc -> sized (add_swapin sim ah n sz dests loc).
Proof.
  intros Hsz [H1 H2]. split; [exact H1|].
  unfold add_swapin. cbn [swapins set_swapins].
  set (lvl := _get_level _ _ - ah). set (info := (_, sz, len dests)).
  intros k ds d.
  destruct (Z.eq_dec lvl k) as [<-|Hne].
  - destruct (Dict.get Z.eqb lvl (swapins loc)) as [old|] eqn:Hg.
    + rewrite (get_set_same Z.eqb Z.eqb_eq). intros [= <-] Hd.
      apply in_add_inv in Hd.
      destruct Hd as [->|Hd]; [exact Hsz|]. now apply (H2 lvl old).
    + rewrite (get_set_same Z.eqb Z.eqb_eq). intros [= <-] [<-|[]]. exact Hsz.
  - assert (E : forall v, Dict.get Z.eqb k (Dict.set Z.eqb lvl v (swapins loc))
                          = Dict.get Z.eqb k (swapins loc)).
    { intros v. apply (get_set_other Z.eqb Z.eqb_eq). congruence. }
    destruct (Dict.get Z.eqb lvl (swapins loc)); rewrite E; apply H2.
Qed.

Lemma sized_add_swapins ah n sz grp :
  0 <= sz ->
  forall loc, sized loc ->
    sized (fold_left (fun loc dests => add_swapin sim ah n sz dests loc) grp loc).
Proof.
  intros Hsz. induction grp as [|g grp IH]; intros loc H; cbn; [exact H|].
  apply IH. now apply sized_add_swapin.
Qed.

End Capacity.

#[global] Hint Resolve within_log within_add_ref_count within_release : pres.

Ltac cap_after sim := apply (cap_spec_after sim); [intros ?; pres|falls|intros ?].

Section CapacityRun.
Variable sim : Simulator.
Hypothesis sizes_nonneg : forall ts, 0 <= get_tensor_size (_lms sim) ts.

Lemma cap_spec_sized loc m : (sized loc -> cap_spec sim loc m) -> cap_spec sim loc m.
Proof. intros H w Hinv. apply H; [apply Hinv|exact Hinv]. Qed.

Lemma cap_spec_swapin_tensors k loc : cap_spec sim loc (swapin_tensors sim k loc).
Proof.
  apply cap_spec_sized. intros [_ Hds]. unfold swapin_tensors.
  destruct (Dict.get Z.eqb k (swapins loc)) as [ds|] eqn:Hg.
  - apply cap_spec_foldM. intros acc [[n sz] lt] Hin. cbv beta iota zeta.
    cap_after sim.
    apply cap_spec_allocate; [|apply sized_set_ts_size|reflexivity];
      apply (Hds k ds _ Hg Hin).
  - apply cap_spec_foldM. intros acc x [].
Qed.

Lemma cap_spec_allocate_inputs op_name ins loc :
  cap_spec sim loc (allocate_inputs sim op_name ins loc).
Proof.
  unfold allocate_inputs. apply cap_spec_foldM. intros acc ts _. cbv zeta.
  cap_after sim. destruct (fst a); [now apply cap_spec_ret|].
  cap_after sim. destruct a0; [now apply cap_spec_ret|].
  apply cap_spec_sized. intros [Hv _].
  destruct (ts_size acc) as [v|]; [|apply cap_spec_raise].
  apply cap_spec_allocate; auto.
Qed.

Lemma cap_spec_allocate_outputs outs loc :
  cap_spec sim loc (allocate_outputs sim outs loc).
Proof.
  unfold allocate_outputs. apply cap_spec_foldM. intros acc ts _. cbv zeta.
  destruct (len (ts_consumers ts) =? 0); [now apply cap_spec_ret|].
  apply cap_spec_allocate; auto. apply sizes_nonneg.
Qed.

Lemma cap_spec_swap_out_tensors th ah gb k op outs loc :
  cap_spec sim loc (swap_out_tensors sim th ah gb k op outs loc).
Proof.
  unfold swap_out_tensors.
  destruct (PySet.mem _ _ _); [now apply cap_spec_ret|].
  apply cap_spec_foldM. intros acc ts _. unfold swap_out_tensor.
  destruct (ts_ndims ts) as [nd|]; [|now apply cap_spec_ret].
  destruct (nd <=? 1); [now apply cap_spec_ret|]. cbv zeta.
  assert (Hs : sized acc -> sized (set_ts_size (_ts_size sim ts) acc))
    by (apply sized_set_ts_size, sizes_nonneg).
  destruct (dest_ops_of sim th (op_name op) ts) as [|d ds];
    [now apply cap_spec_ret|].
  cap_after sim. cap_after sim. cap_after sim.
  apply cap_spec_ret.
  - intros H. apply sized_add_swapins; [apply sizes_nonneg|].
    now apply sized_set_swapouts, Hs.
  - now rewrite add_swapins_passed.
Qed.

Lemma cap_spec_execute_op th ah gb k loc op :
  cap_spec sim loc (execute_op sim th ah gb k loc op).
Proof.
  unfold execute_op. cap_after sim.
  apply cap_spec_bind; [apply cap_spec_allocate_inputs|intros loc1].
  apply cap_spec_bind; [apply cap_spec_allocate_outputs|intros loc2].
  cap_after sim. cap_after sim. cap_after sim.
  apply cap_spec_swap_out_tensors.
Qed.

Lemma cap_spec_simulate_level th ah gb loc k :
  cap_spec sim loc (simulate_level sim th ah gb loc k).
Proof.
  unfold simulate_level. cap_after sim. cap_after sim.
  apply cap_spec_bind; [apply cap_spec_swapin_tensors|intros loc1].
  apply cap_spec_bind.
  - apply cap_spec_foldM. intros acc op _. apply cap_spec_execute_op.
  - intros loc2. cap_after sim. now apply cap_spec_ret.
Qed.

Lemma play_body_capacity th ah gb l :
  let rw := play_body sim th ah gb {| self := l; out := [] |} in
  match fst rw with
  | Val b => within sim b (snd rw) /\ (_plot sim = false -> b = true)
  | Return _ => _plot sim = false /\ ended sim (snd rw)
  | Raise _ => ended sim (snd rw)
  end.
Proof.
  unfold play_body.
  set (w0 := {| self := l; out := [] |}).
  change ((_reset ;; ?rest) w0) with (rest (snd (_reset w0))).
  set (w1 := snd (_reset w0)).
  change ((_log_info ?msg ;; ?rest) w1) with (rest (snd (_log_info msg w1))).
  set (w2 := snd (_log_info _ w1)).
  assert (H2 : cap_inv sim init_locals w2).
  { split; [|split].
    - split; cbn; discriminate.
    - split.
      + split; [intros x []|]. split; [cbn; lia|constructor].
      + split; [constructor|now left].
    - reflexivity. }
  clearbody w2. clear w0 w1. rewrite bind_eq.
  assert (Hloop := cap_spec_foldM sim (simulate_level sim th ah gb)
                     (range (_topo_sort_size (_lms sim)))
                     (fun loc k _ => cap_spec_simulate_level th ah gb loc k)
                     init_locals w2 H2).
  destruct (foldM _ _ _ w2) as [[loc|b|e] w3]; cbn in Hloop |- *;
    [|exact Hloop|exact Hloop].
  destruct Hloop as (_ & Hw & Hp).
  unfold _generate_diagram, _log_info, bind, gets, emit, ret.
  destruct (_plot sim); cbn; split; auto.
Qed.

End CapacityRun.

(** X8. With tensor sizes that are not negative, no sample of the memory
    trace of a run is negative.  In strict mode every sample is below the
    capacity, however the call ends.  In diagnostic mode a call that returns,
    returns [True] exactly when every sample of its trace is below the
    capacity. *)
Theorem trace_within_capacity :
  forall sim th ah gb l,
    (forall ts, 0 <= get_tensor_size (_lms sim) ts) ->
    let '(r, l', o) := play sim th ah gb l in
    Forall (fun u => 0 <= u) (_mem_traces l') /\
    (_plot sim = false ->
       Forall (fun u => u < _max_mem sim) (_mem_traces l')) /\
    (_plot sim = true -> forall b, r = Returned b ->
       (b = true <-> Forall (fun u => u < _max_mem sim) (_mem_traces l'))).
Proof.
  intros sim th ah gb l Hsz. unfold play.
  pose proof (play_body_capacity sim Hsz th ah gb l) as H. cbv zeta in H.
  destruct (play_body sim th ah gb {| self := l; out := [] |}) as [[b|b|e] w];
    cbn [fst snd] in H.
  - destruct H as [[Hs Hb] Hstrict]. split; [apply Hs|]. split.
    + intros Hplot. rewrite (Hstrict Hplot) in Hb. apply Hb.
    + intros _ b' [= <-]. destruct b.
      * split; [intros _; apply Hb|reflexivity].
      * split; [discriminate|]. intros Hall. exfalso.
        apply Exists_exists in Hb. destruct Hb as (u & Hu & Hge).
        rewrite Forall_forall in Hall. specialize (Hall u Hu). lia.
  - destruct H as [Hplot [Hs Hb]]. split; [apply Hs|]. split.
    + intros _. now apply Hb.
    + congruence.
  - destruct H as [Hs Hb]. split; [apply Hs|]. split.
    + intros Hplot. now apply Hb.
    + discriminate.
Qed.

Lemma trace_within_capacity_witness :
  (forall ts, 0 <= get_tensor_size (_lms ex_sim) ts) /\
  Forall (fun u => 0 <= u /\ u < 1000)
         (_mem_traces (snd (fst (play ex_sim 5 1 0 empty_ledger)))).
Proof.
  assert (H : forall ts, 0 <= get_tensor_size (_lms ex_sim) ts).
  { intros ts. cbn. unfold ex_size.
    destruct (String.eqb (ts_name ts) "A:0"); [lia|].
    destruct (String.eqb (ts_name ts) "X:0"); lia. }
  split; [exact H|].
  pose proof (trace_within_capacity ex_sim 5 1 0 empty_ledger H) as T.
  destruct (play ex_sim 5 1 0 empty_ledger) as [[r l'] o].
  destruct T as (T1 & T2 & _). apply Forall_and; [exact T1|]. now apply T2.
Defined.

(** ** The diagram *)

Definition is_diagram (e : Event) : bool :=
  match e with Log (Diagram _ _ _ _) => true | _ => false end.

Lemma play_body_diagram sim th ah gb l :
  let rw := play_body sim th ah gb {| self := l; out := [] |} in
  match fst rw with
  | Val _ =>
      filter is_diagram (out (snd rw))
      = if _plot sim then [Log (Diagram th ah gb (_mem_traces (self (snd rw))))]
        else []
  | _ => filter is_diagram (out (snd rw)) = []
  end.
Proof.
  unfold play_body.
  set (w0 := {| self := l; out := [] |}).
  change ((_reset ;; ?rest) w0) with (rest (snd (_reset w0))).
  set (w1 := snd (_reset w0)).
  change ((_log_info ?msg ;; ?rest) w1) with (rest (snd (_log_info msg w1))).
  set (w2 := snd (_log_info _ w1)).
  assert (H2 : kept is_diagram [] w2) by reflexivity.
  clearbody w2. clear w0 w1. rewrite bind_eq.
  assert (Hloop : preserves (kept is_diagram [])
                    (foldM (simulate_level sim th ah gb)
                           (range (_topo_sort_size (_lms sim))) init_locals))
    by pres.
  specialize (Hloop w2 H2). unfold kept in Hloop.
  destruct (foldM _ _ _ w2) as [[loc|b|e] w3]; cbn [fst snd] in Hloop |- *;
    [|exact Hloop|exact Hloop].
  unfold _generate_diagram, _log_info, bind, gets, emit, ret.
  destruct (_plot sim); cbn; rewrite ?filter_app, Hloop; reflexivity.
Qed.

(** X9. The diagram is drawn at most once in a call of [play]: once, from
    the memory trace the call ends with, when the simulator plots and the
    call returns; not at all in strict mode or when the call raises. *)
Theorem diagram_drawn_once_from_full_trace :
  forall sim th ah gb l,
    let '(r, l', o) := play sim th ah gb l in
    filter is_diagram o =
      match r with
      | Returned _ =>
          if _plot sim then [Log (Diagram th ah gb (_mem_traces l'))] else []
      | Raised _ => []
      end.
Proof.
  intros sim th ah gb l. unfold play.
  pose proof (play_body_diagram sim th ah gb l) as Hd.
  pose proof (play_body_oom sim th ah gb l) as Ho. cbv zeta in Hd, Ho.
  destruct (play_body sim th ah gb {| self := l; out := [] |}) as [[b|b|e] w];
    cbn [fst snd] in Hd, Ho |- *.
  - exact Hd.
  - destruct Ho as [-> _]. exact Hd.
  - exact Hd.
Qed.

(** ** What the messages report *)

(** The used bytes reported by the messages of [_allocate] and [_release]
    that follow a change of the ledger. *)
Definition reported_used (o : list Event) : list Z :=
  flat_map (fun e => match e with
                     | Log (Allocated _ _ used _) => [used]
                     | Log (Released _ _ used _) => [used]
                     | _ => []
                     end) o.

(** A message that reports free bytes reports the capacity minus the used
    bytes it reports, and an out-of-memory message a size that is not below
    the free bytes. *)
Definition reports_free (sim : Simulator) (e : Event) : Prop :=
  match e with
  | Log (Allocated _ _ used free) => free = _max_mem sim - used
  | Log (Released _ _ used free) => free = _max_mem sim - used
  | Log (OOM _ ts_size used free) => free = _max_mem sim - used /\ ts_size >= free
  | _ => True
  end.

Definition is_report (e : Event) : bool :=
  match e with
  | Log (Allocated _ _ _ _) | Log (Released _ _ _ _) | Log (OOM _ _ _ _) => true
  | _ => false
  end.

Definition reported (sim : Simulator) (w : World) : Prop :=
  _mem_traces (self w) = reported_used (out w) /\
  Forall (reports_free sim) (out w).

Lemma reported_emit sim e :
  is_report e = false -> preserves (reported sim) (emit e).
Proof.
  intros He w [Ht Hf]. split; cbn.
  - unfold reported_used. rewrite flat_map_app. cbn.
    destruct e as [[]|]; try discriminate; cbn; now rewrite app_nil_r.
  - apply Forall_app. split; [exact Hf|]. constructor; [|constructor].
    destruct e as [[]|]; try discriminate; exact I.
Qed.

Lemma reported_add_ref_count sim k d : preserves (reported sim) (add_ref_count k d).
Proof.
  intros w H.
  destruct (Dict.get String.eqb k (_ref_counts (self w))) as [v|] eqn:Hg.
  - rewrite (add_ref_count_some _ _ _ _ Hg). exact H.
  - now rewrite add_ref_count_none.
Qed.

Lemma reported_allocate sim n sz lt : preserves (reported sim) (_allocate sim n sz lt).
Proof.
  intros w [Ht Hf].
  destruct (Z.lt_ge_cases sz (_get_free_mem sim (self w))) as [Hfit|Hoom].
  - rewrite allocate_fits by exact Hfit. split; cbn [snd self out]; fields.
    + unfold reported_used. rewrite flat_map_app. cbn. now rewrite Ht.
    + apply Forall_app. split; [exact Hf|]. repeat constructor.
  - apply Z.le_ge in Hoom. destruct (_plot sim) eqn:Hplot.
    + rewrite allocate_oom_plot by assumption. split; cbn [snd self out]; fields.
      * unfold reported_used. rewrite flat_map_app. cbn. now rewrite Ht.
      * apply Forall_app. split; [exact Hf|]. repeat constructor; exact Hoom.
    + rewrite allocate_oom_strict by assumption. split; cbn [snd self out].
      * unfold reported_used. rewrite flat_map_app. cbn. now rewrite app_nil_r.
      * apply Forall_app. split; [exact Hf|]. repeat constructor; exact Hoom.
Qed.

Lemma reported_release sim n : preserves (reported sim) (_release sim n).
Proof.
  intros w [Ht Hf].
  destruct (Dict.get String.eqb n (_mem (self w))) as [sz|] eqn:Hg;
    [|now rewrite release_absent].
  destruct (Dict.mem String.eqb n (_ref_counts (self w))) eqn:Hm.
  - rewrite (release_present sim n w sz Hg Hm). split; cbn [snd self out]; fields.
    + unfold reported_used. rewrite flat_map_app. cbn. now rewrite Ht.
    + apply Forall_app. split; [exact Hf|]. repeat constructor.
  - rewrite (release_half sim n w sz Hg Hm). now split.
Qed.

#[global] Hint Resolve reported_add_ref_count reported_allocate reported_release
  : pres.
#[global] Hint Extern 1 (preserves (reported _) (emit _)) =>
  apply reported_emit; reflexivity : pres.

(** X10. The memory trace a call of [play] leaves is, sample by sample, the
    used bytes reported by the messages of [_allocate] and [_release] of the
    run; every such message, and every out-of-memory message, reports as
    free bytes the capacity minus the used bytes it reports, and an
    out-of-memory message is about a size that is not below those free
    bytes. *)
Theorem trace_is_what_messages_report :
  forall sim th ah gb l,
    let '(r, l', o) := play sim th ah gb l in
    _mem_traces l' = reported_used o /\ Forall (reports_free sim) o.
Proof.
  intros sim th ah gb l. unfold play.
  assert (H : reported sim (snd (play_body sim th ah gb {| self := l; out := [] |}))).
  { unfold play_body.
    set (w0 := {| self := l; out := [] |}).
    change ((_reset ;; ?rest) w0) with (rest (snd (_reset w0))).
    set (w1 := snd (_reset w0)).
    assert (H1 : reported sim w1) by (split; [reflexivity|constructor]).
    clearbody w1. revert w1 H1.
    match goal with |- forall w1, _ -> reported sim (snd (?c w1)) =>
      change (preserves (reported sim) c) end.
    pres. }
  destruct (play_body sim th ah gb {| self := l; out := [] |}) as [r w].
  exact H.
Qed.

(** ** The locals and the observations together *)

(** [triple I E loc m]: from a world and locals in [I], the statement [m]
    goes on with locals and a world in [I], or stops the run in a world in
    [E]. *)
Section Triple.
Variable sim : Simulator.
Variable I : Locals -> World -> Prop.
Variable E : World -> Prop.
Hypothesis I_E : forall loc w, I loc w -> E w.

Definition triple (loc : Locals) (m : M Locals) : Prop :=
  forall w, I loc w ->
    match fst (m w) with
    | Val loc' => I loc' (snd (m w))
    | _ => E (snd (m w))
    end.

Lemma triple_ret loc loc' : (forall w, I loc w -> I loc' w) -> triple loc (ret loc').
Proof. intros H w Hw. now apply H. Qed.

Lemma triple_raise loc e : triple loc (raise e).
Proof. intros w Hw. now apply (I_E loc). Qed.

Lemma triple_bind loc (m : M Locals) (f : Locals -> M Locals) :
  triple loc m -> (forall loc1, triple loc1 (f loc1)) -> triple loc (bind m f).
Proof.
  intros Hm Hf w H. rewrite bind_eq. specialize (Hm w H).
  destruct (m w) as [[loc1|b|e] w']; cbn in *; auto. now apply Hf.
Qed.

(** A step that leaves the locals alone. *)
Lemma triple_after {A} loc (m : M A) (f : A -> M Locals) :
  preserves (I loc) m -> (forall a, triple loc (f a)) -> triple loc (bind m f).
Proof.
  intros Hm Hf w H. rewrite bind_eq. specialize (Hm w H).
  destruct (m w) as [[a|b|e] w']; cbn in *.
  - now apply Hf.
  - now apply (I_E loc).
  - now apply (I_E loc).
Qed.

Lemma triple_foldM {A} (body : Locals -> A -> M Locals) xs :
  (forall loc x, In x xs -> triple loc (body loc x)) ->
  forall loc, triple loc (foldM body xs loc).
Proof.
  induction xs as [|x xs IH]; intros Hbody loc; cbn.
  - now apply triple_ret.
  - apply triple_bind; [apply Hbody; now left|].
    apply IH. intros loc1 y Hy. apply Hbody. now right.
Qed.

Lemma triple_check_ok loc loc' ok :
  (forall w, I loc w -> I loc' w) ->
  (forall w, I loc w -> I (set_passed false loc') w) ->
  triple loc (check_ok sim ok loc').
Proof.
  intros H1 H2. unfold check_ok. destruct ok; [now apply triple_ret|].
  destruct (negb (_plot sim)); [|now apply triple_ret].
  intros w Hw. now apply (I_E loc).
Qed.

End Triple.

(** *** The count of swapped-out tensors *)

Definition is_swapped_out (e : Event) : bool :=
  match e with Log (SwappedOut _ _) => true | _ => false end.

(** The names in the swapped-out messages, in order. *)
Definition swapped_out_names (o : list Event) : list string :=
  flat_map (fun e => match e with Log (SwappedOut _ n) => [n] | _ => [] end) o.

Lemma swapped_out_names_filter o :
  swapped_out_names (filter is_swapped_out o) = swapped_out_names o.
Proof.
  unfold swapped_out_names. induction o as [|e o IH]; [reflexivity|].
  destruct e as [[]|]; cbn; try exact IH. now rewrite IH.
Qed.

Lemma of_list_snoc {A} (eqb : A -> A -> bool) xs x :
  PySet.of_list eqb (xs ++ [x]) = PySet.add eqb x (PySet.of_list eqb xs).
Proof. unfold PySet.of_list. now rewrite fold_left_app. Qed.

(** The set [swapouts] is the set of the names logged as swapped out. *)
Definition counted (loc : Locals) (w : World) : Prop :=
  swapouts loc = PySet.of_list String.eqb (swapped_out_names (out w)).

Lemma counted_kept {A} loc (m : M A) :
  (forall L, preserves (kept is_swapped_out L) m) -> preserves (counted loc) m.
Proof.
  intros H w Hc. specialize (H _ w eq_refl). unfold kept in H. unfold counted.
  now rewrite <- swapped_out_names_filter, H, swapped_out_names_filter.
Qed.

Definition anyhow : World -> Prop := fun _ => True.

Lemma counted_anyhow loc w : counted loc w -> anyhow w.
Proof. intros _. exact I. Qed.

Ltac counted_after :=
  apply (triple_after counted anyhow counted_anyhow);
  [apply counted_kept; intros ?; pres|intros ?].

Ltac counted_check sim :=
  apply (triple_check_ok sim counted anyhow counted_anyhow); intros ? H; exact H.

Definition counts : Locals -> M Locals -> Prop := triple counted anyhow.

Section Counted.
Variable sim : Simulator.

Lemma counts_swapin_tensors k loc : counts loc (swapin_tensors sim k loc).
Proof.
  unfold swapin_tensors. apply (triple_foldM counted anyhow).
  intros acc [[n sz] lt] _. cbv beta iota zeta.
  counted_after. counted_after. counted_check sim.
Qed.

Lemma counts_allocate_inputs op_name ins loc :
  counts loc (allocate_inputs sim op_name ins loc).
Proof.
  unfold allocate_inputs. apply (triple_foldM counted anyhow).
  intros acc ts _. cbv zeta.
  counted_after. destruct (fst a); [now apply triple_ret|].
  counted_after. destruct a0; [now apply triple_ret|].
  destruct (ts_size acc) as [v|]; [|now apply (triple_raise counted anyhow counted_anyhow)].
  counted_after. counted_check sim.
Qed.

Lemma counts_allocate_outputs outs loc :
  counts loc (allocate_outputs sim outs loc).
Proof.
  unfold allocate_outputs. apply (triple_foldM counted anyhow).
  intros acc ts _. cbv zeta.
  destruct (len (ts_consumers ts) =? 0); [now apply triple_ret|].
  counted_after. counted_check sim.
Qed.

Lemma counts_swap_out_tensors th ah gb k op outs loc :
  counts loc (swap_out_tensors sim th ah gb k op outs loc).
Proof.
  unfold swap_out_tensors.
  destruct (PySet.mem _ _ _); [now apply triple_ret|].
  apply (triple_foldM counted anyhow). intros acc ts _. unfold swap_out_tensor.
  destruct (ts_ndims ts) as [nd|]; [|now apply triple_ret].
  destruct (nd <=? 1); [now apply triple_ret|]. cbv zeta.
  destruct (dest_ops_of sim th (op_name op) ts) as [|d ds];
    [now apply triple_ret|].
  counted_after. counted_after.
  intros w Hw. cbn. unfold counted in *. cbn [out].
  rewrite add_swapins_swapouts. cbn [swapouts set_swapouts set_ts_size].
  unfold swapped_out_names. rewrite flat_map_app. cbn [flat_map app].
  rewrite of_list_snoc. now rewrite Hw.
Qed.

Lemma counts_execute_op th ah gb k loc op :
  counts loc (execute_op sim th ah gb k loc op).
Proof.
  unfold execute_op. counted_after.
  apply (triple_bind counted anyhow); [apply counts_allocate_inputs|intros loc1].
  apply (triple_bind counted anyhow); [apply counts_allocate_outputs|intros loc2].
  counted_after. counted_after. counted_after.
  apply counts_swap_out_tensors.
Qed.

Lemma counts_simulate_level th ah gb loc k :
  counts loc (simulate_level sim th ah gb loc k).
Proof.
  unfold simulate_level. counted_after. counted_after.
  apply (triple_bind counted anyhow); [apply counts_swapin_tensors|intros loc1].
  apply (triple_bind counted anyhow).
  - apply (triple_foldM counted anyhow). intros acc op _. apply counts_execute_op.
  - intros loc2. counted_after. now apply triple_ret.
Qed.

Definition is_count (e : Event) : bool :=
  match e with Log (SwappedOutTensors _) => true | _ => false end.

Lemma swapped_out_count_filter r l o :
  swapped_out_count (r, l, o)
  = swapped_out_count (r, l, filter is_count o).
Proof.
  unfold swapped_out_count. cbn [snd].
  induction o as [|e o IH]; [reflexivity|].
  destruct e as [[]|]; cbn; try exact IH. now rewrite IH.
Qed.

Lemma play_body_count th ah gb l :
  let rw := play_body sim th ah gb {| self := l; out := [] |} in
  match fst rw with
  | Val _ =>
      filter is_count (out (snd rw))
      = [Log (SwappedOutTensors
                (len (PySet.of_list String.eqb (swapped_out_names (out (snd rw))))))]
  | _ => filter is_count (out (snd rw)) = []
  end.
Proof.
  unfold play_body.
  set (w0 := {| self := l; out := [] |}).
  change ((_reset ;; ?rest) w0) with (rest (snd (_reset w0))).
  set (w1 := snd (_reset w0)).
  change ((_log_info ?msg ;; ?rest) w1) with (rest (snd (_log_info msg w1))).
  set (w2 := snd (_log_info _ w1)).
  assert (H2 : kept is_count [] w2) by reflexivity.
  assert (C2 : counted init_locals w2) by reflexivity.
  clearbody w2. clear w0 w1. rewrite bind_eq.
  assert (Hloop : preserves (kept is_count [])
                    (foldM (simulate_level sim th ah gb)
                           (range (_topo_sort_size (_lms sim))) init_locals))
    by pres.
  specialize (Hloop w2 H2). unfold kept in Hloop.
  assert (Cloop := triple_foldM counted anyhow (simulate_level sim th ah gb)
                     (range (_topo_sort_size (_lms sim)))
                     (fun loc k _ => counts_simulate_level th ah gb loc k)
                     init_locals w2 C2).
  destruct (foldM _ _ _ w2) as [[loc|b|e] w3]; cbn [fst snd] in Hloop, Cloop |- *;
    [|exact Hloop|exact Hloop].
  unfold counted in Cloop.
  unfold _generate_diagram, _log_info, bind, gets, emit, ret.
  destruct (_plot sim); cbn; rewrite ?filter_app, Hloop; cbn;
    unfold swapped_out_names; rewrite ?flat_map_app; cbn;
    rewrite ?app_nil_r; fold (swapped_out_names (out w3)); now rewrite Cloop.
Qed.

End Counted.

(** X11. The number of swapped-out tensors [play] reports at its end is the
    number of distinct names in the swapped-out messages of the run.  The
    report is made once when the call runs to its end (it returns [True], or
    the simulator plots and it returns), and not at all when the call
    returns at a failed allocation or raises. *)
Theorem swapped_out_count_is_distinct_names :
  forall sim th ah gb l,
    let '(r, l', o) := play sim th ah gb l in
    swapped_out_count (r, l', o) =
      match r with
      | Returned b =>
          if b || _plot sim
          then [len (PySet.of_list String.eqb (swapped_out_names o))]
          else []
      | Raised _ => []
      end.
Proof.
  intros sim th ah gb l. unfold play.
  pose proof (play_body_count sim th ah gb l) as Hc.
  pose proof (play_body_oom sim th ah gb l) as Ho. cbv zeta in Hc, Ho.
  destruct (play_body sim th ah gb {| self := l; out := [] |}) as [[b|b|e] w];
    cbn [fst snd] in Hc, Ho |- *; rewrite swapped_out_count_filter, Hc.
  - assert (Hb : b || _plot sim = true).
    { destruct Ho as [Hp Hs]. destruct (_plot sim); [apply orb_true_r|].
      rewrite (proj2 Hp (Hs eq_refl)). reflexivity. }
    rewrite Hb. reflexivity.
  - destruct Ho as (-> & -> & _). reflexivity.
  - reflexivity.
Qed.

(** *** A threshold no distance exceeds *)

Definition is_swap (e : Event) : bool :=
  match e with
  | Log (SwappedOut _ _) | Log (SwappedIn _ _) => true
  | _ => false
  end.

(** Nothing has been swapped: no swap-in is scheduled and no swap has been
    logged. *)
Definition idle (loc : Locals) (w : World) : Prop :=
  swapins loc = [] /\ kept is_swap [] w.

Definition quiet (w : World) : Prop := kept is_swap [] w.

Lemma idle_quiet loc w : idle loc w -> quiet w.
Proof. now intros [_ H]. Qed.

Lemma idle_kept {A} loc (m : M A) :
  preserves (kept is_swap []) m -> preserves (idle loc) m.
Proof. intros H w [H1 H2]. split; [exact H1|]. now apply H. Qed.

Lemma quiet_no_names o : filter is_swap o = [] -> swapped_out_names o = [].
Proof.
  unfold swapped_out_names. induction o as [|e o IH]; [reflexivity|].
  destruct e as [[]|]; cbn; try exact IH; discriminate.
Qed.

Ltac idle_after :=
  apply (triple_after idle quiet idle_quiet); [apply idle_kept; pres|intros ?].

Ltac idle_check sim :=
  apply (triple_check_ok sim idle quiet idle_quiet); intros ? H; exact H.

Definition idles : Locals -> M Locals -> Prop := triple idle quiet.

Section Idle.
Variable sim : Simulator.
Variable th : Z.
Hypothesis near : forall a b, _distance (_lms sim) a b <= th.

Lemma dest_ops_of_near op_name ts : dest_ops_of sim th op_name ts = [].
Proof.
  unfold dest_ops_of.
  assert (E : filter (fun dest => _distance (_lms sim) op_name dest >? th)
                     (ts_consumers ts) = []).
  { induction (ts_consumers ts) as [|d ds IH]; [reflexivity|]. cbn.
    rewrite Z.gtb_ltb. destruct (Z.ltb_spec th (_distance (_lms sim) op_name d));
      [|exact IH].
    specialize (near op_name d). lia. }
  rewrite E. reflexivity.
Qed.

Lemma idles_swapin_tensors k loc : idles loc (swapin_tensors sim k loc).
Proof.
  intros w Hw. unfold swapin_tensors. destruct Hw as [Hs Hk].
  rewrite Hs. cbn. now split.
Qed.

Lemma idles_allocate_inputs op_name ins loc :
  idles loc (allocate_inputs sim op_name ins loc).
Proof.
  unfold allocate_inputs. apply (triple_foldM idle quiet).
  intros acc ts _. cbv zeta.
  idle_after. destruct (fst a); [now apply triple_ret|].
  idle_after. destruct a0; [now apply triple_ret|].
  destruct (ts_size acc) as [v|]; [|now apply (triple_raise idle quiet idle_quiet)].
  idle_after. idle_check sim.
Qed.

Lemma idles_allocate_outputs outs loc :
  idles loc (allocate_outputs sim outs loc).
Proof.
  unfold allocate_outputs. apply (triple_foldM idle quiet).
  intros acc ts _. cbv zeta.
  destruct (len (ts_consumers ts) =? 0); [now apply triple_ret|].
  idle_after. idle_check sim.
Qed.

Lemma idles_swap_out_tensors ah gb k op outs loc :
  idles loc (swap_out_tensors sim th ah gb k op outs loc).
Proof.
  unfold swap_out_tensors.
  destruct (PySet.mem _ _ _); [now apply triple_ret|].
  apply (triple_foldM idle quiet). intros acc ts _. unfold swap_out_tensor.
  destruct (ts_ndims ts) as [nd|]; [|now apply triple_ret].
  destruct (nd <=? 1); [now apply triple_ret|]. cbv zeta.
  rewrite dest_ops_of_near. now apply triple_ret.
Qed.

Lemma idles_execute_op ah gb k loc op :
  idles loc (execute_op sim th ah gb k loc op).
Proof.
  unfold execute_op. idle_after.
  apply (triple_bind idle quiet); [apply idles_allocate_inputs|intros loc1].
  apply (triple_bind idle quiet); [apply idles_allocate_outputs|intros loc2].
  idle_after. idle_after. idle_after.
  apply idles_swap_out_tensors.
Qed.

Lemma idles_simulate_level ah gb loc k :
  idles loc (simulate_level sim th ah gb loc k).
Proof.
  unfold simulate_level. idle_after. idle_after.
  apply (triple_bind idle quiet); [apply idles_swapin_tensors|intros loc1].
  apply (triple_bind idle quiet).
  - apply (triple_foldM idle quiet). intros acc op _. apply idles_execute_op.
  - intros loc2. idle_after. now apply triple_ret.
Qed.

Lemma play_body_quiet ah gb l :
  quiet (snd (play_body sim th ah gb {| self := l; out := [] |})).
Proof.
  unfold play_body.
  set (w0 := {| self := l; out := [] |}).
  change ((_reset ;; ?rest) w0) with (rest (snd (_reset w0))).
  set (w1 := snd (_reset w0)).
  change ((_log_info ?msg ;; ?rest) w1) with (rest (snd (_log_info msg w1))).
  set (w2 := snd (_log_info _ w1)).
  assert (H2 : idle init_locals w2) by (split; reflexivity).
  clearbody w2. clear w0 w1. rewrite bind_eq.
  assert (Hloop := triple_foldM idle quiet (simulate_level sim th ah gb)
                     (range (_topo_sort_size (_lms sim)))
                     (fun loc k _ => idles_simulate_level ah gb loc k)
                     init_locals w2 H2).
  destruct (foldM _ _ _ w2) as [[loc|b|e] w3]; cbn [fst snd] in Hloop |- *;
    [|exact Hloop|exact Hloop].
  destruct Hloop as [_ Hq]. revert w3 Hq.
  match goal with |- forall w3, _ -> quiet (snd (?c w3)) =>
    change (preserves (kept is_swap []) c) end.
  pres.
Qed.

End Idle.

(** X12. With a threshold that no distance between two ops exceeds, a call
    of [play] swaps nothing: no tensor is logged as swapped out or swapped
    in, and the number of swapped-out tensors it reports, if it gets to
    report one, is 0. *)
Theorem nothing_swapped_below_threshold :
  forall sim th ah gb l,
    (forall a b, _distance (_lms sim) a b <= th) ->
    let '(r, l', o) := play sim th ah gb l in
    filter is_swap o = [] /\
    Forall (fun n => n = 0) (swapped_out_count (r, l', o)).
Proof.
  intros sim th ah gb l Hnear. unfold play.
  pose proof (play_body_quiet sim th Hnear ah gb l) as Hq.
  pose proof (play_body_count sim th ah gb l) as Hc. cbv zeta in Hc.
  destruct (play_body sim th ah gb {| self := l; out := [] |}) as [r w].
  cbn [fst snd] in Hq, Hc. unfold quiet, kept in Hq.
  split; [exact Hq|].
  rewrite swapped_out_count_filter.
  destruct r as [b|b|e]; rewrite Hc; try constructor.
  - now rewrite (quiet_no_names _ Hq).
  - constructor.
Qed.

Lemma nothing_swapped_below_threshold_witness :
  (forall a b, _distance (_lms ex_sim) a b <= 9) /\
  filter is_swap (snd (play ex_sim 9 1 0 empty_ledger)) = [].
Proof.
  assert (H : forall a b, _distance (_lms ex_sim) a b <= 9).
  { intros a b. cbn. unfold ex_level.
    repeat match goal with |- context [String.eqb ?x ?y] =>
      destruct (String.eqb x y) end; lia. }
  split; [exact H|].
  pose proof (nothing_swapped_below_threshold ex_sim 9 1 0 empty_ledger H) as T.
  destruct (play ex_sim 9 1 0 empty_ledger) as [[r l'] o]. apply T.
Defined.

(** ** The outputs of an op *)

Lemma len_zero_iff {A} (xs : list A) : (len xs =? 0) = true <-> xs = [].
Proof.
  unfold len. rewrite Z.eqb_eq. destruct xs; cbn [List.length]; split;
    try reflexivity; try discriminate; lia.
Qed.

(** [set(op.outputs)] holds one tensor of each name. *)
Lemma NoDup_names_of_list xs : NoDup (map ts_name (PySet.of_list Tensor_eqb xs)).
Proof.
  unfold PySet.of_list.
  assert (H : forall s, NoDup (map ts_name s) ->
                NoDup (map ts_name (fold_left (fun s x => PySet.add Tensor_eqb x s) xs s))).
  { induction xs as [|x xs IH]; intros s Hs; cbn; [exact Hs|].
    apply IH. unfold PySet.add. destruct (PySet.mem Tensor_eqb x s) eqn:Hm; [exact Hs|].
    rewrite map_app. cbn. apply NoDup_app; [exact Hs|repeat constructor; auto|].
    intros n Hn [<-|[]]. apply in_map_iff in Hn. destruct Hn as (y & Hy & Hin).
    unfold PySet.mem in Hm.
    assert (Ht : existsb (Tensor_eqb x) s = true).
    { apply existsb_exists. exists y. split; [exact Hin|].
      unfold Tensor_eqb. apply String.eqb_eq. now symmetry. }
    congruence. }
  apply H. constructor.
Qed.

Lemma allocate_outputs_post sim outs :
  forall loc w loc' w',
    NoDup (map ts_name outs) ->
    allocate_outputs sim outs loc w = (Val loc', w') ->
    (forall ts, In ts outs -> ts_consumers ts <> [] ->
       Dict.get String.eqb (ts_name ts) (_mem (self w')) = Some (_ts_size sim ts) /\
       Dict.get String.eqb (ts_name ts) (_ref_counts (self w'))
       = Some (len (ts_consumers ts))) /\
    (forall n, (forall ts, In ts outs -> ts_name ts = n -> ts_consumers ts = []) ->
       Dict.get String.eqb n (_mem (self w')) = Dict.get String.eqb n (_mem (self w)) /\
       Dict.get String.eqb n (_ref_counts (self w'))
       = Dict.get String.eqb n (_ref_counts (self w))).
Proof.
  unfold allocate_outputs.
  induction outs as [|t rest IH]; intros loc w loc' w' Hnd.
  - cbn. intros [= <- <-]. split; [intros ts []|auto].
  - apply NoDup_cons_iff in Hnd. destruct Hnd as [Hfresh Hnd].
    rewrite foldM_cons. cbv zeta.
    destruct (len (ts_consumers t) =? 0) eqn:Hz.
    + cbn [ret fst snd]. intros Hrun.
      destruct (IH loc w loc' w' Hnd Hrun) as [Hin Hout].
      apply len_zero_iff in Hz. split.
      * intros ts [<-|Hts] Hc; [contradiction|]. now apply Hin.
      * intros n Hn. apply Hout. intros ts Hts. apply Hn. now right.
    + pose proof (allocate_check sim (ts_name t) (_ts_size sim t)
                    (len (ts_consumers t)) loc w) as Hstep.
      destruct ((ok <- _allocate sim (ts_name t) (_ts_size sim t)
                         (len (ts_consumers t)) ;; check_ok sim ok loc) w)
        as [[loc1|b|e] w1]; cbn [fst snd] in Hstep |- *;
        [|discriminate|discriminate].
      destruct Hstep as [Hself _]. intros Hrun.
      destruct (IH loc1 w1 loc' w' Hnd Hrun) as [Hin Hout].
      assert (Hkeep : forall ts, In ts rest -> ts_name ts = ts_name t ->
                                 ts_consumers ts = []).
      { intros ts Hts E. exfalso. apply Hfresh. rewrite <- E. now apply in_map. }
      split.
      * intros ts [<-|Hts] Hc; [|now apply Hin].
        destruct (Hout (ts_name t) Hkeep) as [-> ->]. rewrite Hself.
        unfold allocated. cbn [_mem _ref_counts].
        now rewrite !(get_set_same String.eqb String.eqb_eq).
      * intros n Hn.
        assert (Hne : ts_name t <> n).
        { intros E. specialize (Hn t (or_introl eq_refl) E).
          apply len_zero_iff in Hn. congruence. }
        destruct (Hout n) as [-> ->].
        { intros ts Hts. apply Hn. now right. }
        rewrite Hself. unfold allocated. cbn [_mem _ref_counts].
        now rewrite !(get_set_other String.eqb String.eqb_eq) by exact Hne.
Qed.

(** X13. When the loop over the outputs of an op goes through, every output
    that has a consumer is resident with its own size and with one
    reference per consumer, whatever was resident under its name before;
    every other entry of the ledger, the outputs without consumer among
    them, is as it was. *)
Theorem outputs_allocated_with_own_size :
  forall sim op loc w loc' w',
    let outs := PySet.of_list Tensor_eqb (op_outputs op) in
    allocate_outputs sim outs loc w = (Val loc', w') ->
    (forall ts, In ts outs -> ts_consumers ts <> [] ->
       Dict.get String.eqb (ts_name ts) (_mem (self w')) = Some (_ts_size sim ts) /\
       Dict.get String.eqb (ts_name ts) (_ref_counts (self w'))
       = Some (len (ts_consumers ts))) /\
    (forall n, (forall ts, In ts outs -> ts_name ts = n -> ts_consumers ts = []) ->
       Dict.get String.eqb n (_mem (self w')) = Dict.get String.eqb n (_mem (self w)) /\
       Dict.get String.eqb n (_ref_counts (self w'))
       = Dict.get String.eqb n (_ref_counts (self w))).
Proof.
  intros sim op loc w loc' w' outs. apply allocate_outputs_post.
  apply NoDup_names_of_list.
Qed.

Lemma outputs_allocated_with_own_size_witness :
  fst (allocate_outputs ex_sim (PySet.of_list Tensor_eqb (op_outputs ex_A))
         init_locals {| self := empty_ledger; out := [] |}) = Val init_locals /\
  Dict.get String.eqb "A:0"
    (_mem (self (snd (allocate_outputs ex_sim
                        (PySet.of_list Tensor_eqb (op_outputs ex_A))
                        init_locals {| self := empty_ledger; out := [] |}))))
  = Some 100.
Proof.
  split; [reflexivity|].
  apply (proj1 (outputs_allocated_with_own_size ex_sim ex_A init_locals
           {| self := empty_ledger; out := [] |} init_locals
           (snd (allocate_outputs ex_sim (PySet.of_list Tensor_eqb (op_outputs ex_A))
                   init_locals {| self := empty_ledger; out := [] |}))
           eq_refl) ex_T).
  - now left.
  - discriminate.
Defined.

(** ** The two modes *)

(** The simulator with [plot] set to [b]. *)
Definition with_plot (b : bool) (sim : Simulator) : Simulator :=
  {| _lms := _lms sim; _plot := b;
     _swapout_delay := _swapout_delay sim; _max_mem := _max_mem sim |}.

Definition strict : Simulator -> Simulator := with_plot false.
Definition plotting : Simulator -> Simulator := with_plot true.

(** Some allocation has failed. *)
Definition has_oom (w : World) : Prop := filter is_oom (out w) <> [].

Lemma has_oom_emit e : preserves has_oom (emit e).
Proof.
  intros w H. unfold has_oom in *. cbn. rewrite filter_app. intros E.
  apply app_eq_nil in E. now apply H.
Qed.

Lemma has_oom_modify f : preserves has_oom (modify f).
Proof. intros w H. exact H. Qed.

#[global] Hint Resolve has_oom_emit has_oom_modify : pres.

(** [agree ms mp]: the strict statement [ms] and the plotting statement [mp]
    do the same, unless the strict one returns; then an allocation has
    failed in the plotting one. *)
Definition agree {A} (ms mp : M A) : Prop :=
  forall w,
    (ms w = mp w /\ forall b, fst (mp w) <> Return b) \/
    ((exists b, fst (ms w) = Return b) /\ has_oom (snd (mp w))).

Lemma agree_same {A} (m : M A) : falls_through m -> agree m m.
Proof. intros H w. left. split; [reflexivity|apply H]. Qed.

Lemma agree_bind {A B} (ms mp : M A) (fs fp : A -> M B) :
  agree ms mp -> (forall a, agree (fs a) (fp a)) ->
  (forall a, preserves has_oom (fp a)) ->
  agree (bind ms fs) (bind mp fp).
Proof.
  intros Hm Hf Hp w. rewrite !bind_eq.
  destruct (Hm w) as [[E Hnr]|[[b Hb] Ho]].
  - rewrite E. destruct (mp w) as [[a|b|e] w']; cbn in *.
    + apply Hf.
    + now destruct (Hnr b).
    + left. split; [reflexivity|discriminate].
  - right. destruct (ms w) as [[a|b'|e] w1]; cbn in Hb; try discriminate.
    cbn. split; [eauto|].
    destruct (mp w) as [[a|b2|e] w']; cbn in *; auto. now apply Hp.
Qed.

Lemma agree_foldM {A} (bs bp : Locals -> A -> M Locals) xs :
  (forall acc x, agree (bs acc x) (bp acc x)) ->
  (forall acc x, preserves has_oom (bp acc x)) ->
  forall acc, agree (foldM bs xs acc) (foldM bp xs acc).
Proof.
  intros Hb Hp. induction xs as [|x xs IH]; intros acc; cbn.
  - apply agree_same. apply falls_through_ret.
  - apply agree_bind; auto. intros a. now apply preserves_foldM.
Qed.

Ltac agree_step :=
  apply agree_bind; [apply agree_same; falls|intros ?|intros ?; pres].

Section Modes.
Variable sim : Simulator.

Lemma agree_allocate n sz lt loc :
  agree (ok <- _allocate (strict sim) n sz lt ;; check_ok (strict sim) ok loc)
        (ok <- _allocate (plotting sim) n sz lt ;; check_ok (plotting sim) ok loc).
Proof.
  intros w. rewrite !bind_eq.
  destruct (Z.lt_ge_cases sz (_get_free_mem (strict sim) (self w))) as [Hfit|Hoom].
  - left. rewrite (allocate_fits (strict sim)) by exact Hfit.
    rewrite (allocate_fits (plotting sim)) by exact Hfit.
    cbn. split; [reflexivity|discriminate].
  - right. apply Z.le_ge in Hoom.
    rewrite (allocate_oom_strict (strict sim)); [|exact Hoom|reflexivity].
    rewrite (allocate_oom_plot (plotting sim)); [|exact Hoom|reflexivity].
    cbn. split; [eauto|]. unfold has_oom. cbn [snd out].
    rewrite !filter_app. cbn. intros E.
    apply app_eq_nil in E. destruct E as [_ E]. discriminate.
Qed.

Lemma agree_swapin_tensors k loc :
  agree (swapin_tensors (strict sim) k loc) (swapin_tensors (plotting sim) k loc).
Proof.
  unfold swapin_tensors. apply agree_foldM.
  - intros acc [[n sz] lt]. cbv beta iota zeta. agree_step. apply agree_allocate.
  - intros acc [[n sz] lt]. pres.
Qed.

Lemma agree_allocate_inputs op_name ins loc :
  agree (allocate_inputs (strict sim) op_name ins loc)
        (allocate_inputs (plotting sim) op_name ins loc).
Proof.
  unfold allocate_inputs. apply agree_foldM; [|intros acc ts; pres].
  intros acc ts. cbv zeta. agree_step.
  destruct (fst a); [apply agree_same; falls|]. agree_step.
  destruct a0; [apply agree_same; falls|].
  destruct (ts_size acc) as [v|]; [apply agree_allocate|apply agree_same; falls].
Qed.

Lemma agree_allocate_outputs outs loc :
  agree (allocate_outputs (strict sim) outs loc)
        (allocate_outputs (plotting sim) outs loc).
Proof.
  unfold allocate_outputs. apply agree_foldM; [|intros acc ts; pres].
  intros acc ts. cbv zeta.
  destruct (len (ts_consumers ts) =? 0); [apply agree_same; falls|].
  apply agree_allocate.
Qed.

Lemma agree_execute_op th ah gb k loc op :
  agree (execute_op (strict sim) th ah gb k loc op)
        (execute_op (plotting sim) th ah gb k loc op).
Proof.
  unfold execute_op. agree_step.
  apply agree_bind; [apply agree_allocate_inputs|intros loc1|intros ?; pres].
  apply agree_bind; [apply agree_allocate_outputs|intros loc2|intros ?; pres].
  agree_step. agree_step.
  change (_gc (plotting sim)) with (_gc (strict sim)).
  change (swap_out_tensors (plotting sim)) with (swap_out_tensors (strict sim)).
  apply agree_same. falls.
Qed.

Lemma agree_simulate_level th ah gb loc k :
  agree (simulate_level (strict sim) th ah gb loc k)
        (simulate_level (plotting sim) th ah gb loc k).
Proof.
  unfold simulate_level. agree_step.
  change (_gc (plotting sim)) with (_gc (strict sim)). agree_step.
  apply agree_bind; [apply agree_swapin_tensors|intros loc1|intros ?; pres].
  apply agree_bind; [|intros loc2; apply agree_same; falls|intros ?; pres].
  apply agree_foldM; [|intros acc op; pres].
  intros acc op. apply agree_execute_op.
Qed.

End Modes.

(** The level loop of [play], from the world [play] starts it in. *)
Definition levels (sim : Simulator) (th ah gb : Z) : Res Locals * World :=
  foldM (simulate_level sim th ah gb) (range (_topo_sort_size (_lms sim)))
        init_locals
        {| self := empty_ledger; out := [Log (Simulating th ah gb)] |}.

Lemma play_after_levels sim th ah gb l :
  play sim th ah gb l
  = match levels sim th ah gb with
    | (Val loc, w) =>
        (Returned (passed loc), self w,
         out w ++ (if _plot sim then [Log (Diagram th ah gb (_mem_traces (self w)))]
                   else [])
               ++ [Log (SwappedOutTensors (len (swapouts loc)))])
    | (Return b, w) => (Returned b, self w, out w)
    | (Raise e, w) => (Raised e, self w, out w)
    end.
Proof.
  unfold play, play_body, levels.
  set (w0 := {| self := l; out := [] |}).
  change ((_reset ;; ?rest) w0) with (rest (snd (_reset w0))).
  set (w1 := snd (_reset w0)).
  change ((_log_info ?msg ;; ?rest) w1) with (rest (snd (_log_info msg w1))).
  change (snd (_log_info (Simulating th ah gb) w1))
    with {| self := empty_ledger; out := [Log (Simulating th ah gb)] |}.
  rewrite bind_eq.
  destruct (foldM _ _ _ _) as [[loc|b|e] w3]; cbn [fst snd]; try reflexivity.
  unfold _generate_diagram, _log_info, bind, gets, emit, ret.
  destruct (_plot sim); cbn; rewrite <- ?app_assoc; reflexivity.
Qed.

Lemma agree_levels sim th ah gb :
  (levels (strict sim) th ah gb = levels (plotting sim) th ah gb /\
   forall b, fst (levels (plotting sim) th ah gb) <> Return b) \/
  ((exists b, fst (levels (strict sim) th ah gb) = Return b) /\
   has_oom (snd (levels (plotting sim) th ah gb))).
Proof.
  unfold levels.
  apply (agree_foldM (simulate_level (strict sim) th ah gb)
                     (simulate_level (plotting sim) th ah gb)).
  - intros acc k. apply agree_simulate_level.
  - intros acc k. pres.
Qed.

Lemma levels_oom sim th ah gb :
  oom_post sim (fst (levels sim th ah gb)) (snd (levels sim th ah gb)).
Proof.
  unfold levels.
  apply (oom_spec_foldM sim (simulate_level sim th ah gb)
           (range (_topo_sort_size (_lms sim)))
           (oom_spec_simulate_level sim th ah gb) init_locals).
  split; cbn; tauto.
Qed.

(** X14. Plotting does not change the verdict.  With the same graph,
    capacity and parameters, [play] returns [True] in strict mode exactly
    when it returns [True] in diagnostic mode, and then with the same ledger;
    what it raises in strict mode it raises in diagnostic mode, with the same
    ledger; when it returns [False] in strict mode, in diagnostic mode it
    returns [False] or raises later in the run; and when it returns [False]
    in diagnostic mode it returns [False] in strict mode. *)
Theorem verdict_same_in_both_modes :
  forall sim th ah gb l,
    let s := play (with_plot false sim) th ah gb l in
    let p := play (with_plot true sim) th ah gb l in
    (fst (fst s) = Returned true <-> fst (fst p) = Returned true) /\
    (fst (fst s) = Returned true -> snd (fst s) = snd (fst p)) /\
    (forall e, fst (fst s) = Raised e ->
       fst (fst p) = Raised e /\ snd (fst s) = snd (fst p)) /\
    (fst (fst s) = Returned false ->
       fst (fst p) = Returned false \/ exists e, fst (fst p) = Raised e) /\
    (fst (fst p) = Returned false -> fst (fst s) = Returned false).
Proof.
  intros sim th ah gb l s p. subst s p.
  change (with_plot false sim) with (strict sim).
  change (with_plot true sim) with (plotting sim).
  rewrite !play_after_levels.
  pose proof (levels_oom (strict sim) th ah gb) as Hs.
  pose proof (levels_oom (plotting sim) th ah gb) as Hp.
  destruct (agree_levels sim th ah gb) as [[E Hnr]|[[b Hb] Ho]].
  - rewrite E in *. clear E Hs Hp.
    destruct (levels (plotting sim) th ah gb) as [[loc|b|e] w]; cbn [fst snd] in *.
    + repeat split; auto; discriminate.
    + now destruct (Hnr b).
    + repeat split; auto; try discriminate; now intros e' [= <-].
  - destruct (levels (strict sim) th ah gb) as [[loc|b'|e] w]; cbn [fst] in Hb;
      try discriminate.
    cbn [fst snd oom_post] in Hs. destruct Hs as (_ & -> & _). clear Hb.
    destruct (levels (plotting sim) th ah gb) as [[loc|b2|e] w'];
      cbn [fst snd oom_post] in *.
    + assert (Hf : passed loc = false).
      { destruct Hp as [Hp _]. destruct (passed loc); [|reflexivity].
        exfalso. apply Ho. now apply Hp. }
      rewrite Hf. repeat split; auto; discriminate.
    + destruct Hp as [Hp _]. discriminate.
    + repeat split; eauto; discriminate.
Qed.

(** * Swap-outs, swap-ins and failures over a whole run *)

(** ** Statements with a precondition and a postcondition *)

(** [hoare P m Q E]: from a world in [P], the statement [m] runs to its end
    with a value and a world in [Q], or returns from [play] or raises in a
    world in [E]. *)
Definition hoare {A} (P : World -> Prop) (m : M A) (Q : A -> World -> Prop)
    (E : World -> Prop) : Prop :=
  forall w, P w ->
    match fst (m w) with
    | Val a => Q a (snd (m w))
    | _ => E (snd (m w))
    end.

(** A property of the events of class [cls] observed so far. *)
Definition observing (cls : Event -> bool) (p : list Event -> Prop) : World -> Prop :=
  fun w => p (filter cls (out w)).

(** The observations so far start with [o0]. *)
Definition extends (o0 : list Event) (w : World) : Prop :=
  exists o', out w = o0 ++ o'.

Lemma extends_modify o0 f : preserves (extends o0) (modify f).
Proof. intros w H. exact H. Qed.

Lemma extends_emit o0 e : preserves (extends o0) (emit e).
Proof.
  intros w [o' H]. exists (o' ++ [e]). cbn. rewrite H. now rewrite app_assoc.
Qed.

#[global] Hint Resolve extends_modify extends_emit : pres.

Section Hoare.
Context {A : Type}.

Lemma hoare_ret (P : World -> Prop) (a : A) Q E :
  (forall w, P w -> Q a w) -> hoare P (ret a) Q E.
Proof. intros H w Hw. now apply H. Qed.

Lemma hoare_raise (P : World -> Prop) e (Q : A -> World -> Prop) E :
  (forall w, P w -> E w) -> hoare P (raise e) Q E.
Proof. intros H w Hw. now apply H. Qed.

Lemma hoare_bind {B} P (m : M A) R (f : A -> M B) Q E :
  hoare P m R E -> (forall a, hoare (R a) (f a) Q E) -> hoare P (bind m f) Q E.
Proof.
  intros Hm Hf w H. rewrite bind_eq. specialize (Hm w H).
  destruct (m w) as [[a|b|e] w']; cbn in *; auto. now apply Hf.
Qed.

Lemma hoare_conseq (P P' : World -> Prop) (m : M A) (Q Q' : A -> World -> Prop)
    (E E' : World -> Prop) :
  (forall w, P' w -> P w) -> (forall a w, Q a w -> Q' a w) ->
  (forall w, E w -> E' w) ->
  hoare P m Q E -> hoare P' m Q' E'.
Proof.
  intros HP HQ HE Hm w H. specialize (Hm w (HP w H)).
  destruct (fst (m w)); auto.
Qed.

(** A statement of which nothing of class [cls] is observed. *)
Lemma hoare_silent {B} cls (p e : list Event -> Prop) (m : M A) (f : A -> M B) Q :
  (forall L, preserves (kept cls L) m) ->
  (forall S, p S -> e S) ->
  (forall a, hoare (observing cls p) (f a) Q (observing cls e)) ->
  hoare (observing cls p) (bind m f) Q (observing cls e).
Proof.
  intros Hk Hpe Hf w H. rewrite bind_eq.
  pose proof (Hk _ w eq_refl) as Hs. unfold kept in Hs.
  destruct (m w) as [[a|b|x] w']; cbn in *.
  - apply Hf. unfold observing. now rewrite Hs.
  - unfold observing. rewrite Hs. now apply Hpe.
  - unfold observing. rewrite Hs. now apply Hpe.
Qed.

(** What holds of the events of class [cls] observed before a statement and
    of every longer list holds after it. *)
Lemma hoare_frame cls (F p : list Event -> Prop) (m : M A)
    (q : A -> list Event -> Prop) (e : list Event -> Prop) :
  (forall S S', F S -> F (S ++ S')) ->
  (forall o0, preserves (extends o0) m) ->
  hoare (observing cls p) m (fun a => observing cls (q a)) (observing cls e) ->
  hoare (observing cls (fun S => p S /\ F S)) m
        (fun a => observing cls (fun S => q a S /\ F S)) (observing cls e).
Proof.
  intros Hmono Hext Hm w [Hp HF]. specialize (Hm w Hp).
  destruct (Hext (out w) w) as [o' Ho]; [exists []; now rewrite app_nil_r|].
  destruct (fst (m w)); auto.
  split; [exact Hm|]. unfold observing. rewrite Ho, filter_app. now apply Hmono.
Qed.

End Hoare.

Lemma hoare_return {A} (P : World -> Prop) b (Q : A -> World -> Prop) E :
  (forall w, P w -> E w) -> hoare P (return_ b) Q E.
Proof. intros H w Hw. now apply H. Qed.

Lemma hoare_emit {B} cls (p p' : list Event -> Prop) ev (k : M B) Q E :
  cls ev = true ->
  (forall S, p S -> p' (S ++ [ev])) ->
  hoare (observing cls p') k Q E ->
  hoare (observing cls p) (emit ev ;; k) Q E.
Proof.
  intros Hc Hp Hk w H. rewrite bind_eq. cbn [emit]. apply Hk.
  unfold observing. cbn [out]. rewrite filter_app. cbn. rewrite Hc. now apply Hp.
Qed.

(** A loop, with what holds once the rounds for [pre] are done. *)
Lemma hoare_loop {A B} (I : list A -> B -> World -> Prop) E
    (body : B -> A -> M B) xs :
  (forall pre x post acc,
      xs = pre ++ x :: post ->
      hoare (I pre acc) (body acc x) (I (pre ++ [x])) E) ->
  forall acc, hoare (I [] acc) (foldM body xs acc) (I xs) E.
Proof.
  intros Hbody.
  assert (H : forall rest pre, xs = pre ++ rest ->
            forall acc, hoare (I pre acc) (foldM body rest acc) (I xs) E).
  { induction rest as [|x rest IH]; intros pre Hx acc.
    - rewrite app_nil_r in Hx. subst pre. now apply hoare_ret.
    - cbn [foldM]. eapply hoare_bind; [apply (Hbody pre x rest); exact Hx|].
      intros acc1. apply IH. rewrite <- app_assoc. exact Hx. }
  intros acc. now apply (H xs []).
Qed.

Lemma hoare_foldM {A B} (I : B -> World -> Prop) E (body : B -> A -> M B) xs :
  (forall acc x, In x xs -> hoare (I acc) (body acc x) I E) ->
  forall acc, hoare (I acc) (foldM body xs acc) I E.
Proof.
  intros Hbody acc. apply (hoare_loop (fun _ => I)).
  intros pre x post acc1 Hx. apply Hbody. rewrite Hx.
  apply in_or_app. right. now left.
Qed.

Lemma hoare_check_ok sim (P : World -> Prop) ok loc Q E :
  (forall w, P w -> Q loc w) ->
  (forall w, P w -> Q (set_passed false loc) w) ->
  (forall w, P w -> E w) ->
  hoare P (check_ok sim ok loc) Q E.
Proof.
  intros H1 H2 H3. unfold check_ok. destruct ok; [now apply hoare_ret|].
  destruct (negb (_plot sim)); [now apply hoare_return|now apply hoare_ret].
Qed.

(** The statements that allocate keep what is observed of a class their
    messages are not in, and the swap-ins scheduled. *)
Section Allocating.
Variable sim : Simulator.
Variable cls : Event -> bool.
Hypothesis cls_oom : forall n sz u f, cls (Log (OOM n sz u f)) = false.
Hypothesis cls_allocated : forall sz n u f, cls (Log (Allocated sz n u f)) = false.
Hypothesis cls_sampled : forall l, cls (Sampled l) = false.
Variable p : list (Z * list Descr) -> list Event -> Prop.
Variable e : list Event -> Prop.
Hypothesis p_e : forall sw S, p sw S -> e S.

Lemma kept_allocate n sz lt L : preserves (kept cls L) (_allocate sim n sz lt).
Proof.
  unfold _allocate, append_trace, _log_info.
  repeat first
    [ apply preserves_bind; [|intros ?]
    | apply preserves_ret | apply preserves_gets | apply kept_modify
    | apply kept_emit; auto
    | match goal with |- preserves _ (if ?b then _ else _) => destruct b end
    | progress cbv zeta ].
Qed.

Lemma hoare_allocate_check n sz lt loc :
  hoare (observing cls (p (swapins loc)))
        (ok <- _allocate sim n sz lt ;; check_ok sim ok loc)
        (fun loc' => observing cls (p (swapins loc')))
        (observing cls e).
Proof.
  apply hoare_silent; [intros L; apply kept_allocate|apply p_e|intros ok].
  apply hoare_check_ok; auto. intros w. apply p_e.
Qed.

Lemma hoare_allocate_inputs op_name ins loc :
  hoare (observing cls (p (swapins loc)))
        (allocate_inputs sim op_name ins loc)
        (fun loc' => observing cls (p (swapins loc')))
        (observing cls e).
Proof.
  unfold allocate_inputs.
  apply (hoare_foldM (fun acc => observing cls (p (swapins acc)))).
  intros acc ts _. cbv zeta.
  apply hoare_silent; [intros L; unfold _is_swapin_tensor; pres|apply p_e|intros fs].
  destruct (fst fs); [now apply hoare_ret|].
  apply hoare_silent; [intros L; pres|apply p_e|intros resident].
  destruct resident; [now apply hoare_ret|].
  destruct (ts_size acc) as [v|].
  - apply hoare_allocate_check.
  - apply hoare_raise. intros w. apply p_e.
Qed.

Lemma hoare_allocate_outputs outs loc :
  hoare (observing cls (p (swapins loc)))
        (allocate_outputs sim outs loc)
        (fun loc' => observing cls (p (swapins loc')))
        (observing cls e).
Proof.
  unfold allocate_outputs.
  apply (hoare_foldM (fun acc => observing cls (p (swapins acc)))).
  intros acc ts _. cbv zeta.
  destruct (len (ts_consumers ts) =? 0); [now apply hoare_ret|].
  apply hoare_allocate_check.
Qed.

End Allocating.

(** ** The schedule of swap-ins *)

(** The messages of the swap-in loop, of the swap-out loop and of the end of
    a level. *)
Definition is_sched (e : Event) : bool :=
  match e with
  | Log (SwappedOut _ _) | Log (SwappedIn _ _) | Log (AvailableMemory _) => true
  | _ => false
  end.

Lemma set_set k (v1 v2 : Z) d :
  Dict.set String.eqb k v2 (Dict.set String.eqb k v1 d) = Dict.set String.eqb k v2 d.
Proof.
  induction d as [|[k' v'] d IH]; cbn.
  - now rewrite String.eqb_refl.
  - destruct (String.eqb k k') eqn:E; cbn; rewrite E; [reflexivity|now rewrite IH].
Qed.

Section Schedule.
Variable sim : Simulator.
Variables th ah gb : Z.

(** Line 196: the groups of destinations of an evicted output. *)
Definition groups_of (op : Op) (ts : Tensor) : list (list string) :=
  _groupby (_lms sim) (dest_ops_of sim th (op_name op) ts) gb.

(** Lines 199-200: the descriptor of the swap-in of [ts] for a group. *)
Definition descr_of (ts : Tensor) (dests : list string) : Descr :=
  (swapin_name (ts_name ts) dests, _ts_size sim ts, len dests).

(** Lines 202-203: the level the swap-in for a group is stored under. *)
Definition key_of (dests : list string) : Z :=
  _get_level (_lms sim) (_get_earliest_op (_lms sim) dests) - ah.

(** [d in swapins[L]] *)
Definition stored (sw : list (Z * list Descr)) (L : Z) (d : Descr) : Prop :=
  exists ds, Dict.get Z.eqb L sw = Some ds /\ In d ds.

(** [ts], named [n], is an output of an op of level [k] that meets the
    condition for evicting it. *)
Definition decided (k : Z) (n : string) (op : Op) (ts : Tensor) : Prop :=
  In op (_get_ops_by_level (_lms sim) k) /\
  In ts (PySet.of_list Tensor_eqb (op_outputs op)) /\
  ts_name ts = n /\
  evicts sim th op ts.

Lemma stored_add_swapin_new n sz dests loc :
  stored (swapins (add_swapin sim ah n sz dests loc)) (key_of dests)
         (swapin_name n dests, sz, len dests).
Proof. apply add_swapin_uses_swapin_name. Qed.

Lemma stored_add_swapin_old n sz dests loc L d :
  stored (swapins loc) L d ->
  stored (swapins (add_swapin sim ah n sz dests loc)) L d.
Proof.
  intros (ds & Hg & Hin). unfold stored, add_swapin. cbn.
  set (lvl := _get_level (_lms sim) (_get_earliest_op (_lms sim) dests) - ah).
  destruct (Z.eq_dec lvl L) as [E|E].
  - subst L. rewrite Hg, (get_set_same Z.eqb Z.eqb_eq).
    eexists. split; [reflexivity|].
    unfold PySet.add. destruct (PySet.mem Descr_eqb _ ds); [exact Hin|].
    apply in_or_app. now left.
  - exists ds. split; [|exact Hin].
    destruct (Dict.get Z.eqb lvl (swapins loc));
      now rewrite (get_set_other Z.eqb Z.eqb_eq) by exact E.
Qed.

Lemma stored_add_swapin_inv n sz dests loc L d :
  stored (swapins (add_swapin sim ah n sz dests loc)) L d ->
  stored (swapins loc) L d \/
  (L = key_of dests /\ d = (swapin_name n dests, sz, len dests)).
Proof.
  unfold stored, add_swapin, key_of, swapin_name. cbn.
  set (lvl := _get_level (_lms sim) (_get_earliest_op (_lms sim) dests) - ah).
  intros (ds & Hg & Hin).
  destruct (Z.eq_dec lvl L) as [E|E].
  - subst L. destruct (Dict.get Z.eqb lvl (swapins loc)) as [old|] eqn:Ho;
      rewrite (get_set_same Z.eqb Z.eqb_eq) in Hg; injection Hg as <-.
    + apply in_add_inv in Hin. destruct Hin as [->|Hin]; [now right|].
      left. eauto.
    + destruct Hin as [<-|[]]. now right.
  - left. exists ds. split; [|exact Hin].
    destruct (Dict.get Z.eqb lvl (swapins loc));
      now rewrite (get_set_other Z.eqb Z.eqb_eq) in Hg by exact E.
Qed.

(** Lines 197-207, for all the groups. *)
Definition add_swapins (n : string) (sz : Z) (grp : list (list string))
    (loc : Locals) : Locals :=
  fold_left (fun loc dests => add_swapin sim ah n sz dests loc) grp loc.

Lemma stored_add_swapins_old n sz grp : forall loc L d,
  stored (swapins loc) L d -> stored (swapins (add_swapins n sz grp loc)) L d.
Proof.
  unfold add_swapins. induction grp as [|g grp IH]; intros loc L d H; [exact H|].
  cbn. apply IH. now apply stored_add_swapin_old.
Qed.

Lemma stored_add_swapins_new n sz grp : forall loc dests,
  In dests grp ->
  stored (swapins (add_swapins n sz grp loc)) (key_of dests)
         (swapin_name n dests, sz, len dests).
Proof.
  induction grp as [|g grp IH]; intros loc dests Hin; [destruct Hin|].
  destruct Hin as [<-|Hin].
  - change (add_swapins n sz (g :: grp) loc)
      with (add_swapins n sz grp (add_swapin sim ah n sz g loc)).
    apply stored_add_swapins_old, stored_add_swapin_new.
  - change (add_swapins n sz (g :: grp) loc)
      with (add_swapins n sz grp (add_swapin sim ah n sz g loc)).
    now apply IH.
Qed.

Lemma stored_add_swapins_inv n sz grp : forall loc L d,
  stored (swapins (add_swapins n sz grp loc)) L d ->
  stored (swapins loc) L d \/
  exists dests, In dests grp /\ L = key_of dests /\
                d = (swapin_name n dests, sz, len dests).
Proof.
  induction grp as [|g grp IH]; intros loc L d H; [now left|].
  change (add_swapins n sz (g :: grp) loc)
    with (add_swapins n sz grp (add_swapin sim ah n sz g loc)) in H.
  destruct (IH _ _ _ H) as [H1|(dests & Hin & HL & Hd)].
  - destruct (stored_add_swapin_inv _ _ _ _ _ _ H1) as [H2|[HL Hd]]; [now left|].
    right. exists g. split; [now left|]. auto.
  - right. exists dests. split; [now right|]. auto.
Qed.

(** The swap-out decision for one output, in closed form. *)
Lemma swap_out_tensor_cases k op loc ts w :
  swap_out_tensor sim th ah gb k (op_name op) loc ts w
  = if evictable sim th op ts then
      match Dict.get String.eqb (ts_name ts) (_ref_counts (self w)) with
      | Some rc =>
          (Val (add_swapins (ts_name ts) (_ts_size sim ts) (groups_of op ts)
                  (set_swapouts (PySet.add String.eqb (ts_name ts))
                     (set_ts_size (_ts_size sim ts) loc))),
           {| self := set_ref_counts
                        (Dict.set String.eqb (ts_name ts)
                           (rc - len (dest_ops_of sim th (op_name op) ts)
                            + _swapout_delay sim))
                        (self w);
              out := out w ++ [Log (SwappedOut k (ts_name ts))] |})
      | None => (Raise (KeyError (ts_name ts)), w)
      end
    else
      (Val match ts_ndims ts with
           | Some ndims =>
               if ndims <=? 1 then loc else set_ts_size (_ts_size sim ts) loc
           | None => loc
           end, w).
Proof.
  unfold evictable, swap_out_tensor, groups_of, add_swapins.
  destruct (ts_ndims ts) as [nd|]; [|reflexivity].
  destruct (nd <=? 1); [reflexivity|]. cbn [negb andb].
  destruct (dest_ops_of sim th (op_name op) ts) as [|d ds] eqn:Ed; [reflexivity|].
  destruct (Dict.get String.eqb (ts_name ts) (_ref_counts (self w))) as [rc|] eqn:Hg.
  - rewrite bind_eq, (add_ref_count_some _ _ _ _ Hg).
    rewrite bind_eq, (add_ref_count_some _ _ _ (rc + - len (d :: ds))).
    2:{ cbn. apply (get_set_same String.eqb String.eqb_eq). }
    cbn. unfold set_ref_counts. cbn. rewrite set_set.
    replace (rc + - len (d :: ds) + _swapout_delay sim)
      with (rc - len (d :: ds) + _swapout_delay sim) by lia.
    reflexivity.
  - now rewrite bind_eq, (add_ref_count_none _ _ _ Hg).
Qed.

(** ** What holds of the schedule during a run *)

(** The descriptor [d] under the key [L] comes from a decision logged in
    [S]. *)
Definition scheduled (S : list Event) (L : Z) (d : Descr) : Prop :=
  exists k0 n op ts dests,
    In (Log (SwappedOut k0 n)) S /\ decided k0 n op ts /\
    In dests (groups_of op ts) /\ d = descr_of ts dests /\ L = key_of dests.

(** The swap-in of [s] at level [k] comes from a decision logged in [S],
    taken at an earlier level, that scheduled it for [k]. *)
Definition justified (S : list Event) (k : Z) (s : string) : Prop :=
  exists k0 n op ts dests,
    0 <= k0 < k /\ In (Log (SwappedOut k0 n)) S /\ decided k0 n op ts /\
    In dests (groups_of op ts) /\ s = swapin_name n dests /\ k = key_of dests.

(** The output named [n], evicted at level [k0], has its swap-ins stored in
    [sw], and those for a level between [k0] and [b] are swapped in. *)
Definition honoured (b : Z) (sw : list (Z * list Descr)) (S : list Event)
    (k0 : Z) (n : string) : Prop :=
  exists op ts,
    decided k0 n op ts /\
    forall dests, In dests (groups_of op ts) ->
      stored sw (key_of dests) (descr_of ts dests) /\
      (k0 < key_of dests < b ->
       In (Log (SwappedIn (key_of dests) (swapin_name n dests))) S).

(** Every output of an op of level [L] that meets the condition is logged
    as swapped out. *)
Definition level_done (S : list Event) (L : Z) : Prop :=
  forall op ts,
    In op (_get_ops_by_level (_lms sim) L) ->
    In ts (PySet.of_list Tensor_eqb (op_outputs op)) ->
    evicts sim th op ts ->
    In (Log (SwappedOut L (ts_name ts))) S.

(** The invariant of the level loop, when the levels below [b] have had
    their swap-ins. *)
Definition schedule_at (b : Z) (sw : list (Z * list Descr)) (S : list Event) : Prop :=
  (forall L d, stored sw L d -> scheduled S L d) /\
  (forall k0 n, In (Log (SwappedOut k0 n)) S -> 0 <= k0 < b /\ honoured b sw S k0 n) /\
  (forall k s, In (Log (SwappedIn k s)) S -> justified S k s) /\
  (forall L, In (Log (AvailableMemory L)) S -> L < b /\ level_done S L).

Definition schedule_kept (S : list Event) : Prop := exists b sw, schedule_at b sw S.

Lemma schedule_at_kept b sw S : schedule_at b sw S -> schedule_kept S.
Proof. intros H. now exists b, sw. Qed.

Lemma scheduled_mono S S' L d :
  (forall e, In e S -> In e S') -> scheduled S L d -> scheduled S' L d.
Proof.
  intros Hs (k0 & n & op & ts & dests & H & Hrest).
  exists k0, n, op, ts, dests. split; [now apply Hs|exact Hrest].
Qed.

Lemma justified_mono S S' k s :
  (forall e, In e S -> In e S') -> justified S k s -> justified S' k s.
Proof.
  intros Hs (k0 & n & op & ts & dests & Hk & H & Hrest).
  exists k0, n, op, ts, dests. split; [exact Hk|]. split; [now apply Hs|exact Hrest].
Qed.

Lemma honoured_mono b sw S S' k0 n :
  (forall e, In e S -> In e S') -> honoured b sw S k0 n -> honoured b sw S' k0 n.
Proof.
  intros Hs (op & ts & Hd & H). exists op, ts. split; [exact Hd|].
  intros dests Hin. destruct (H dests Hin) as [H1 H2]. split; [exact H1|].
  intros Hk. now apply Hs, H2.
Qed.

Lemma level_done_mono S S' L :
  (forall e, In e S -> In e S') -> level_done S L -> level_done S' L.
Proof. intros Hs H op ts Hop Hts Hev. exact (Hs _ (H op ts Hop Hts Hev)). Qed.

Lemma in_snoc {X} (x y : X) l : In x (l ++ [y]) <-> In x l \/ x = y.
Proof. rewrite in_app_iff. cbn. intuition. Qed.

(** A swap-in of a descriptor stored under the level that is starting. *)
Lemma schedule_swapin k sw S n sz lt :
  schedule_at k sw S -> stored sw k (n, sz, lt) ->
  schedule_at k sw (S ++ [Log (SwappedIn k n)]).
Proof.
  intros (HA & HB & HC & HF) Hst.
  assert (Hs : forall e, In e S -> In e (S ++ [Log (SwappedIn k n)]))
    by (intros e He; apply in_or_app; now left).
  split; [|split; [|split]].
  - intros L d H. eapply scheduled_mono; [exact Hs|]. now apply HA.
  - intros k0 n0 H. apply in_snoc in H. destruct H as [H|H]; [|discriminate].
    destruct (HB k0 n0 H) as [Hk Hh]. split; [exact Hk|].
    eapply honoured_mono; [exact Hs|exact Hh].
  - intros k1 s H. apply in_snoc in H. destruct H as [H|H].
    + eapply justified_mono; [exact Hs|]. now apply HC.
    + injection H as -> ->.
      destruct (HA k (n, sz, lt) Hst) as (k0 & n0 & op & ts & dests & He & Hd & Hg & Hdd & Hk).
      destruct (HB k0 n0 He) as [Hlt _].
      exists k0, n0, op, ts, dests.
      split; [lia|]. split; [now apply Hs|]. split; [exact Hd|]. split; [exact Hg|].
      split; [|exact Hk].
      unfold descr_of in Hdd. injection Hdd as -> _ _.
      destruct Hd as (_ & _ & <- & _). reflexivity.
  - intros L H. apply in_snoc in H. destruct H as [H|H]; [|discriminate].
    destruct (HF L H) as [Hl Hd]. split; [exact Hl|].
    eapply level_done_mono; [exact Hs|exact Hd].
Qed.

(** The swap-in loop of level [k] is over. *)
Lemma schedule_next k sw S :
  schedule_at k sw S ->
  (forall d, stored sw k d -> In (Log (SwappedIn k (fst (fst d)))) S) ->
  schedule_at (k + 1) sw S.
Proof.
  intros (HA & HB & HC & HF) Hall.
  split; [exact HA|]. split; [|split; [exact HC|]].
  - intros k0 n H. destruct (HB k0 n H) as [Hk (op & ts & Hd & Hh)].
    split; [lia|]. exists op, ts. split; [exact Hd|].
    intros dests Hin. destruct (Hh dests Hin) as [Hst Hsw]. split; [exact Hst|].
    intros Hkey. destruct (Z.eq_dec (key_of dests) k) as [E|E].
    + rewrite E in *. specialize (Hall _ Hst). cbn in Hall.
      destruct Hd as (_ & _ & <- & _). exact Hall.
    + apply Hsw. lia.
  - intros L H. destruct (HF L H) as [Hl Hd]. split; [lia|exact Hd].
Qed.

(** A swap-out decision at level [k]. *)
Lemma schedule_swapout k sw sw' S op ts :
  schedule_at (k + 1) sw S -> 0 <= k ->
  decided k (ts_name ts) op ts ->
  (forall L d, stored sw L d -> stored sw' L d) ->
  (forall dests, In dests (groups_of op ts) ->
     stored sw' (key_of dests) (descr_of ts dests)) ->
  (forall L d, stored sw' L d ->
     stored sw L d \/
     exists dests, In dests (groups_of op ts) /\ L = key_of dests /\
                   d = descr_of ts dests) ->
  schedule_at (k + 1) sw' (S ++ [Log (SwappedOut k (ts_name ts))]).
Proof.
  intros (HA & HB & HC & HF) Hk Hd Hold Hnew Hinv.
  assert (Hs : forall e, In e S -> In e (S ++ [Log (SwappedOut k (ts_name ts))]))
    by (intros e He; apply in_or_app; now left).
  assert (Hlast : In (Log (SwappedOut k (ts_name ts)))
                     (S ++ [Log (SwappedOut k (ts_name ts))]))
    by (apply in_or_app; right; now left).
  split; [|split; [|split]].
  - intros L d H. destruct (Hinv L d H) as [H1|(dests & Hin & -> & ->)].
    + eapply scheduled_mono; [exact Hs|]. now apply HA.
    + exists k, (ts_name ts), op, ts, dests. auto.
  - intros k0 n H. apply in_snoc in H. destruct H as [H|H].
    + destruct (HB k0 n H) as [Hk0 (op0 & ts0 & Hd0 & Hh)]. split; [exact Hk0|].
      exists op0, ts0. split; [exact Hd0|]. intros dests Hin.
      destruct (Hh dests Hin) as [Hst Hsw]. split; [now apply Hold|].
      intros Hkey. now apply Hs, Hsw.
    + injection H as -> ->. split; [lia|]. exists op, ts. split; [exact Hd|].
      intros dests Hin. split; [now apply Hnew|]. lia.
  - intros k1 s H. apply in_snoc in H. destruct H as [H|H]; [|discriminate].
    eapply justified_mono; [exact Hs|]. now apply HC.
  - intros L H. apply in_snoc in H. destruct H as [H|H]; [|discriminate].
    destruct (HF L H) as [Hl Hdone]. split; [exact Hl|].
    eapply level_done_mono; [exact Hs|exact Hdone].
Qed.

(** The end of level [k]. *)
Lemma schedule_avail k sw S :
  schedule_at (k + 1) sw S -> level_done S k ->
  schedule_at (k + 1) sw (S ++ [Log (AvailableMemory k)]).
Proof.
  intros (HA & HB & HC & HF) Hdone.
  assert (Hs : forall e, In e S -> In e (S ++ [Log (AvailableMemory k)]))
    by (intros e He; apply in_or_app; now left).
  split; [|split; [|split]].
  - intros L d H. eapply scheduled_mono; [exact Hs|]. now apply HA.
  - intros k0 n H. apply in_snoc in H. destruct H as [H|H]; [|discriminate].
    destruct (HB k0 n H) as [Hk0 Hh]. split; [exact Hk0|].
    eapply honoured_mono; [exact Hs|exact Hh].
  - intros k1 s H. apply in_snoc in H. destruct H as [H|H]; [|discriminate].
    eapply justified_mono; [exact Hs|]. now apply HC.
  - intros L H. apply in_snoc in H. destruct H as [H|H].
    + destruct (HF L H) as [Hl Hd]. split; [exact Hl|].
      eapply level_done_mono; [exact Hs|exact Hd].
    + injection H as ->. split; [lia|].
      eapply level_done_mono; [exact Hs|exact Hdone].
Qed.

End Schedule.

Section ScheduleRun.
Variable sim : Simulator.
Variables th ah gb : Z.

Lemma extends_allocate_check o0 n sz lt loc :
  preserves (extends o0) (ok <- _allocate sim n sz lt ;; check_ok sim ok loc).
Proof. pres. Qed.

Lemma sched_swapin_tensors k loc :
  hoare (observing is_sched (schedule_at sim th ah gb k (swapins loc)))
        (swapin_tensors sim k loc)
        (fun loc' => observing is_sched (schedule_at sim th ah gb (k + 1) (swapins loc')))
        (observing is_sched (schedule_kept sim th ah gb)).
Proof.
  unfold swapin_tensors.
  set (ds := match Dict.get Z.eqb k (swapins loc) with Some s => s | None => [] end).
  assert (Hds : forall d, stored (swapins loc) k d <-> In d ds).
  { intros d. unfold stored, ds. destruct (Dict.get Z.eqb k (swapins loc)) as [s|].
    - split; [intros (s' & [= <-] & H); exact H|eauto].
    - split; [intros (s' & [=] & _)|intros []]. }
  clearbody ds.
  eapply hoare_conseq;
    [| |intros w H; exact H
     |apply (hoare_loop
               (fun pre acc =>
                  observing is_sched
                    (fun S => (swapins acc = swapins loc /\
                               schedule_at sim th ah gb k (swapins loc) S) /\
                              forall d, In d pre ->
                                In (Log (SwappedIn k (fst (fst d)))) S))
               (observing is_sched (schedule_kept sim th ah gb)))].
  - intros w H. split; [split; [reflexivity|exact H]|intros d []].
  - intros loc' w [[Hsw Hinv] Hall]. unfold observing. rewrite Hsw.
    apply schedule_next; [exact Hinv|]. intros d Hd. apply Hall, Hds, Hd.
  - intros pre [[n sz] lt] post acc Hx. cbv beta iota zeta.
    assert (Hst : stored (swapins loc) k (n, sz, lt)).
    { apply Hds. rewrite Hx. apply in_or_app. right. now left. }
    eapply hoare_conseq;
      [intros w H; exact H| |intros w H; exact H
       |apply (hoare_frame is_sched
                 (fun S => forall d, In d pre -> In (Log (SwappedIn k (fst (fst d)))) S)
                 (fun S => swapins acc = swapins loc /\
                           schedule_at sim th ah gb k (swapins loc) S)
                 _
                 (fun acc' S => (swapins acc' = swapins loc /\
                                 schedule_at sim th ah gb k (swapins loc) S) /\
                                In (Log (SwappedIn k n)) S))].
    + intros acc' w [[Hi Hn] HF]. split; [exact Hi|].
      intros d Hd. apply in_snoc in Hd. destruct Hd as [Hd| ->]; [now apply HF|exact Hn].
    + intros S S' HF d Hd. apply in_or_app. left. now apply HF.
    + intros o0. unfold _log_info. pres.
    + unfold _log_info.
      apply (hoare_emit is_sched _
               (fun S => (swapins (set_ts_size sz acc) = swapins loc /\
                          schedule_at sim th ah gb k (swapins loc) S) /\
                         In (Log (SwappedIn k n)) S)); [reflexivity| |].
      * intros S [Hsw Hinv]. split; [split; [exact Hsw|]|].
        -- now apply (schedule_swapin sim th ah gb k _ S n sz lt).
        -- apply in_or_app. right. now left.
      * apply (hoare_allocate_check sim is_sched)
          with (p := fun sw S => (sw = swapins loc /\
                                  schedule_at sim th ah gb k (swapins loc) S) /\
                                 In (Log (SwappedIn k n)) S);
          try reflexivity.
        intros sw S [[_ H] _]. now apply schedule_at_kept in H.
Qed.

Lemma sched_swap_out_tensor k op loc ts :
  0 <= k ->
  In op (_get_ops_by_level (_lms sim) k) ->
  In ts (PySet.of_list Tensor_eqb (op_outputs op)) ->
  ~ In (op_name op) (_excl_src_ops (_lms sim)) ->
  hoare (observing is_sched (schedule_at sim th ah gb (k + 1) (swapins loc)))
        (swap_out_tensor sim th ah gb k (op_name op) loc ts)
        (fun loc' =>
           observing is_sched
             (fun S => schedule_at sim th ah gb (k + 1) (swapins loc') S /\
                       (evicts sim th op ts ->
                        In (Log (SwappedOut k (ts_name ts))) S)))
        (observing is_sched (schedule_kept sim th ah gb)).
Proof.
  intros Hk Hop Hts Hsrc w H. rewrite swap_out_tensor_cases.
  pose proof (evictable_iff sim th op ts Hsrc) as Hiff.
  destruct (evictable sim th op ts) eqn:Ev.
  - destruct (Dict.get String.eqb (ts_name ts) (_ref_counts (self w))) as [rc|].
    + cbn [fst snd]. unfold observing in *. cbn [out]. rewrite filter_app. cbn.
      split; [|intros _; apply in_or_app; right; now left].
      apply (schedule_swapout sim th ah gb k (swapins loc) _ _ op ts); auto.
      * split; [exact Hop|]. split; [exact Hts|]. split; [reflexivity|].
        now apply Hiff.
      * intros L d Hst. apply stored_add_swapins_old. exact Hst.
      * intros dests. apply stored_add_swapins_new.
      * intros L d Hst. apply stored_add_swapins_inv in Hst. exact Hst.
    + cbn [fst snd]. now apply schedule_at_kept in H.
  - cbn [fst snd]. split.
    + destruct (ts_ndims ts) as [nd|]; [destruct (nd <=? 1)|]; exact H.
    + intros Hev. apply Hiff in Hev. discriminate.
Qed.

Lemma extends_swap_out_tensor o0 k op_name loc ts :
  preserves (extends o0) (swap_out_tensor sim th ah gb k op_name loc ts).
Proof. pres. Qed.

Lemma sched_swap_out_tensors k op loc :
  0 <= k ->
  In op (_get_ops_by_level (_lms sim) k) ->
  hoare (observing is_sched (schedule_at sim th ah gb (k + 1) (swapins loc)))
        (swap_out_tensors sim th ah gb k op
           (PySet.of_list Tensor_eqb (op_outputs op)) loc)
        (fun loc' =>
           observing is_sched
             (fun S => schedule_at sim th ah gb (k + 1) (swapins loc') S /\
                       forall ts,
                         In ts (PySet.of_list Tensor_eqb (op_outputs op)) ->
                         evicts sim th op ts ->
                         In (Log (SwappedOut k (ts_name ts))) S))
        (observing is_sched (schedule_kept sim th ah gb)).
Proof.
  intros Hk Hop. unfold swap_out_tensors.
  destruct (PySet.mem String.eqb (op_name op) (_excl_src_ops (_lms sim))) eqn:Hsrc.
  - apply (mem_true_iff String.eqb String.eqb_eq) in Hsrc.
    apply hoare_ret. intros w H. split; [exact H|].
    intros ts _ (_ & Hno & _). contradiction.
  - apply (mem_false_iff String.eqb String.eqb_eq) in Hsrc.
    eapply hoare_conseq;
      [| |intros w H; exact H
       |apply (hoare_loop
                 (fun pre acc =>
                    observing is_sched
                      (fun S => schedule_at sim th ah gb (k + 1) (swapins acc) S /\
                                forall ts, In ts pre -> evicts sim th op ts ->
                                  In (Log (SwappedOut k (ts_name ts))) S))
                 (observing is_sched (schedule_kept sim th ah gb)))].
    + intros w H. split; [exact H|intros ts []].
    + intros loc' w H. exact H.
    + intros pre ts post acc Hx.
      eapply hoare_conseq;
        [intros w H; exact H| |intros w H; exact H
         |apply (hoare_frame is_sched
                   (fun S => forall ts, In ts pre -> evicts sim th op ts ->
                               In (Log (SwappedOut k (ts_name ts))) S)
                   (schedule_at sim th ah gb (k + 1) (swapins acc))
                   _
                   (fun acc' S => schedule_at sim th ah gb (k + 1) (swapins acc') S /\
                                  (evicts sim th op ts ->
                                   In (Log (SwappedOut k (ts_name ts))) S)))].
      * intros acc' w [[Hi Hn] HF]. split; [exact Hi|].
        intros ts' Hd Hev. apply in_snoc in Hd.
        destruct Hd as [Hd| ->]; [now apply HF|now apply Hn].
      * intros S S' HF ts' Hd Hev. apply in_or_app. left. now apply HF.
      * intros o0. apply extends_swap_out_tensor.
      * apply sched_swap_out_tensor; auto.
        rewrite Hx. apply in_or_app. right. now left.
Qed.

Lemma sched_execute_op k loc op :
  0 <= k ->
  In op (_get_ops_by_level (_lms sim) k) ->
  hoare (observing is_sched (schedule_at sim th ah gb (k + 1) (swapins loc)))
        (execute_op sim th ah gb k loc op)
        (fun loc' =>
           observing is_sched
             (fun S => schedule_at sim th ah gb (k + 1) (swapins loc') S /\
                       forall ts,
                         In ts (PySet.of_list Tensor_eqb (op_outputs op)) ->
                         evicts sim th op ts ->
                         In (Log (SwappedOut k (ts_name ts))) S))
        (observing is_sched (schedule_kept sim th ah gb)).
Proof.
  intros Hk Hop. unfold execute_op.
  apply hoare_silent; [intros L; pres|apply schedule_at_kept|intros _]. cbv zeta.
  eapply hoare_bind.
  { apply (hoare_allocate_inputs sim is_sched)
      with (p := fun sw S => schedule_at sim th ah gb (k + 1) sw S); try reflexivity.
    intros sw S. apply schedule_at_kept. }
  intros loc1. eapply hoare_bind.
  { apply (hoare_allocate_outputs sim is_sched)
      with (p := fun sw S => schedule_at sim th ah gb (k + 1) sw S); try reflexivity.
    intros sw S. apply schedule_at_kept. }
  intros loc2.
  apply hoare_silent; [intros L; pres|apply schedule_at_kept|intros _].
  apply hoare_silent; [intros L; pres|apply schedule_at_kept|intros _].
  apply hoare_silent; [intros L; pres|apply schedule_at_kept|intros _].
  now apply sched_swap_out_tensors.
Qed.

Lemma extends_execute_op o0 k loc op :
  preserves (extends o0) (execute_op sim th ah gb k loc op).
Proof. pres. Qed.

Lemma sched_simulate_level k loc :
  0 <= k ->
  hoare (observing is_sched (schedule_at sim th ah gb k (swapins loc)))
        (simulate_level sim th ah gb loc k)
        (fun loc' => observing is_sched (schedule_at sim th ah gb (k + 1) (swapins loc')))
        (observing is_sched (schedule_kept sim th ah gb)).
Proof.
  intros Hk. unfold simulate_level.
  apply hoare_silent; [intros L; pres|apply schedule_at_kept|intros _].
  apply hoare_silent; [intros L; pres|apply schedule_at_kept|intros _]. cbv zeta.
  eapply hoare_bind; [apply sched_swapin_tensors|]. intros loc1.
  eapply hoare_bind
    with (R := fun loc2 =>
                 observing is_sched
                   (fun S => schedule_at sim th ah gb (k + 1) (swapins loc2) S /\
                             level_done sim th S k)).
  - eapply hoare_conseq;
      [| |intros w H; exact H
       |apply (hoare_loop
                 (fun pre acc =>
                    observing is_sched
                      (fun S => schedule_at sim th ah gb (k + 1) (swapins acc) S /\
                                forall op, In op pre ->
                                forall ts,
                                  In ts (PySet.of_list Tensor_eqb (op_outputs op)) ->
                                  evicts sim th op ts ->
                                  In (Log (SwappedOut k (ts_name ts))) S))
                 (observing is_sched (schedule_kept sim th ah gb)))].
    + intros w H. split; [exact H|intros op []].
    + intros loc2 w [Hi Hall]. split; [exact Hi|].
      intros op ts Hop Hts Hev. now apply (Hall op).
    + intros pre op post acc Hx.
      eapply hoare_conseq;
        [intros w H; exact H| |intros w H; exact H
         |apply (hoare_frame is_sched
                   (fun S => forall op, In op pre ->
                             forall ts,
                               In ts (PySet.of_list Tensor_eqb (op_outputs op)) ->
                               evicts sim th op ts ->
                               In (Log (SwappedOut k (ts_name ts))) S)
                   (schedule_at sim th ah gb (k + 1) (swapins acc))
                   _
                   (fun acc' S =>
                      schedule_at sim th ah gb (k + 1) (swapins acc') S /\
                      forall ts,
                        In ts (PySet.of_list Tensor_eqb (op_outputs op)) ->
                        evicts sim th op ts ->
                        In (Log (SwappedOut k (ts_name ts))) S))].
      * intros acc' w [[Hi Hn] HF]. split; [exact Hi|].
        intros op' Hd. apply in_snoc in Hd.
        destruct Hd as [Hd| ->]; [now apply HF|exact Hn].
      * intros S S' HF op' Hd ts Hts Hev. apply in_or_app. left. now apply (HF op').
      * intros o0. apply extends_execute_op.
      * apply sched_execute_op; auto.
        rewrite Hx. apply in_or_app. right. now left.
  - intros loc2. unfold _log_info.
    apply (hoare_emit is_sched _ (schedule_at sim th ah gb (k + 1) (swapins loc2)));
      [reflexivity| |].
    + intros S [Hi Hd]. now apply schedule_avail.
    + apply hoare_ret. intros w H. exact H.
Qed.

Lemma sched_levels len : forall s loc,
  hoare (observing is_sched (schedule_at sim th ah gb (Z.of_nat s) (swapins loc)))
        (foldM (simulate_level sim th ah gb) (map Z.of_nat (seq s len)) loc)
        (fun loc' =>
           observing is_sched (schedule_at sim th ah gb (Z.of_nat (s + len)) (swapins loc')))
        (observing is_sched (schedule_kept sim th ah gb)).
Proof.
  induction len as [|len IH]; intros s loc.
  - cbn. apply hoare_ret. intros w H. now rewrite Nat.add_0_r.
  - cbn [seq map foldM]. eapply hoare_bind; [apply sched_simulate_level; lia|].
    intros loc1. replace (Z.of_nat s + 1) with (Z.of_nat (S s)) by lia.
    replace (s + S len)%nat with (S s + len)%nat by lia. apply IH.
Qed.

(** The schedule once the first [m] levels have run to their end. *)
Lemma levels_prefix_sched m :
  match foldM (simulate_level sim th ah gb) (range m) init_locals
              {| self := empty_ledger; out := [Log (Simulating th ah gb)] |} with
  | (Val loc, w) =>
      schedule_at sim th ah gb (Z.of_nat m) (swapins loc) (filter is_sched (out w))
  | (_, w) => schedule_kept sim th ah gb (filter is_sched (out w))
  end.
Proof.
  unfold range.
  pose proof (sched_levels m 0 init_locals
                {| self := empty_ledger; out := [Log (Simulating th ah gb)] |}) as H.
  assert (H0 : schedule_at sim th ah gb (Z.of_nat 0) (swapins init_locals) []).
  { split; [|split; [|split]].
    - intros L d (ds & [=] & _).
    - intros k0 n [].
    - intros k s [].
    - intros L []. }
  specialize (H H0).
  destruct (foldM _ _ _ _) as [[loc|b|e] w]; cbn [fst snd] in H; exact H.
Qed.

(** The schedule at the end of the level loop of [play]. *)
Lemma levels_sched :
  match levels sim th ah gb with
  | (Val loc, w) =>
      schedule_at sim th ah gb (Z.of_nat (_topo_sort_size (_lms sim))) (swapins loc)
          (filter is_sched (out w))
  | (_, w) => schedule_kept sim th ah gb (filter is_sched (out w))
  end.
Proof. apply levels_prefix_sched. Qed.

Lemma play_sched l :
  schedule_kept sim th ah gb (filter is_sched (snd (play sim th ah gb l))).
Proof.
  rewrite play_after_levels. pose proof levels_sched as H.
  destruct (levels sim th ah gb) as [[loc|b|e] w]; cbn [snd]; try exact H.
  rewrite !filter_app. destruct (_plot sim); cbn; rewrite !app_nil_r;
    now apply schedule_at_kept in H.
Qed.

End ScheduleRun.

(** An evicting decision stores one descriptor per group. *)
Lemma swap_out_tensor_stores sim th ah gb k op loc ts w loc' w' dests :
  evicts sim th op ts ->
  In dests (groups_of sim th gb op ts) ->
  swap_out_tensor sim th ah gb k (op_name op) loc ts w = (Val loc', w') ->
  stored (swapins loc') (key_of sim ah dests) (descr_of sim ts dests).
Proof.
  intros Hev Hin. rewrite swap_out_tensor_cases.
  assert (Ev : evictable sim th op ts = true).
  { apply evictable_iff; [|exact Hev]. now destruct Hev as (_ & H & _). }
  rewrite Ev.
  destruct (Dict.get String.eqb (ts_name ts) (_ref_counts (self w))); [|discriminate].
  intros [= <- _]. now apply stored_add_swapins_new.
Qed.

Lemma in_filter_sched e o : is_sched e = true -> In e o -> In e (filter is_sched o).
Proof. intros He Hin. apply filter_In. auto. Qed.

Lemma filter_sched_in e o : In e (filter is_sched o) -> In e o.
Proof. intros H. now apply filter_In in H. Qed.


(** C4.  The decision of the swap-out loop for one output of an op that is
    not an excluded source: when the output meets the condition (rank above
    1, a consumer farther than [threshold] that is not an excluded
    destination) and still has a reference count, it is logged and recorded
    as swapped out and its count goes down by the number of such consumers
    and up by [swapout_delay]; when it meets the condition and has no count
    any more, [KeyError] is raised and nothing is recorded; when it does not
    meet the condition nothing changes.  In a call of [play] every output
    logged as swapped out meets the condition, and every output that meets
    it is logged as swapped out if the run gets to the end of the level of
    its op.  On the graph of [grad/mul] the run does not get there: the
    output [grad/mul:0] meets the condition and is allocated, its count is
    taken for that of the input [mul:0] and it is released, and the swap-out
    loop raises [KeyError] instead of recording it. *)
Theorem swap_out_decision :
  (forall sim th ah gb k op loc ts w,
      ~ In (op_name op) (_excl_src_ops (_lms sim)) ->
      (evicts sim th op ts ->
         NoDup (dest_ops_of sim th (op_name op) ts) /\
         (forall d, In d (dest_ops_of sim th (op_name op) ts)
                    <-> is_dest sim th op ts d) /\
         match Dict.get String.eqb (ts_name ts) (_ref_counts (self w)) with
         | Some rc =>
             exists loc',
               swap_out_tensor sim th ah gb k (op_name op) loc ts w
               = (Val loc',
                  {| self := set_ref_counts
                               (Dict.set String.eqb (ts_name ts)
                                  (rc - len (dest_ops_of sim th (op_name op) ts)
                                   + _swapout_delay sim))
                               (self w);
                     out := out w ++ [Log (SwappedOut k (ts_name ts))] |}) /\
               In (ts_name ts) (swapouts loc')
         | None =>
             swap_out_tensor sim th ah gb k (op_name op) loc ts w
             = (Raise (KeyError (ts_name ts)), w)
         end) /\
      (~ evicts sim th op ts ->
         exists loc',
           swap_out_tensor sim th ah gb k (op_name op) loc ts w = (Val loc', w) /\
           swapouts loc' = swapouts loc)) /\
  (forall sim th ah gb k op outs loc w,
      In (op_name op) (_excl_src_ops (_lms sim)) ->
      swap_out_tensors sim th ah gb k op outs loc w = (Val loc, w)) /\
  (forall sim th ah gb l,
      let '(r, l', o) := play sim th ah gb l in
      (forall k n,
          In (Log (SwappedOut k n)) o ->
          exists op ts,
            In op (_get_ops_by_level (_lms sim) k) /\
            In ts (PySet.of_list Tensor_eqb (op_outputs op)) /\
            ts_name ts = n /\
            evicts sim th op ts) /\
      (forall k op ts,
          In (Log (AvailableMemory k)) o ->
          In op (_get_ops_by_level (_lms sim) k) ->
          In ts (PySet.of_list Tensor_eqb (op_outputs op)) ->
          evicts sim th op ts ->
          In (Log (SwappedOut k (ts_name ts))) o)) /\
  (let op := {| op_name := "grad/mul"; op_inputs := [gm_T]; op_outputs := [gm_G] |} in
   let '(r, l', o) := play gm_sim 2 1 0 empty_ledger in
   In op (_get_ops_by_level (_lms gm_sim) 1) /\
   evicts gm_sim 2 op gm_G /\
   In (Log (Allocated 4 "grad/mul:0" 8 992)) o /\
   In (Log (Released 4 "grad/mul:0" 4 996)) o /\
   filter is_swapped_out o = [] /\
   r = Raised (KeyError "grad/mul:0")).
Proof.
  split; [|split; [|split]].
  - intros sim th ah gb k op loc ts w Hsrc.
    pose proof (evictable_iff sim th op ts Hsrc) as Hiff.
    rewrite swap_out_tensor_cases. split.
    + intros Hev. split; [apply NoDup_dest_ops_of|].
      split; [intros d; apply in_dest_ops_of|].
      rewrite (proj2 Hiff Hev).
      destruct (Dict.get String.eqb (ts_name ts) (_ref_counts (self w))); [|reflexivity].
      eexists. split; [reflexivity|].
      unfold add_swapins. rewrite add_swapins_swapouts. cbn.
      apply (in_add String.eqb String.eqb_eq). now left.
    + intros Hno. destruct (evictable sim th op ts) eqn:Ev.
      * destruct Hno. now apply Hiff.
      * eexists. split; [reflexivity|].
        destruct (ts_ndims ts) as [nd|]; [destruct (nd <=? 1)|]; reflexivity.
  - intros sim th ah gb k op outs loc w Hsrc. unfold swap_out_tensors.
    apply (mem_true_iff String.eqb String.eqb_eq) in Hsrc. now rewrite Hsrc.
  - intros sim th ah gb l. pose proof (play_sched sim th ah gb l) as H.
    destruct (play sim th ah gb l) as [[r l'] o]. cbn [snd] in H.
    destruct H as (b & sw & HA & HB & HC & HF). split.
    + intros k n Hin.
      destruct (HB k n (in_filter_sched (Log (SwappedOut k n)) o eq_refl Hin)) as [_ (op & ts & Hd & _)].
      exists op, ts. exact Hd.
    + intros k op ts Hav Hop Hts Hev.
      destruct (HF _ (in_filter_sched (Log (AvailableMemory k)) o eq_refl Hav)) as [_ Hdone].
      apply filter_sched_in. now apply (Hdone op ts).
  - vm_compute. split; [tauto|]. split.
    + split; [exists 2; split; [reflexivity|reflexivity]|].
      split; [tauto|]. exists "far". split; [tauto|]. split; [reflexivity|tauto].
    + tauto.
Qed.

(** X6.  When the swap-out loop evicts an output, the descriptor it stores
    for a group of destinations carries the tensor's size, the size of the
    group, and as name the tensor's name followed by the names of the ops of
    the group, joined by underscores.  That name is one [_is_swapin_tensor]
    recognises: while an entry of that name is resident, the tensor is found
    swapped in for every op of the group. *)
Theorem scheduled_swapin_is_recognised :
  (forall sim th ah gb k op loc ts w loc' w' dests,
      evicts sim th op ts ->
      In dests (_groupby (_lms sim) (dest_ops_of sim th (op_name op) ts) gb) ->
      swap_out_tensor sim th ah gb k (op_name op) loc ts w = (Val loc', w') ->
      exists ds,
        Dict.get Z.eqb
          (_get_level (_lms sim) (_get_earliest_op (_lms sim) dests) - ah)
          (swapins loc') = Some ds /\
        In (swapin_name (ts_name ts) dests, _ts_size sim ts, len dests) ds) /\
  (forall n dests d w,
      In d dests ->
      In (swapin_name n dests) (Dict.keys (_mem (self w))) ->
      exists s,
        _is_swapin_tensor n d w = (Val (true, s), w) /\
        In s (Dict.keys (_mem (self w))) /\
        names_both n d s).
Proof.
  split.
  { intros sim th ah gb k op loc ts w loc' w' dests Hev Hin E.
    exact (swap_out_tensor_stores sim th ah gb k op loc ts w loc' w' dests Hev Hin E). }
  intros n dests d w Hd Hres. unfold _is_swapin_tensor. rewrite bind_eq. cbn [gets].
  destruct (find _ (Dict.keys (_mem (self w)))) as [s|] eqn:E.
  - exists s. split; [reflexivity|].
    destruct (find_some _ _ E) as [Hin Hs]. split; [exact Hin|].
    now apply names_both_iff.
  - exfalso. pose proof (find_none _ _ E _ Hres) as Hn. cbn in Hn.
    assert (Hb : names_both n d (swapin_name n dests)).
    { split.
      - exists ""%string, ("_" ++ String.concat "_" dests)%string. reflexivity.
      - destruct (proj1 (contains_iff d _) (contains_concat d dests Hd))
          as (pre & post & H).
        exists (n ++ "_" ++ pre)%string, post. unfold swapin_name.
        rewrite H. now rewrite !append_assoc_string. }
    apply names_both_iff in Hb. congruence.
Qed.

(** ** The progress of a run *)

(** The messages that tell how far a run got: the start of a level, the
    start of an op, the end of a level. *)
Definition is_progress (e : Event) : bool :=
  match e with
  | Log (SimulateLevel _) | Log (ExecuteOp _ _) | Log (AvailableMemory _) => true
  | _ => false
  end.

(** What a level that is run to its end logs of its progress. *)
Definition level_progress (sim : Simulator) (k : Z) : list Event :=
  Log (SimulateLevel k)
  :: map (fun op => Log (ExecuteOp k (op_name op))) (_get_ops_by_level (_lms sim) k)
  ++ [Log (AvailableMemory k)].

(** What a run of all the levels logs of its progress. *)
Definition run_progress (sim : Simulator) : list Event :=
  flat_map (level_progress sim) (range (_topo_sort_size (_lms sim))).

Definition anything : list Event -> Prop := fun _ => True.

Lemma hoare_quiet {A} cls (p e : list Event -> Prop) (m : M A) :
  (forall L, preserves (kept cls L) m) ->
  (forall S, p S -> e S) ->
  hoare (observing cls p) m (fun _ => observing cls p) (observing cls e).
Proof.
  intros Hk Hpe w H. pose proof (Hk _ w eq_refl) as Hs. unfold kept in Hs.
  unfold observing in *. destruct (fst (m w)); rewrite Hs; auto.
Qed.

Section Progress.
Variable sim : Simulator.
Variables th ah gb : Z.

Lemma progress_execute_op k loc op L :
  hoare (observing is_progress (fun S => S = L))
        (execute_op sim th ah gb k loc op)
        (fun _ => observing is_progress
                    (fun S => S = L ++ [Log (ExecuteOp k (op_name op))]))
        (observing is_progress anything).
Proof.
  unfold execute_op, _log_info.
  apply (hoare_emit is_progress _
           (fun S => S = L ++ [Log (ExecuteOp k (op_name op))])); [reflexivity| |].
  - now intros S ->.
  - apply hoare_quiet; [intros L'; pres|exact (fun _ _ => I)].
Qed.

Lemma progress_simulate_level loc k L :
  hoare (observing is_progress (fun S => S = L))
        (simulate_level sim th ah gb loc k)
        (fun _ => observing is_progress (fun S => S = L ++ level_progress sim k))
        (observing is_progress anything).
Proof.
  unfold simulate_level, _log_info.
  apply (hoare_emit is_progress _ (fun S => S = L ++ [Log (SimulateLevel k)]));
    [reflexivity|now intros S ->|].
  apply hoare_silent; [intros L'; pres|exact (fun _ _ => I)|intros _]. cbv zeta.
  eapply hoare_bind.
  { apply hoare_quiet; [intros L'; pres|exact (fun _ _ => I)]. }
  intros loc1. cbv beta.
  eapply hoare_bind
    with (R := fun _ =>
                 observing is_progress
                   (fun S => S = (L ++ [Log (SimulateLevel k)])
                                 ++ map (fun op => Log (ExecuteOp k (op_name op)))
                                        (_get_ops_by_level (_lms sim) k))).
  - eapply hoare_conseq;
      [| |intros w H; exact H
       |apply (hoare_loop
                 (fun pre (_ : Locals) =>
                    observing is_progress
                      (fun S => S = (L ++ [Log (SimulateLevel k)])
                                    ++ map (fun op => Log (ExecuteOp k (op_name op)))
                                           pre))
                 (observing is_progress anything))].
    + intros w H. unfold observing in *. cbn. now rewrite app_nil_r.
    + intros loc2 w H. exact H.
    + intros pre op post acc _.
      eapply hoare_conseq;
        [intros w H; exact H| |intros w H; exact H|apply progress_execute_op].
      intros acc' w H. unfold observing in *. cbv beta in H.
      now rewrite H, map_app, app_assoc.
  - intros loc2.
    apply (hoare_emit is_progress _ (fun S => S = L ++ level_progress sim k));
      [reflexivity| |].
    + intros S ->. unfold level_progress. now rewrite <- !app_assoc.
    + apply hoare_ret. intros w H. exact H.
Qed.

Lemma progress_levels ks : forall loc L,
  hoare (observing is_progress (fun S => S = L))
        (foldM (simulate_level sim th ah gb) ks loc)
        (fun _ => observing is_progress
                    (fun S => S = L ++ flat_map (level_progress sim) ks))
        (observing is_progress anything).
Proof.
  induction ks as [|k ks IH]; intros loc L.
  - cbn. apply hoare_ret. intros w H. unfold observing in *. now rewrite app_nil_r.
  - cbn [foldM flat_map]. eapply hoare_bind; [apply progress_simulate_level|].
    intros loc1. rewrite app_assoc. apply IH.
Qed.

(** A call of [play] that plots and returns has run every level to its end
    and has drawn the diagram of the trace it leaves. *)
Lemma play_plot_progress l b :
  _plot sim = true ->
  fst (fst (play sim th ah gb l)) = Returned b ->
  filter is_progress (snd (play sim th ah gb l)) = run_progress sim /\
  In (Log (Diagram th ah gb (_mem_traces (snd (fst (play sim th ah gb l))))))
     (snd (play sim th ah gb l)).
Proof.
  intros Hplot. rewrite play_after_levels.
  pose proof (levels_oom sim th ah gb) as Hoom.
  pose proof (progress_levels (range (_topo_sort_size (_lms sim))) init_locals []
                {| self := empty_ledger; out := [Log (Simulating th ah gb)] |}
                eq_refl) as Hp.
  fold (levels sim th ah gb) in Hp.
  destruct (levels sim th ah gb) as [[loc|b'|e] w]; cbn [fst snd] in *.
  - intros _. rewrite Hplot. split.
    + rewrite !filter_app. cbn. rewrite !app_nil_r. exact Hp.
    + apply in_or_app. right. now left.
  - destruct Hoom as [Hf _]. congruence.
  - discriminate.
Qed.

End Progress.

(** C5 (the code departs from it).  A failed [_allocate] is one that logs
    out-of-memory.  A call of [play] that returns, returns [False] exactly
    when some allocation failed; in strict mode a failed allocation makes
    [play] return [False] at once, the report of the failure being the last
    thing observed; in diagnostic mode a call that returns has run every
    level to its end, executing every op of it, whatever failed on the way,
    and has drawn the diagram of the whole trace, which has one sample for
    every allocation and release of the run.  But a call can also end in
    an exception after allocations have failed: in diagnostic mode with a
    capacity of 4 bytes, the run of the graph of [grad/mul] logs two failed
    allocations and then raises [KeyError] in level 1; it returns nothing
    and never starts levels 2 to 5. *)
Theorem play_fails_iff_allocate_failed :
  (forall sim th ah gb l,
      (forall n sz lt w,
          exists b, fst (_allocate sim n sz lt w) = Val b /\
            filter is_oom (out (snd (_allocate sim n sz lt w)))
            = filter is_oom (out w)
              ++ (if b then []
                  else [Log (OOM n sz (_used_mem (self w))
                                 (_get_free_mem sim (self w)))])) /\
      let '(r, l', o) := play sim th ah gb l in
      (forall b, r = Returned b -> (b = false <-> filter is_oom o <> [])) /\
      (_plot sim = false -> filter is_oom o <> [] ->
         r = Returned false /\ ends_in_first_oom o) /\
      (_plot sim = true -> forall b, r = Returned b ->
         filter is_progress o = run_progress sim /\
         _mem_traces l' = map _used_mem (samples o) /\
         In (Log (Diagram th ah gb (_mem_traces l'))) o)) /\
  (let '(r, l', o) := play gm_sim_plot 2 1 0 empty_ledger in
   r = Raised (KeyError "grad/mul:0") /\
   filter is_oom o = [Log (OOM "mul:0" 4 0 4); Log (OOM "grad/mul:0" 4 4 0)] /\
   filter is_progress o
   = [Log (SimulateLevel 0); Log (ExecuteOp 0 "mul"); Log (AvailableMemory 0);
      Log (SimulateLevel 1); Log (ExecuteOp 1 "grad/mul")] /\
   run_progress gm_sim_plot
   = [Log (SimulateLevel 0); Log (ExecuteOp 0 "mul"); Log (AvailableMemory 0);
      Log (SimulateLevel 1); Log (ExecuteOp 1 "grad/mul"); Log (AvailableMemory 1);
      Log (SimulateLevel 2); Log (AvailableMemory 2);
      Log (SimulateLevel 3); Log (AvailableMemory 3);
      Log (SimulateLevel 4); Log (AvailableMemory 4);
      Log (SimulateLevel 5); Log (ExecuteOp 5 "far"); Log (AvailableMemory 5)]).
Proof.
  split; [|vm_compute; repeat split].
  intros sim th ah gb l.
  destruct (play_outcome_of_oom sim th ah gb l) as [Halloc Hplay].
  split; [exact Halloc|].
  pose proof (play_plot_progress sim th ah gb l) as Hprog.
  pose proof (samples_keep_sum_while_fresh sim th ah gb l) as Htrace.
  destruct (play sim th ah gb l) as [[r l'] o]. cbn [fst snd] in Hprog.
  destruct Hplay as (H1 & H2 & _). destruct Htrace as [Htrace _].
  split; [exact H1|]. split; [exact H2|].
  intros Hplot b ->. destruct (Hprog b Hplot eq_refl) as [Hp Hd]. auto.
Qed.

(** ** Where [play] raises *)

(** Lines 111-125: the start of a level, to the end of its swap-ins. *)
Definition level_head (sim : Simulator) (k : Z) (loc : Locals) : M Locals :=
  _log_info (SimulateLevel k) ;;
  _gc sim ;;
  swapin_tensors sim k loc.

(** Lines 128-173: an op, to the garbage collection that follows its
    execution. *)
Definition op_head (sim : Simulator) (k : Z) (loc : Locals) (op : Op) : M Locals :=
  _log_info (ExecuteOp k (op_name op)) ;;
  let in_tensors := PySet.of_list Tensor_eqb (op_inputs op) in
  let out_tensors := PySet.of_list Tensor_eqb (op_outputs op) in
  loc <- allocate_inputs sim (op_name op) in_tensors loc ;;
  loc <- allocate_outputs sim out_tensors loc ;;
  consume_inputs (op_name op) in_tensors ;;
  update_swapouts loc ;;
  _gc sim ;;
  ret loc.

Ltac split_binds :=
  unfold bind, ret;
  repeat match goal with
         | |- context [match ?m ?w with pair _ _ => _ end] =>
             destruct (m w) as [[?|?|?] ?]
         end;
  reflexivity.

Lemma execute_op_head sim th ah gb k loc op w :
  execute_op sim th ah gb k loc op w
  = (loc' <- op_head sim k loc op ;;
     swap_out_tensors sim th ah gb k op
       (PySet.of_list Tensor_eqb (op_outputs op)) loc') w.
Proof. unfold execute_op, op_head. cbv zeta. split_binds. Qed.

Lemma simulate_level_head sim th ah gb loc k w :
  simulate_level sim th ah gb loc k w
  = (loc1 <- level_head sim k loc ;;
     loc2 <- foldM (execute_op sim th ah gb k) (_get_ops_by_level (_lms sim) k) loc1 ;;
     _log_info (AvailableMemory k) ;;
     ret loc2) w.
Proof. unfold simulate_level, level_head. cbv zeta. split_binds. Qed.

(** A loop that raises has run the rounds before to their end. *)
Lemma foldM_raise_split {A B} (body : B -> A -> M B) xs :
  forall acc w e,
    fst (foldM body xs acc w) = Raise e ->
    exists pre x post acc1 w1,
      xs = pre ++ x :: post /\
      foldM body pre acc w = (Val acc1, w1) /\
      fst (body acc1 x w1) = Raise e.
Proof.
  induction xs as [|x xs IH]; intros acc w e; [discriminate|].
  rewrite foldM_cons. destruct (body acc x w) as [[acc1|b|e1] w1] eqn:E.
  - intros H. destruct (IH acc1 w1 e H) as (pre & y & post & acc2 & w2 & -> & Hpre & Hy).
    exists (x :: pre), y, post, acc2, w2. split; [reflexivity|].
    split; [|exact Hy]. rewrite foldM_cons, E. exact Hpre.
  - discriminate.
  - intros [= <-]. exists [], x, xs, acc, w. split; [reflexivity|].
    split; [reflexivity|]. now rewrite E.
Qed.

Lemma level_head_no_raise sim k loc w e :
  all_consistent w -> fst (level_head sim k loc w) <> Raise e.
Proof.
  intros Hw. unfold level_head. rewrite bind_eq. cbn [_log_info emit].
  apply (all_consistent_log (SimulateLevel k)) in Hw. cbn [emit snd] in Hw.
  set (w0 := {| self := self w; out := _ |}) in *. clearbody w0.
  rewrite bind_eq. destruct (gc_returns sim w0 (proj1 Hw)) as (w1 & E1).
  rewrite E1. apply never_raises_swapin_tensors.
Qed.

Lemma op_head_raise sim k loc op w e :
  all_consistent w ->
  fst (op_head sim k loc op w) = Raise e ->
  e = UnboundLocalError "ts_size" /\
  fst (allocate_inputs sim (op_name op) (PySet.of_list Tensor_eqb (op_inputs op)) loc
         (snd (_log_info (ExecuteOp k (op_name op)) w))) = Raise e.
Proof.
  intros Hw. unfold op_head. cbv zeta.
  set (ins := PySet.of_list Tensor_eqb (op_inputs op)).
  set (outs := PySet.of_list Tensor_eqb (op_outputs op)).
  rewrite bind_eq. cbn [_log_info emit snd].
  apply (all_consistent_log (ExecuteOp k (op_name op))) in Hw. cbn [emit snd] in Hw.
  set (w0 := {| self := self w; out := _ |}) in *. clearbody w0.
  rewrite bind_eq.
  pose proof (allocate_inputs_post sim (op_name op) ins loc w0) as Hin.
  assert (Hc1 : all_consistent (snd (allocate_inputs sim (op_name op) ins loc w0)))
    by (revert Hw; generalize w0; change (preserves all_consistent
          (allocate_inputs sim (op_name op) ins loc)); pres).
  destruct (allocate_inputs sim (op_name op) ins loc w0) as [[loc1|b|e1] w1];
    cbn in Hin, Hc1 |- *; [|discriminate|intros [= <-]; now split].
  rewrite bind_eq.
  pose proof (never_raises_allocate_outputs sim outs loc1 w1) as Hnr.
  assert (Hc2 : all_consistent (snd (allocate_outputs sim outs loc1 w1)))
    by (revert Hc1; generalize w1; change (preserves all_consistent
          (allocate_outputs sim outs loc1)); pres).
  assert (Hr2 : forall ts, In ts ins ->
            resolvable (op_name op) ts (snd (allocate_outputs sim outs loc1 w1))).
  { intros ts Hts. now apply resolvable_allocate_outputs, Hin. }
  destruct (allocate_outputs sim outs loc1 w1) as [[loc2|b|e2] w2];
    cbn in Hnr, Hc2, Hr2 |- *; [|discriminate|now destruct (Hnr e2)].
  rewrite bind_eq.
  destruct (consume_inputs_returns (op_name op) ins w2 (proj1 Hc2) Hr2) as (w3 & E3 & _).
  assert (Hc3 : all_consistent w3).
  { replace w3 with (snd (consume_inputs (op_name op) ins w2)) by now rewrite E3.
    revert Hc2. generalize w2.
    change (preserves all_consistent (consume_inputs (op_name op) ins)). pres. }
  rewrite E3, bind_eq.
  destruct (update_swapouts_returns loc2 w3 (proj1 Hc3)) as (w4 & E4).
  assert (Hc4 : all_consistent w4).
  { replace w4 with (snd (update_swapouts loc2 w3)) by now rewrite E4.
    revert Hc3. generalize w3.
    change (preserves all_consistent (update_swapouts loc2)). pres. }
  rewrite E4, bind_eq.
  destruct (gc_returns sim w4 (proj1 Hc4)) as (w5 & E5). rewrite E5.
  discriminate.
Qed.

Lemma swap_out_tensors_raise sim th ah gb k op outs loc w e :
  fst (swap_out_tensors sim th ah gb k op outs loc w) = Raise e ->
  exists ts, In ts outs /\ e = KeyError (ts_name ts).
Proof.
  unfold swap_out_tensors.
  destruct (PySet.mem String.eqb (op_name op) (_excl_src_ops (_lms sim)));
    [discriminate|].
  intros H. destruct (foldM_raise_split _ _ _ _ _ H)
    as (pre & ts & post & acc1 & w1 & -> & _ & Hts).
  exists ts. split; [apply in_or_app; right; now left|].
  now apply swap_out_tensor_raises in Hts.
Qed.

Lemma all_consistent_foldM_levels sim th ah gb ks loc :
  preserves all_consistent (foldM (simulate_level sim th ah gb) ks loc).
Proof. pres. Qed.

Lemma all_consistent_foldM_ops sim th ah gb k ops loc :
  preserves all_consistent (foldM (execute_op sim th ah gb k) ops loc).
Proof. pres. Qed.

Lemma all_consistent_level_head sim k loc :
  preserves all_consistent (level_head sim k loc).
Proof. unfold level_head. pres. Qed.

(** X7.  Of the exceptions of the model ([KeyError] from a dictionary,
    [UnboundLocalError] from a local), a call of [play] raises only in two
    places.  When it raises, the levels before have run to their end, and
    so have the garbage collection and the swap-ins of the level it is in
    and the ops of that level before the one it is at.  Then either that op raises [UnboundLocalError] for
    the local [ts_size] while allocating its inputs, or the op has allocated
    its inputs and its outputs, consumed its inputs, updated the swapped-out
    tensors and collected the garbage without raising, and its swap-out loop
    raises [KeyError] for the name of one of its outputs.  [level_head] and
    [op_head] are the parts of [simulate_level] and [execute_op] that come
    before the loop over the ops and before the swap-out loop.  The run of
    the graph of [grad/mul] raises such a [KeyError]. *)
Theorem play_raises_only :
  (forall sim th ah gb k loc op w,
      execute_op sim th ah gb k loc op w
      = (loc' <- op_head sim k loc op ;;
         swap_out_tensors sim th ah gb k op
           (PySet.of_list Tensor_eqb (op_outputs op)) loc') w) /\
  (forall sim th ah gb loc k w,
      simulate_level sim th ah gb loc k w
      = (loc1 <- level_head sim k loc ;;
         loc2 <- foldM (execute_op sim th ah gb k)
                       (_get_ops_by_level (_lms sim) k) loc1 ;;
         _log_info (AvailableMemory k) ;;
         ret loc2) w) /\
  (forall sim th ah gb l,
    match fst (fst (play sim th ah gb l)) with
    | Returned _ => True
    | Raised e =>
        exists ks k ks' loc w loc1 w1 ops op ops' loc2 w2,
          range (_topo_sort_size (_lms sim)) = ks ++ k :: ks' /\
          foldM (simulate_level sim th ah gb) ks init_locals
                {| self := empty_ledger; out := [Log (Simulating th ah gb)] |}
          = (Val loc, w) /\
          level_head sim k loc w = (Val loc1, w1) /\
          _get_ops_by_level (_lms sim) k = ops ++ op :: ops' /\
          foldM (execute_op sim th ah gb k) ops loc1 w1 = (Val loc2, w2) /\
          ((e = UnboundLocalError "ts_size" /\
            fst (allocate_inputs sim (op_name op)
                   (PySet.of_list Tensor_eqb (op_inputs op)) loc2
                   (snd (_log_info (ExecuteOp k (op_name op)) w2))) = Raise e) \/
           (exists loc3 w3 ts,
               op_head sim k loc2 op w2 = (Val loc3, w3) /\
               In ts (op_outputs op) /\
               e = KeyError (ts_name ts) /\
               fst (swap_out_tensors sim th ah gb k op
                      (PySet.of_list Tensor_eqb (op_outputs op)) loc3 w3) = Raise e))
    end) /\
  fst (fst (play gm_sim 2 1 0 empty_ledger)) = Raised (KeyError "grad/mul:0").
Proof.
  split; [intros; apply execute_op_head|].
  split; [intros; apply simulate_level_head|].
  split; [|reflexivity].
  intros sim th ah gb l. rewrite play_after_levels. unfold levels.
  set (w0 := {| self := empty_ledger; out := [Log (Simulating th ah gb)] |}).
  assert (H0 : all_consistent w0) by (repeat constructor).
  destruct (foldM (simulate_level sim th ah gb) (range (_topo_sort_size (_lms sim)))
              init_locals w0) as [[loc|b|e] wl] eqn:El; cbn [fst]; try exact I.
  assert (Hr : fst (foldM (simulate_level sim th ah gb)
                      (range (_topo_sort_size (_lms sim))) init_locals w0) = Raise e)
    by now rewrite El.
  destruct (foldM_raise_split _ _ _ _ _ Hr)
    as (ks & k & ks' & loc & w & Hks & Epre & Hk).
  assert (Hw : all_consistent w).
  { replace w with (snd (foldM (simulate_level sim th ah gb) ks init_locals w0))
      by now rewrite Epre.
    now apply all_consistent_foldM_levels. }
  rewrite simulate_level_head, bind_eq in Hk.
  pose proof (level_head_no_raise sim k loc w) as Hnr.
  pose proof (all_consistent_level_head sim k loc w Hw) as Hw1.
  destruct (level_head sim k loc w) as [[loc1|b|e1] w1] eqn:Eh; cbn [fst snd] in *;
    [|discriminate|now destruct (Hnr e1 Hw)].
  rewrite bind_eq in Hk.
  destruct (foldM (execute_op sim th ah gb k) (_get_ops_by_level (_lms sim) k) loc1 w1)
    as [[loc2'|b|e2] w2'] eqn:Eo; cbn [fst] in Hk; try discriminate.
  injection Hk as <-.
  assert (Hr2 : fst (foldM (execute_op sim th ah gb k)
                       (_get_ops_by_level (_lms sim) k) loc1 w1) = Raise e2)
    by now rewrite Eo.
  destruct (foldM_raise_split _ _ _ _ _ Hr2)
    as (ops & op & ops' & loc2 & w2 & Hops & Eops & Hop).
  assert (Hw2 : all_consistent w2).
  { replace w2 with (snd (foldM (execute_op sim th ah gb k) ops loc1 w1))
      by now rewrite Eops.
    now apply all_consistent_foldM_ops. }
  exists ks, k, ks', loc, w, loc1, w1, ops, op, ops', loc2, w2.
  repeat (split; [assumption|]).
  rewrite execute_op_head, bind_eq in Hop.
  pose proof (op_head_raise sim k loc2 op w2) as Hh.
  destruct (op_head sim k loc2 op w2) as [[loc3|b|e3] w3]; cbn [fst] in *.
  - right. destruct (swap_out_tensors_raise _ _ _ _ _ _ _ _ _ _ Hop) as (ts & Hts & ->).
    exists loc3, w3, ts. split; [reflexivity|].
    split; [now apply (in_of_list_subset Tensor_eqb)|]. split; [reflexivity|exact Hop].
  - discriminate.
  - injection Hop as ->. left. now apply Hh.
Qed.

(** ** Used bytes when a resident tensor is allocated again *)

(** An allocation that goes through (the size fits, or the simulator plots)
    of a name that is resident with [old] bytes. *)
Lemma allocate_over_resident sim n sz lt w old :
  Dict.get String.eqb n (_mem (self w)) = Some old ->
  sz < _get_free_mem sim (self w) \/ _plot sim = true ->
  let l' := self (snd (_allocate sim n sz lt w)) in
  _mem l' = Dict.set String.eqb n sz (_mem (self w)) /\
  _used_mem l' = _used_mem (self w) + sz /\
  sum_sizes (_mem l') = sum_sizes (_mem (self w)) + sz - old.
Proof.
  intros Hg Hgo.
  assert (E : self (snd (_allocate sim n sz lt w)) = allocated n sz lt (self w)).
  { destruct (Z.lt_ge_cases sz (_get_free_mem sim (self w))) as [Hfit|Hoom].
    - now rewrite allocate_fits.
    - destruct Hgo as [Hfit|Hplot]; [lia|].
      rewrite allocate_oom_plot; [reflexivity|lia|exact Hplot]. }
  cbv zeta. rewrite E. unfold allocated. cbn [_mem _used_mem].
  split; [reflexivity|]. split; [reflexivity|].
  now apply sum_sizes_set_present.
Qed.

(** C2 (the code departs from it).  [_allocate] adds the whole size to the
    used bytes and overwrites the entry of [_mem], also when the name is
    resident already: the used bytes then exceed the sum of the resident
    sizes by the size overwritten.  [play] does so on the graph of [x:0],
    whose ops are levelled in topological order and have distinct names, and
    whose destinations are grouped by level: the swap-in for the group
    [conv], [relu] is named [x:0_conv_relu] like the swap-in for the op
    [conv_relu], and is allocated at level 2 while that one, allocated at
    level 1, is resident.  From the third sample on the used bytes are 10
    above the sum of the resident sizes, to the end of the run.  With the
    group in the other order, [relu], [conv], its swap-in is named
    [x:0_relu_conv] like the swap-in for the op [relu_conv], which is
    allocated over it at level 3: the used bytes are 10 above the sum from
    the fourth sample on. *)
Theorem used_bytes_exceed_resident_sizes :
  (forall sim n sz lt w old,
      Dict.get String.eqb n (_mem (self w)) = Some old ->
      sz < _get_free_mem sim (self w) \/ _plot sim = true ->
      let l' := self (snd (_allocate sim n sz lt w)) in
      _mem l' = Dict.set String.eqb n sz (_mem (self w)) /\
      _used_mem l' = _used_mem (self w) + sz /\
      sum_sizes (_mem l') = sum_sizes (_mem (self w)) + sz - old) /\
  (forall t k op ts,
      In k (range 6) -> In op (cr_ops t k) -> In ts (op_inputs op) ->
      exists k' op', 0 <= k' < k /\ In op' (cr_ops t k') /\ In ts (op_outputs op')) /\
  (forall t k op,
      In k (range 6) -> In op (cr_ops t k) -> cr_level (op_name op) = k) /\
  (forall t, NoDup (map op_name (flat_map (cr_ops t) (range 6)))) /\
  _groupby (_lms (cr_sim cr_T)) (dest_ops_of (cr_sim cr_T) 1 "x" cr_T) 0
  = [["conv_relu"]; ["conv"; "relu"]; ["relu_conv"]] /\
  _groupby (_lms (cr_sim cr_T')) (dest_ops_of (cr_sim cr_T') 1 "x" cr_T') 0
  = [["conv_relu"]; ["relu"; "conv"]; ["relu_conv"]] /\
  (let '(r, l, o) := play (cr_sim cr_T) 1 2 0 empty_ledger in
   r = Returned true /\
   map (fun s => (_used_mem s, sum_sizes (_mem s), _mem s)) (samples o)
   = [(10, 10, [("x:0", 10)]);
      (20, 20, [("x:0", 10); ("x:0_conv_relu", 10)]);
      (30, 20, [("x:0", 10); ("x:0_conv_relu", 10)]);
      (40, 30, [("x:0", 10); ("x:0_conv_relu", 10); ("x:0_relu_conv", 10)]);
      (30, 20, [("x:0_conv_relu", 10); ("x:0_relu_conv", 10)]);
      (20, 10, [("x:0_relu_conv", 10)]);
      (10, 0, []);
      (20, 10, [("x:0", 10)])] /\
   ~ used_is_sum (nth 2 (samples o) empty_ledger) /\
   _mem_traces l = [10; 20; 30; 40; 30; 20; 10; 20] /\
   _used_mem l = 20 /\
   sum_sizes (_mem l) = 10) /\
  (let '(r, l, o) := play (cr_sim cr_T') 1 2 0 empty_ledger in
   r = Returned true /\
   map (fun s => (_used_mem s, sum_sizes (_mem s), _mem s)) (samples o)
   = [(10, 10, [("x:0", 10)]);
      (20, 20, [("x:0", 10); ("x:0_conv_relu", 10)]);
      (30, 30, [("x:0", 10); ("x:0_conv_relu", 10); ("x:0_relu_conv", 10)]);
      (40, 30, [("x:0", 10); ("x:0_conv_relu", 10); ("x:0_relu_conv", 10)]);
      (30, 20, [("x:0_conv_relu", 10); ("x:0_relu_conv", 10)]);
      (20, 10, [("x:0_relu_conv", 10)]);
      (10, 0, []);
      (20, 10, [("x:0", 10)]);
      (10, 0, [])] /\
   ~ used_is_sum (nth 3 (samples o) empty_ledger) /\
   _used_mem l = 10 /\
   sum_sizes (_mem l) = 0).
Proof.
  split; [exact allocate_over_resident|].
  split.
  { intros t k op ts Hk Hop Hts.
    exists 0, {| op_name := "x"; op_inputs := []; op_outputs := [t] |}.
    cbn in Hk.
    repeat (destruct Hk as [<-|Hk]; [cbn in Hop|]); try destruct Hk;
      repeat (destruct Hop as [<-|Hop]; [cbn in Hts|]); try destruct Hop;
      repeat (destruct Hts as [<-|Hts]); try destruct Hts;
      (split; [lia|split; [now left|now left]]). }
  split.
  { intros t k op Hk Hop. cbn in Hk.
    repeat (destruct Hk as [<-|Hk]; [cbn in Hop|]); try destruct Hk;
      repeat (destruct Hop as [<-|Hop]; [reflexivity|]); destruct Hop. }
  split.
  { intros t. cbn. repeat constructor; cbn; intuition discriminate. }
  split; [reflexivity|]. split; [reflexivity|].
  split; vm_compute; repeat split; try reflexivity; intros H; discriminate.
Qed.
